(** * Rofunc: actor models, the HOTU high-level agent, motion retargeting
      and the ZED recorder

    A shallow embedding of the Python sources

    - [rofunc/learning/RofuncRL/models/actor_models.py]
    - [rofunc/learning/RofuncRL/agents/mixline/hotu_hlmm_agent.py]
    - [rofunc/utils/datalab/poselib/xsens_fbx_to_amp_npy.py]
    - [rofunc/utils/datalab/poselib/robot_utils/Walker/generate_walker_tpose.py]
    - [rofunc/devices/zed/record.py]

    Conventions.  A float tensor is a (nested) list of real numbers: the
    arithmetic of the sources is read over [R], so rounding, overflow and
    NaN are outside the model.  A Python object that is mutated in place
    lives in an explicit store; a Python exception is a [None] / [inl]
    result.  Neural networks, samplers and the forward kinematics of the
    pose library are not part of the embedded files and enter as section
    variables. *)

From Stdlib Require Import Reals Lra Lia List ZArith Ascii String.
From stdpp Require Import gmap strings.

Local Open Scope R_scope.

(* ================================================================== *)
(** ** Tensors over the reals *)
(* ================================================================== *)

Module Torch.

(** One-, two- and three-dimensional float tensors. *)
Abbreviation t1 := (list R).
Abbreviation t2 := (list (list R)).
Abbreviation t3 := (list (list (list R))).

(** Elementwise lifting of a unary and of a binary operation.  The
    tensors the sources combine have equal shapes; [zip_with] stops at
    the shorter one. *)
Definition map1 (f : R -> R) (x : t1) : t1 := List.map f x.
Definition map2 (f : R -> R) (x : t2) : t2 := List.map (map1 f) x.
Definition map3 (f : R -> R) (x : t3) : t3 := List.map (map2 f) x.

Definition zip1 (f : R -> R -> R) (x y : t1) : t1 := zip_with f x y.
Definition zip2 (f : R -> R -> R) (x y : t2) : t2 := zip_with (zip1 f) x y.
Definition zip3 (f : R -> R -> R) (x y : t3) : t3 := zip_with (zip2 f) x y.

(** [x[i, j, k]], when the three indices are in range. *)
Definition index3 (x : t3) (i j k : nat) : option R :=
  row ← x !! i; col ← row !! j; col !! k.

(** [torch.sum] over a vector and over every element. *)
Definition sum1 (x : t1) : R := fold_right Rplus 0 x.
Definition flatten2 (x : t2) : t1 := List.concat x.
Definition flatten3 (x : t3) : t1 := List.concat (List.map flatten2 x).

(** [Tensor.mean()] and [Tensor.std()] (Bessel's correction, as torch
    does by default) over all the elements. *)
Definition mean (x : t1) : R := sum1 x / INR (length x).
Definition std (x : t1) : R :=
  sqrt (sum1 (map1 (fun a => (a - mean x) * (a - mean x)) x)
        / (INR (length x) - 1)).

(** [torch.norm(x, dim=-1)]: the Euclidean norm. *)
Definition norm (x : t1) : R := sqrt (sum1 (map1 (fun a => a * a) x)).

(** [torch.nn.functional.normalize(x, dim=-1)] with its defaults
    [p = 2], [eps = 1e-12]: [x / max(norm x, eps)]. *)
Definition normalize_eps : R := 1e-12.
Definition normalize1 (x : t1) : t1 :=
  map1 (fun a => a / Rmax (norm x) normalize_eps) x.
Definition normalize (x : t2) : t2 := List.map normalize1 x.

(** [torch.clamp(x, lo, hi)] is [min(max(x, lo), hi)]. *)
Definition clamp (lo hi x : R) : R := Rmin (Rmax x lo) hi.

(** [F.softplus] with its defaults [beta = 1], [threshold = 20]: the
    identity above the threshold, [log(1 + exp x)] below. *)
Definition softplus (x : R) : R :=
  if Rlt_dec 20 x then x else ln (1 + exp x).

(** [nn.Linear]: [y = x W^T + b], one output per row of [W]. *)
Record Linear : Type := { weight : t2; bias : t1 }.
Definition dot (u v : t1) : R := sum1 (zip1 Rmult u v).
Definition linear1 (L : Linear) (x : t1) : t1 :=
  zip_with (fun w b => dot w x + b) (weight L) (bias L).
Definition linear (L : Linear) (x : t2) : t2 := List.map (linear1 L) x.

(** [torch.distributions.Beta(concentration1, concentration0)].  The
    constructor accepts positive concentrations; the density has an
    interior mode when both exceed one. *)
Record Beta : Type := { concentration1 : t2; concentration0 : t2 }.
Definition Beta_valid (d : Beta) : Prop :=
  Forall (Forall (fun a => 0 < a)) (concentration1 d)
  /\ Forall (Forall (fun b => 0 < b)) (concentration0 d).
Definition Beta_has_mode (d : Beta) : Prop :=
  Forall (Forall (fun a => 1 < a)) (concentration1 d)
  /\ Forall (Forall (fun b => 1 < b)) (concentration0 d).

End Torch.

(** Shared facts about elementwise tensors. *)

Lemma Forall_map1 (P : R -> Prop) (f : R -> R) (x : Torch.t1) :
  (forall a, P (f a)) -> Forall P (Torch.map1 f x).
Proof.
  intros Hf. unfold Torch.map1. induction x as [|a x IH]; simpl; constructor; auto.
Qed.

Lemma Forall_map2 (P : R -> Prop) (f : R -> R) (x : Torch.t2) :
  (forall a, P (f a)) -> Forall (Forall P) (Torch.map2 f x).
Proof.
  intros Hf. unfold Torch.map2.
  induction x as [|r x IH]; simpl; constructor; auto using Forall_map1.
Qed.

Lemma Forall_zip1 (P Q S : R -> Prop) (f : R -> R -> R) (x y : Torch.t1) :
  (forall a b, P a -> Q b -> S (f a b)) ->
  Forall P x -> Forall Q y -> Forall S (Torch.zip1 f x y).
Proof.
  intros Hf Hx. revert y. unfold Torch.zip1.
  induction Hx as [|a x Ha Hx IH]; intros y Hy; simpl; [constructor|].
  destruct Hy as [|b y Hb Hy]; simpl; constructor; auto.
Qed.

Lemma Forall_zip2 (P Q S : R -> Prop) (f : R -> R -> R) (x y : Torch.t2) :
  (forall a b, P a -> Q b -> S (f a b)) ->
  Forall (Forall P) x -> Forall (Forall Q) y ->
  Forall (Forall S) (Torch.zip2 f x y).
Proof.
  intros Hf Hx. revert y. unfold Torch.zip2.
  induction Hx as [|a x Ha Hx IH]; intros y Hy; simpl; [constructor|].
  destruct Hy as [|b y Hb Hy]; simpl; constructor; eauto using Forall_zip1.
Qed.

Lemma lookup_map {A B : Type} (f : A -> B) (l : list A) (i : nat) :
  List.map f l !! i = f <$> l !! i.
Proof.
  revert i. induction l as [|a l IH]; intros [|i]; simpl; auto.
Qed.

Lemma softplus_pos (x : R) : 0 < Torch.softplus x.
Proof.
  unfold Torch.softplus. destruct (Rlt_dec 20 x) as [Hx|Hx]; [lra|].
  rewrite <- ln_1. apply ln_increasing; [lra|].
  generalize (exp_pos x). lra.
Qed.

(* ================================================================== *)
(** ** [actor_models.py] *)
(* ================================================================== *)

Module ActorModels.
Import Torch.

(** *** [BaseActor.update_parameters]

    The parameters of a [torch.nn.Module] are tensor objects that the
    method updates in place, so they live in a store: an address holds
    the (flattened) data of one parameter, and [parameters()] is the
    list of the addresses of a module's parameters, each listed once. *)

Abbreviation loc := nat (only parsing).
Abbreviation store := (gmap nat t1) (only parsing).

(** [dst.copy_(src)]: fails when either tensor is missing or the shapes
    differ. *)
Definition copy_ (dst : loc) (src : t1) (s : store) : option store :=
  d ← s !! dst;
  if decide (length d = length src) then Some (<[dst := src]> s) else None.

(** [dst.mul_(c)] *)
Definition mul_ (dst : loc) (c : R) (s : store) : option store :=
  d ← s !! dst; Some (<[dst := map1 (fun a => a * c) d]> s).

(** [dst.add_(t)] *)
Definition add_ (dst : loc) (t : t1) (s : store) : option store :=
  d ← s !! dst;
  if decide (length d = length t) then Some (<[dst := zip1 Rplus d t]> s)
  else None.

(** [for parameters, model_parameters in zip(...): body] *)
Fixpoint for_zip (body : loc -> loc -> store -> option store)
    (ps : list (loc * loc)) (s : store) : option store :=
  match ps with
  | [] => Some s
  | (p, m) :: ps => s' ← body p m s; for_zip body ps s'
  end.

(** The body of the hard-update loop:
    [parameters.data.copy_(model_parameters.data)] *)
Definition hard_body (p m : loc) (s : store) : option store :=
  md ← s !! m; copy_ p md s.

(** The body of the soft-update loop:
    [parameters.data.mul_(1 - polyak)] and then
    [parameters.data.add_(polyak * model_parameters.data)], the model's
    data being read after the multiplication has been done in place. *)
Definition soft_body (polyak : R) (p m : loc) (s : store) : option store :=
  s1 ← mul_ p (1 - polyak) s;
  md ← s1 !! m;
  add_ p (map1 (fun b => polyak * b) md) s1.

Definition hard_update (ps : list (loc * loc)) (s : store) : option store :=
  for_zip hard_body ps s.

Definition soft_update (polyak : R) (ps : list (loc * loc)) (s : store)
  : option store :=
  for_zip (soft_body polyak) ps s.

Definition update_parameters (self model : list loc) (polyak : R) (s : store)
  : option store :=
  if Req_dec_T polyak 1 then hard_update (zip self model) s
  else soft_update polyak (zip self model) s.

(** The soft-update formula of the docstring,
    [theta = (1 - rho) theta + rho theta_net]. *)
Definition polyak_average (rho : R) (theta theta_net : t1) : t1 :=
  zip1 (fun a b => (1 - rho) * a + rho * b) theta theta_net.

(** Self and model are separate modules of the same architecture: the
    two parameter lists have the same length, no address of [self] is
    listed twice or belongs to [model], and corresponding parameters are
    allocated with equal shapes. *)
Definition same_shape (s : store) (pm : loc * loc) : Prop :=
  exists theta theta_net,
    s !! pm.1 = Some theta /\ s !! pm.2 = Some theta_net
    /\ length theta = length theta_net.

Definition separate (self model : list loc) (s : store) : Prop :=
  length self = length model
  /\ NoDup self
  /\ (forall l, l ∈ self -> l ∉ model)
  /\ Forall (same_shape s) (zip self model).

(** What the update promises: it succeeds, every parameter of [self]
    holds the polyak average of its old value and the corresponding
    parameter of [model], and every parameter of [model] is as before. *)
Definition update_parameters_ok (self model : list loc) (polyak : R)
    (s : store) : Prop :=
  exists s',
    update_parameters self model polyak s = Some s'
    /\ (forall i l m theta theta_net,
          self !! i = Some l -> model !! i = Some m ->
          s !! l = Some theta -> s !! m = Some theta_net ->
          s' !! l = Some (polyak_average polyak theta theta_net))
    /\ (forall m, m ∈ model -> s' !! m = s !! m).

(** *** Proofs about [update_parameters] *)

Section UpdateParameters.

Implicit Types (s : store) (l m : loc) (theta theta_net : t1).

Lemma polyak_average_zip rho theta theta_net :
  zip1 Rplus (map1 (fun a => a * (1 - rho)) theta)
             (map1 (fun b => rho * b) theta_net)
  = polyak_average rho theta theta_net.
Proof.
  unfold polyak_average, zip1, map1. revert theta_net.
  induction theta as [|a theta IH]; intros [|b theta_net]; simpl; try reflexivity.
  f_equal; [ring | apply IH].
Qed.

Lemma polyak_average_1 theta theta_net :
  length theta = length theta_net -> polyak_average 1 theta theta_net = theta_net.
Proof.
  unfold polyak_average, zip1. revert theta_net.
  induction theta as [|a theta IH]; intros [|b theta_net] Hlen;
    simpl in *; try reflexivity; try discriminate.
  f_equal; [ring | apply IH; congruence].
Qed.

Lemma hard_body_insert s l m theta theta_net :
  s !! l = Some theta -> s !! m = Some theta_net ->
  length theta = length theta_net ->
  hard_body l m s = Some (<[l := theta_net]> s).
Proof.
  intros Hl Hm Hlen. unfold hard_body, copy_. rewrite Hm, Hl. cbn.
  rewrite decide_True by exact Hlen. reflexivity.
Qed.

Lemma soft_body_insert rho s l m theta theta_net :
  l <> m -> s !! l = Some theta -> s !! m = Some theta_net ->
  length theta = length theta_net ->
  soft_body rho l m s = Some (<[l := polyak_average rho theta theta_net]> s).
Proof.
  intros Hne Hl Hm Hlen. unfold soft_body, mul_, add_. rewrite Hl. cbn.
  rewrite (lookup_insert_ne s l m) by exact Hne. rewrite Hm. cbn.
  rewrite lookup_insert_eq. cbn.
  rewrite decide_True by (unfold map1; rewrite !length_map; exact Hlen).
  rewrite insert_insert_eq, polyak_average_zip. reflexivity.
Qed.

Lemma same_shape_insert s l v pm :
  pm.1 <> l -> pm.2 <> l -> same_shape s pm -> same_shape (<[l := v]> s) pm.
Proof.
  intros H1 H2 (theta & theta_net & Hl & Hm & Hlen).
  exists theta, theta_net. rewrite !lookup_insert_ne by congruence. auto.
Qed.

(** A loop whose body stores [F theta theta_net] at the parameter's
    address, run over separate parameter pairs. *)
Lemma for_zip_spec (body : loc -> loc -> store -> option store)
    (F : t1 -> t1 -> t1) :
  (forall s l m theta theta_net,
      l <> m -> s !! l = Some theta -> s !! m = Some theta_net ->
      length theta = length theta_net ->
      body l m s = Some (<[l := F theta theta_net]> s)) ->
  forall ps s,
    NoDup ps.*1 ->
    (forall l, l ∈ ps.*1 -> l ∉ ps.*2) ->
    Forall (same_shape s) ps ->
    exists s',
      for_zip body ps s = Some s'
      /\ (forall l, l ∉ ps.*1 -> s' !! l = s !! l)
      /\ (forall i l m theta theta_net,
            ps !! i = Some (l, m) ->
            s !! l = Some theta -> s !! m = Some theta_net ->
            s' !! l = Some (F theta theta_net)).
Proof.
  intros Hbody ps. induction ps as [|[l m] ps IH]; intros s Hnd Hdis Hsh.
  - exists s. split; [reflexivity|]. split; [reflexivity|].
    intros i ? ? ? ? Hi. rewrite lookup_nil in Hi. discriminate.
  - simpl in Hnd. apply NoDup_cons in Hnd as [Hl Hnd].
    apply Forall_cons in Hsh as [(theta & theta_net & Hsl & Hsm & Hlen) Hsh].
    simpl in Hsl, Hsm.
    assert (Hlm : l <> m).
    { intros ->. apply (Hdis m); simpl; left. }
    assert (Hsh' : Forall (same_shape (<[l := F theta theta_net]> s)) ps).
    { rewrite Forall_forall in Hsh |- *. intros [l' m'] Hin.
      apply same_shape_insert; simpl; [| |apply Hsh; exact Hin].
      - intros ->. apply Hl. apply list_elem_of_fmap. exists (l, m'). auto.
      - intros ->. apply (Hdis l); simpl; [left|right].
        apply list_elem_of_fmap. exists (l', l). auto. }
    destruct (IH (<[l := F theta theta_net]> s)) as (s' & Hrun & Hframe & Hres).
    + exact Hnd.
    + intros l' Hl' Hin. apply (Hdis l'); simpl; right; assumption.
    + exact Hsh'.
    + exists s'. split; [|split].
      * simpl. rewrite (Hbody s l m theta theta_net) by assumption. exact Hrun.
      * intros l' Hl'. simpl in Hl'. apply not_elem_of_cons in Hl' as [Hne Hl'].
        rewrite Hframe by exact Hl'. apply lookup_insert_ne. congruence.
      * intros [|i] l' m' theta' theta_net' Hi Hsl' Hsm'; simpl in Hi.
        -- injection Hi as <- <-.
           rewrite Hframe by exact Hl. rewrite lookup_insert_eq. congruence.
        -- assert (Hin : (l', m') ∈ ps) by (eapply list_elem_of_lookup_2; eauto).
           assert (Hl'l : l' <> l).
           { intros ->. apply Hl. apply list_elem_of_fmap. exists (l, m'). auto. }
           assert (Hm'l : m' <> l).
           { intros ->. apply (Hdis l); simpl; [left|right].
             apply list_elem_of_fmap. exists (l', l). auto. }
           apply (Hres i l' m'); [exact Hi| |];
             rewrite lookup_insert_ne by congruence; assumption.
Qed.

(** Two bodies that agree on separate, equally shaped pairs give the
    same loop. *)
Lemma for_zip_ext (body1 body2 : loc -> loc -> store -> option store)
    (F : t1 -> t1 -> t1) :
  (forall s l m theta theta_net,
      l <> m -> s !! l = Some theta -> s !! m = Some theta_net ->
      length theta = length theta_net ->
      body1 l m s = Some (<[l := F theta theta_net]> s)
      /\ body2 l m s = Some (<[l := F theta theta_net]> s)) ->
  forall ps s,
    NoDup ps.*1 ->
    (forall l, l ∈ ps.*1 -> l ∉ ps.*2) ->
    Forall (same_shape s) ps ->
    for_zip body1 ps s = for_zip body2 ps s.
Proof.
  intros Hbody ps. induction ps as [|[l m] ps IH]; intros s Hnd Hdis Hsh.
  - reflexivity.
  - simpl in Hnd. apply NoDup_cons in Hnd as [Hl Hnd].
    apply Forall_cons in Hsh as [(theta & theta_net & Hsl & Hsm & Hlen) Hsh].
    simpl in Hsl, Hsm.
    assert (Hlm : l <> m).
    { intros ->. apply (Hdis m); simpl; left. }
    destruct (Hbody s l m theta theta_net Hlm Hsl Hsm Hlen) as [H1 H2].
    simpl. rewrite H1, H2. simpl. apply IH.
    + exact Hnd.
    + intros l' Hl' Hin. apply (Hdis l'); simpl; right; assumption.
    + rewrite Forall_forall in Hsh |- *. intros [l' m'] Hin.
      apply same_shape_insert; simpl; [| |apply Hsh; exact Hin].
      * intros ->. apply Hl. apply list_elem_of_fmap. exists (l, m'). auto.
      * intros ->. apply (Hdis l); simpl; [left|right].
        apply list_elem_of_fmap. exists (l', l). auto.
Qed.

Lemma separate_zip self model s :
  separate self model s ->
  NoDup (zip self model).*1
  /\ (forall l, l ∈ (zip self model).*1 -> l ∉ (zip self model).*2)
  /\ Forall (same_shape s) (zip self model).
Proof.
  intros (Hlen & Hnd & Hdis & Hsh).
  rewrite fst_zip by lia. rewrite snd_zip by lia. auto.
Qed.

Lemma separate_lookup self model s i l m theta theta_net :
  separate self model s ->
  self !! i = Some l -> model !! i = Some m ->
  s !! l = Some theta -> s !! m = Some theta_net ->
  zip self model !! i = Some (l, m) /\ length theta = length theta_net.
Proof.
  intros (Hlen & Hnd & Hdis & Hsh) Hl Hm Hsl Hsm.
  assert (Hz : zip self model !! i = Some (l, m)).
  { apply lookup_zip_with_Some. eauto. }
  split; [exact Hz|].
  rewrite Forall_forall in Hsh.
  destruct (Hsh (l, m)) as (t & tn & H1 & H2 & H3).
  { eapply list_elem_of_lookup_2; eauto. }
  simpl in *. congruence.
Qed.

(** C10 (as amended).  When [self] and [model] are separate modules of
    the same architecture and [0 < polyak <= 1], [update_parameters]
    succeeds and sets every parameter of [self] to
    [(1 - polyak) * theta + polyak * theta_net], leaving the parameters
    of [model] (and every other tensor) as they were; the hard-update
    branch taken at [polyak = 1] copies [theta_net] and produces the very
    store the soft-update loop produces at [polyak = 1]. *)
Theorem update_parameters_polyak (self model : list loc) (polyak : R)
    (s : store) :
  0 < polyak <= 1 ->
  separate self model s ->
  update_parameters_ok self model polyak s
  /\ (forall s' l, update_parameters self model polyak s = Some s' ->
                   l ∉ self -> s' !! l = s !! l)
  /\ update_parameters self model 1 s = soft_update 1 (zip self model) s
  /\ (forall s' i l m theta_net,
        update_parameters self model 1 s = Some s' ->
        self !! i = Some l -> model !! i = Some m ->
        s !! m = Some theta_net -> s' !! l = Some theta_net).
Proof.
  intros Hp Hsep.
  destruct (separate_zip _ _ _ Hsep) as (Hnd & Hdis & Hsh).
  pose proof Hsep as (Hlen & _ & Hdis0 & _).
  destruct (for_zip_spec hard_body (fun _ theta_net => theta_net))
    with (ps := zip self model) (s := s)
    as (sh & Hrunh & Hframeh & Hresh); try assumption.
  { intros; apply (hard_body_insert _ _ _ theta); assumption. }
  destruct (for_zip_spec (soft_body polyak) (polyak_average polyak))
    with (ps := zip self model) (s := s)
    as (ss & Hruns & Hframes & Hress); try assumption.
  { intros; apply soft_body_insert; assumption. }
  rewrite fst_zip in Hframeh, Hframes by lia.
  assert (Hhard : update_parameters self model 1 s = Some sh).
  { unfold update_parameters. destruct (Req_dec_T 1 1); [exact Hrunh|lra]. }
  split; [|split; [|split]].
  - unfold update_parameters_ok, update_parameters.
    destruct (Req_dec_T polyak 1) as [->|Hne].
    + exists sh. split; [exact Hrunh|]. split.
      * intros i l m theta theta_net Hl Hm Hsl Hsm.
        destruct (separate_lookup _ _ _ _ _ _ _ _ Hsep Hl Hm Hsl Hsm) as [Hz Hlen'].
        rewrite polyak_average_1 by exact Hlen'. eapply Hresh; eauto.
      * intros m Hm. apply Hframeh. intros Hin. exact (Hdis0 m Hin Hm).
    + exists ss. split; [exact Hruns|]. split.
      * intros i l m theta theta_net Hl Hm Hsl Hsm.
        destruct (separate_lookup _ _ _ _ _ _ _ _ Hsep Hl Hm Hsl Hsm) as [Hz Hlen'].
        eapply Hress; eauto.
      * intros m Hm. apply Hframes. intros Hin. exact (Hdis0 m Hin Hm).
  - intros s' l Hrun Hl. unfold update_parameters in Hrun.
    destruct (Req_dec_T polyak 1).
    + unfold hard_update in Hrun. rewrite Hrunh in Hrun.
      injection Hrun as <-. apply Hframeh, Hl.
    + unfold soft_update in Hrun. rewrite Hruns in Hrun.
      injection Hrun as <-. apply Hframes, Hl.
  - unfold update_parameters. destruct (Req_dec_T 1 1); [|lra].
    unfold hard_update, soft_update.
    apply (for_zip_ext _ _ (fun _ theta_net => theta_net)); try assumption.
    intros s0 l m theta theta_net Hlm Hsl Hsm Hlen'. split.
    + apply (hard_body_insert _ _ _ theta); assumption.
    + rewrite (soft_body_insert 1 s0 l m theta theta_net) by assumption.
      rewrite polyak_average_1 by exact Hlen'. reflexivity.
  - intros s' i l m theta_net Hrun Hl Hm Hsm.
    rewrite Hhard in Hrun. injection Hrun as <-.
    pose proof Hsep as (_ & _ & _ & Hsh0).
    assert (Hz : zip self model !! i = Some (l, m)).
    { apply lookup_zip_with_Some. eauto. }
    rewrite Forall_forall in Hsh0.
    destruct (Hsh0 (l, m)) as (t & tn & H1 & H2 & H3).
    { eapply list_elem_of_lookup_2; eauto. }
    simpl in *. eapply Hresh; eauto.
Qed.

(** Two one-parameter modules at addresses 0 and 1. *)
Definition two_modules : store := <[0%nat := [2]]> (<[1%nat := [4]]> ∅).

Lemma two_modules_separate : separate [0%nat] [1%nat] two_modules.
Proof.
  unfold separate, two_modules. split; [reflexivity|]. split.
  - apply NoDup_singleton.
  - split.
    + intros l Hl Hm. apply list_elem_of_singleton in Hl, Hm. congruence.
    + constructor; [|constructor].
      exists [2], [4]. simpl.
      rewrite lookup_insert_eq, lookup_insert_ne, lookup_insert_eq by lia. auto.
Qed.

Lemma update_parameters_polyak_witness :
  update_parameters_ok [0%nat] [1%nat] (1 / 2) two_modules
  /\ (forall s' l, update_parameters [0%nat] [1%nat] (1 / 2) two_modules = Some s' ->
                   l ∉ [0%nat] -> s' !! l = two_modules !! l)
  /\ update_parameters [0%nat] [1%nat] 1 two_modules
     = soft_update 1 (zip [0%nat] [1%nat]) two_modules
  /\ (forall s' i l m theta_net,
        update_parameters [0%nat] [1%nat] 1 two_modules = Some s' ->
        [0%nat] !! i = Some l -> [1%nat] !! i = Some m ->
        two_modules !! m = Some theta_net -> s' !! l = Some theta_net).
Proof.
  apply (update_parameters_polyak [0%nat] [1%nat] (1 / 2) two_modules).
  - lra.
  - exact two_modules_separate.
Defined.

(** The claim as stated fails when the model shares its parameter with
    the actor (here [model] is the actor itself): the soft update reads
    the model's data after it has been scaled in place, so [theta = 1]
    becomes [3/4], which is neither the polyak average [1] nor the
    model's old value. *)
Lemma update_parameters_aliased_result :
  update_parameters [0%nat] [0%nat] (1 / 2) {[0%nat := [1]]}
  = Some {[0%nat := [1 * (1 - 1 / 2) + 1 / 2 * (1 * (1 - 1 / 2))]]}.
Proof.
  unfold update_parameters. destruct (Req_dec_T (1 / 2) 1) as [H|_]; [lra|].
  unfold soft_update. simpl. unfold soft_body, mul_, add_.
  rewrite lookup_singleton_eq. cbn.
  rewrite lookup_insert_eq. cbn.
  rewrite insert_insert_eq, insert_singleton_eq. reflexivity.
Qed.

Lemma update_parameters_aliased :
  ~ update_parameters_ok [0%nat] [0%nat] (1 / 2) {[0%nat := [1]]}.
Proof.
  intros (s' & Hrun & _ & Hmodel).
  rewrite update_parameters_aliased_result in Hrun. injection Hrun as <-.
  specialize (Hmodel 0%nat). rewrite !lookup_singleton_eq in Hmodel.
  assert (Hin : 0%nat ∈ [0%nat]) by (apply list_elem_of_singleton; reflexivity).
  specialize (Hmodel Hin). injection Hmodel as Heq. lra.
Qed.

End UpdateParameters.

(** *** [ActorPPO_Beta] *)

Section ActorPPO_Beta.

(** [build_mlp] is not among the embedded sources: the backbone is any
    map on batches of states. *)
Variable backbone_net : t2 -> t2.
Variables alpha_layer beta_layer : Linear.

Definition ActorPPO_Beta_forward (state : t2) : t2 * t2 :=
  let state := backbone_net state in
  let alpha := map2 (fun a => a + 1.0) (map2 softplus (linear alpha_layer state)) in
  let beta := map2 (fun b => b + 1.0) (map2 softplus (linear beta_layer state)) in
  (alpha, beta).

Definition ActorPPO_Beta_get_dist (state : t2) : Beta :=
  let '(alpha, beta) := ActorPPO_Beta_forward state in
  {| concentration1 := alpha; concentration0 := beta |}.

Definition ActorPPO_Beta_mean (state : t2) : t2 :=
  let '(alpha, beta) := ActorPPO_Beta_forward state in
  zip2 Rdiv alpha (zip2 Rplus alpha beta).

Lemma softplus_plus_1 (x : t2) :
  Forall (Forall (fun a => 1 < a)) (map2 (fun a => a + 1.0) (map2 softplus x)).
Proof.
  unfold map2, map1. rewrite List.map_map.
  induction x as [|r x IH]; simpl; constructor; [|exact IH].
  rewrite List.map_map.
  induction r as [|a r IHr]; simpl; constructor; [|exact IHr].
  generalize (softplus_pos a). lra.
Qed.

Lemma Forall2_weaken (P Q : R -> Prop) (x : t2) :
  (forall a, P a -> Q a) -> Forall (Forall P) x -> Forall (Forall Q) x.
Proof.
  intros HPQ Hx. eapply Forall_impl; [exact Hx|].
  intros r Hr. eapply Forall_impl; [exact Hr|]. exact HPQ.
Qed.

Lemma beta_mean_1 (x y : t1) :
  Forall (fun a => 1 < a) x -> Forall (fun b => 1 < b) y ->
  Forall (fun m => 0 < m < 1) (zip1 Rdiv x (zip1 Rplus x y)).
Proof.
  intros Hx. revert y. unfold zip1.
  induction Hx as [|a x Ha Hx IH]; intros y Hy; simpl; [constructor|].
  destruct Hy as [|b y Hb Hy]; simpl; constructor; auto.
  split.
  - apply Rdiv_lt_0_compat; lra.
  - assert (Hb' : 0 < b / (a + b)) by (apply Rdiv_lt_0_compat; lra).
    replace (a / (a + b)) with (1 - b / (a + b)) by (field; lra). lra.
Qed.

Lemma beta_mean_2 (x y : t2) :
  Forall (Forall (fun a => 1 < a)) x -> Forall (Forall (fun b => 1 < b)) y ->
  Forall (Forall (fun m => 0 < m < 1)) (zip2 Rdiv x (zip2 Rplus x y)).
Proof.
  intros Hx. revert y. unfold zip2.
  induction Hx as [|a x Ha Hx IH]; intros y Hy; simpl; [constructor|].
  destruct Hy as [|b y Hb Hy]; simpl; constructor; auto using beta_mean_1.
Qed.


End ActorPPO_Beta.

(** *** [BaseActor.__init__] and [state_norm] *)

(** Broadcasting of two vectors, as torch does along one dimension:
    equal lengths combine entry by entry, a vector of length one is
    stretched, any other pair of lengths raises. *)
Definition broadcast1 (f : R -> R -> R) (x y : t1) : option t1 :=
  if decide (length x = length y) then Some (zip1 f x y)
  else
    match x, y with
    | [a], _ => Some (map1 (f a) y)
    | _, [b] => Some (map1 (fun a => f a b) x)
    | _, _ => None
    end.

(** [torch.zeros((n,))] and [torch.ones((n,))], the initial [state_avg]
    and [state_std]. *)
Definition zeros (n : nat) : t1 := repeat 0 n.
Definition ones (n : nat) : t1 := repeat 1 n.

(** [state_norm]: [(state - state_avg) / state_std] on a batch of
    states, the two parameters being broadcast over the rows. *)
Definition state_norm (state_avg state_std : t1) (state : t2) : option t2 :=
  centred ← mapM (fun row => broadcast1 Rminus row state_avg) state;
  mapM (fun row => broadcast1 Rdiv row state_std) centred.

(** *** [BaseActor.freeze_parameters]

    The [requires_grad] flag of every parameter lives in a store of its
    own, beside the data. *)
Definition freeze_parameters (parameters : list loc) (freeze : bool)
    (requires_grad : gmap nat bool) : gmap nat bool :=
  foldl (fun g p => <[p := negb freeze]> g) requires_grad parameters.

(** Calling [update_parameters] [n] times with the same model, as a
    training loop does to let a target network follow the model. *)
Fixpoint update_parameters_n (n : nat) (self model : list loc) (polyak : R)
    (s : store) : option store :=
  match n with
  | O => Some s
  | S n =>
      s' ← update_parameters self model polyak s;
      update_parameters_n n self model polyak s'
  end.

(** Where a target network stands after [n] soft updates: what is left
    of its distance to the model is [(1 - rho) ^ n] of what it was. *)
Definition polyak_average_n (rho : R) (n : nat) (theta theta_net : t1) : t1 :=
  zip1 (fun a b => b + (1 - rho) ^ n * (a - b)) theta theta_net.

Lemma zip1_repeat_r (f : R -> R -> R) (c : R) (row : t1) :
  (forall a, f a c = a) -> zip1 f row (repeat c (length row)) = row.
Proof.
  intros Hf. unfold zip1. induction row as [|a row IH]; simpl; [reflexivity|].
  rewrite Hf, IH. reflexivity.
Qed.

Lemma mapM_id {A : Type} (f : A -> option A) (l : list A) :
  Forall (fun x => f x = Some x) l -> mapM f l = Some l.
Proof.
  induction 1 as [|x l Hx Hl IH]; [reflexivity|].
  cbn. rewrite Hx. cbn. rewrite IH. reflexivity.
Qed.

(** X1.  An actor as [__init__] leaves it, with [state_avg] all zeros
    and [state_std] all ones, normalises nothing: on a batch whose rows
    have [state_dim] entries [state_norm] returns the batch itself. *)
Theorem state_norm_initial (state_dim : nat) (state : t2) :
  Forall (fun row => length row = state_dim) state ->
  state_norm (zeros state_dim) (ones state_dim) state = Some state.
Proof.
  intros Hrows. unfold state_norm.
  assert (Hstep : forall (f : R -> R -> R) (c : R),
             (forall a, f a c = a) ->
             mapM (fun row => broadcast1 f row (repeat c state_dim)) state
             = Some state).
  { intros f c Hf. apply mapM_id. eapply Forall_impl; [exact Hrows|].
    intros row Hlen. cbn in Hlen. unfold broadcast1.
    rewrite repeat_length, decide_True by exact Hlen.
    rewrite <- Hlen, zip1_repeat_r by exact Hf. reflexivity. }
  unfold zeros, ones.
  rewrite (Hstep Rminus 0) by (intros a; lra). cbn.
  apply (Hstep Rdiv 1). intros a. field.
Qed.

Lemma state_norm_initial_witness :
  state_norm (zeros 2) (ones 2) [[3; 4]; [5; 6]] = Some [[3; 4]; [5; 6]].
Proof.
  apply (state_norm_initial 2 [[3; 4]; [5; 6]]).
  repeat constructor.
Defined.

Lemma freeze_parameters_lookup (parameters : list loc) (freeze : bool)
    (g : gmap nat bool) (p : loc) :
  freeze_parameters parameters freeze g !! p
  = if decide (p ∈ parameters) then Some (negb freeze) else g !! p.
Proof.
  unfold freeze_parameters. revert g.
  induction parameters as [|q parameters IH]; intros g; cbn [foldl].
  - rewrite decide_False by apply not_elem_of_nil. reflexivity.
  - rewrite IH. destruct (decide (p ∈ parameters)) as [Hin|Hin].
    + rewrite decide_True by (apply elem_of_cons; auto). reflexivity.
    + destruct (decide (p = q)) as [->|Hne].
      * rewrite decide_True by apply list_elem_of_here.
        apply lookup_insert_eq.
      * rewrite decide_False by (rewrite elem_of_cons; tauto).
        apply lookup_insert_ne. congruence.
Qed.

(** X2.  [freeze_parameters] sets the [requires_grad] flag of every
    parameter of the module to [not freeze] and touches no other
    tensor.  It keeps no record of the flags it overwrites: of two calls
    the last one decides, so unfreezing after freezing makes every
    parameter trainable, also one that was created with
    [requires_grad=False] as [state_avg] and [state_std] are. *)
Theorem freeze_parameters_last_wins (parameters : list loc)
    (first last : bool) (g : gmap nat bool) :
  (forall p, p ∈ parameters ->
     freeze_parameters parameters last g !! p = Some (negb last))
  /\ (forall p, p ∉ parameters ->
        freeze_parameters parameters last g !! p = g !! p)
  /\ freeze_parameters parameters last (freeze_parameters parameters first g)
     = freeze_parameters parameters last g.
Proof.
  split; [|split].
  - intros p Hin. rewrite freeze_parameters_lookup, decide_True by exact Hin.
    reflexivity.
  - intros p Hin. rewrite freeze_parameters_lookup, decide_False by exact Hin.
    reflexivity.
  - apply map_eq. intros p. rewrite !freeze_parameters_lookup.
    destruct (decide (p ∈ parameters)); reflexivity.
Qed.

(** *** More about [update_parameters] *)

Lemma map1_id (f : R -> R) (x : t1) : (forall a, f a = a) -> map1 f x = x.
Proof.
  intros Hf. unfold map1. induction x as [|a x IH]; simpl; [reflexivity|].
  rewrite Hf, IH. reflexivity.
Qed.

Lemma zip1_plus_zero (x y : t1) :
  length x = length y -> zip1 Rplus x (map1 (fun b => 0 * b) y) = x.
Proof.
  unfold zip1, map1. revert y.
  induction x as [|a x IH]; intros [|b y] Hlen; simpl in *;
    try reflexivity; try discriminate.
  rewrite IH by congruence. f_equal. ring.
Qed.

Lemma soft_body_0 (s : store) (l m : loc) :
  same_shape s (l, m) -> soft_body 0 l m s = Some s.
Proof.
  intros (theta & theta_net & Hl & Hm & Hlen). simpl in Hl, Hm.
  unfold soft_body, mul_, add_. rewrite Hl. cbn.
  rewrite map1_id by (intros a; ring).
  rewrite (insert_id s l theta) by exact Hl.
  rewrite Hm. cbn. rewrite Hl. cbn.
  rewrite decide_True by (unfold map1; rewrite length_map; exact Hlen).
  rewrite zip1_plus_zero by exact Hlen.
  rewrite insert_id by exact Hl. reflexivity.
Qed.

(** X3.  With [polyak = 0] the soft update changes nothing: whenever
    corresponding parameters have equal shapes, [update_parameters]
    succeeds and leaves the whole store, the actor's parameters
    included, as it was; this holds also when the model shares tensors
    with the actor. *)
Theorem update_parameters_polyak_0 (self model : list loc) (s : store) :
  Forall (same_shape s) (zip self model) ->
  update_parameters self model 0 s = Some s.
Proof.
  intros Hsh. unfold update_parameters.
  destruct (Req_dec_T 0 1) as [H01|_]; [lra|].
  unfold soft_update. induction Hsh as [|[l m] ps Hlm Hps IH]; simpl.
  - reflexivity.
  - rewrite soft_body_0 by exact Hlm. cbn. exact IH.
Qed.

Lemma update_parameters_polyak_0_witness :
  update_parameters [0%nat] [1%nat] 0 two_modules = Some two_modules.
Proof.
  apply (update_parameters_polyak_0 [0%nat] [1%nat] two_modules).
  destruct two_modules_separate as (_ & _ & _ & Hsh). exact Hsh.
Defined.

Lemma fst_zip_take {A B : Type} (l : list A) (k : list B) :
  (zip l k).*1 = take (length k) l.
Proof.
  revert k. induction l as [|a l IH]; intros [|b k]; simpl; f_equal; auto.
Qed.

Lemma snd_zip_take {A B : Type} (l : list A) (k : list B) :
  (zip l k).*2 = take (length l) k.
Proof.
  revert k. induction l as [|a l IH]; intros [|b k]; simpl; f_equal; auto.
Qed.

(** One call on modules that share no tensor, whatever their numbers of
    parameters. *)
Lemma update_parameters_run (self model : list loc) (polyak : R) (s : store) :
  NoDup self ->
  (forall l, l ∈ self -> l ∉ model) ->
  Forall (same_shape s) (zip self model) ->
  exists s',
    update_parameters self model polyak s = Some s'
    /\ (forall l, l ∉ take (length model) self -> s' !! l = s !! l)
    /\ (forall i l m theta theta_net,
          self !! i = Some l -> model !! i = Some m ->
          s !! l = Some theta -> s !! m = Some theta_net ->
          s' !! l = Some (polyak_average polyak theta theta_net)).
Proof.
  intros Hnd Hdis Hsh.
  assert (Hnd' : NoDup (zip self model).*1).
  { rewrite fst_zip_take. eapply sublist_NoDup; [exact Hnd|apply sublist_take]. }
  assert (Hdis' : forall l, l ∈ (zip self model).*1 -> l ∉ (zip self model).*2).
  { intros l. rewrite fst_zip_take, snd_zip_take. intros Hl Hm.
    apply (Hdis l); eapply subseteq_take; eassumption. }
  assert (Hlen : forall i l m theta theta_net,
             self !! i = Some l -> model !! i = Some m ->
             s !! l = Some theta -> s !! m = Some theta_net ->
             zip self model !! i = Some (l, m)
             /\ length theta = length theta_net).
  { intros i l m theta theta_net Hl Hm Hsl Hsm.
    assert (Hz : zip self model !! i = Some (l, m)).
    { apply lookup_zip_with_Some. eauto. }
    split; [exact Hz|].
    rewrite Forall_forall in Hsh.
    destruct (Hsh (l, m)) as (t & tn & H1 & H2 & H3).
    { eapply list_elem_of_lookup_2; eauto. }
    simpl in *. congruence. }
  unfold update_parameters. destruct (Req_dec_T polyak 1) as [->|Hne].
  - destruct (for_zip_spec hard_body (fun _ theta_net => theta_net))
      with (ps := zip self model) (s := s)
      as (s' & Hrun & Hframe & Hres); try assumption.
    { intros; apply (hard_body_insert _ _ _ theta); assumption. }
    rewrite fst_zip_take in Hframe.
    exists s'. split; [exact Hrun|]. split; [exact Hframe|].
    intros i l m theta theta_net Hl Hm Hsl Hsm.
    destruct (Hlen i l m theta theta_net Hl Hm Hsl Hsm) as [Hz Hlen'].
    rewrite polyak_average_1 by exact Hlen'. eapply Hres; eauto.
  - destruct (for_zip_spec (soft_body polyak) (polyak_average polyak))
      with (ps := zip self model) (s := s)
      as (s' & Hrun & Hframe & Hres); try assumption.
    { intros; apply soft_body_insert; assumption. }
    rewrite fst_zip_take in Hframe.
    exists s'. split; [exact Hrun|]. split; [exact Hframe|].
    intros i l m theta theta_net Hl Hm Hsl Hsm.
    destruct (Hlen i l m theta theta_net Hl Hm Hsl Hsm) as [Hz Hlen'].
    eapply Hres; eauto.
Qed.

(** X4.  [zip] stops at the shorter of the two parameter lists, so a
    model with another number of parameters raises nothing: when the
    two modules share no tensor and corresponding parameters have equal
    shapes, the parameters of the actor that have a counterpart in the
    model become the polyak average, and the parameters beyond the last
    one of the model, like every tensor of the model, keep their
    values. *)
Theorem update_parameters_truncates (self model : list loc) (polyak : R)
    (s : store) :
  NoDup self ->
  (forall l, l ∈ self -> l ∉ model) ->
  Forall (same_shape s) (zip self model) ->
  exists s',
    update_parameters self model polyak s = Some s'
    /\ (forall i l m theta theta_net,
          self !! i = Some l -> model !! i = Some m ->
          s !! l = Some theta -> s !! m = Some theta_net ->
          s' !! l = Some (polyak_average polyak theta theta_net))
    /\ (forall i l, self !! i = Some l -> (length model <= i)%nat ->
          s' !! l = s !! l)
    /\ (forall m, m ∈ model -> s' !! m = s !! m).
Proof.
  intros Hnd Hdis Hsh.
  destruct (update_parameters_run self model polyak s Hnd Hdis Hsh)
    as (s' & Hrun & Hframe & Hres).
  exists s'. split; [exact Hrun|]. split; [exact Hres|]. split.
  - intros i l Hl Hi. apply Hframe. intros Hin.
    apply elem_of_take in Hin as (j & Hj & Hlt).
    pose proof (NoDup_lookup _ _ _ _ Hnd Hl Hj). lia.
  - intros m Hm. apply Hframe. intros Hin.
    apply (Hdis m); [eapply subseteq_take; exact Hin|exact Hm].
Qed.

(** An actor with two parameters, a model with one. *)
Definition three_tensors : store :=
  <[0%nat := [2]]> (<[1%nat := [4]]> (<[2%nat := [8]]> ∅)).

Lemma update_parameters_truncates_witness :
  exists s',
    update_parameters [0%nat; 1%nat] [2%nat] (1 / 2) three_tensors = Some s'
    /\ s' !! 0%nat = Some (polyak_average (1 / 2) [2] [8])
    /\ s' !! 1%nat = Some [4]
    /\ s' !! 2%nat = Some [8].
Proof.
  destruct (update_parameters_truncates [0%nat; 1%nat] [2%nat] (1 / 2)
              three_tensors) as (s' & Hrun & Hres & Hrest & Hmodel).
  - apply NoDup_cons_2; [|apply NoDup_singleton].
    intros Hin. apply list_elem_of_singleton in Hin. discriminate.
  - intros l Hl Hm. apply list_elem_of_singleton in Hm. subst l.
    apply elem_of_cons in Hl as [Hl|Hl]; [discriminate|].
    apply list_elem_of_singleton in Hl. discriminate.
  - constructor; [|constructor]. exists [2], [8]. repeat split; reflexivity.
  - exists s'. split; [exact Hrun|]. split; [|split].
    + apply (Hres 0%nat 0%nat 2%nat); reflexivity.
    + rewrite (Hrest 1%nat 1%nat) by (simpl; auto). reflexivity.
    + rewrite (Hmodel 2%nat) by apply list_elem_of_here. reflexivity.
Defined.

Lemma length_polyak_average (rho : R) (theta theta_net : t1) :
  length theta = length theta_net ->
  length (polyak_average rho theta theta_net) = length theta.
Proof.
  intros Hlen. unfold polyak_average, zip1. rewrite length_zip_with. lia.
Qed.

Lemma polyak_average_n_0 (rho : R) (theta theta_net : t1) :
  length theta = length theta_net ->
  polyak_average_n rho 0 theta theta_net = theta.
Proof.
  unfold polyak_average_n, zip1. revert theta_net.
  induction theta as [|a theta IH]; intros [|b theta_net] Hlen;
    simpl in *; try reflexivity; try discriminate.
  rewrite IH by congruence. f_equal. ring.
Qed.

Lemma polyak_average_n_S (rho : R) (n : nat) (theta theta_net : t1) :
  polyak_average_n rho n (polyak_average rho theta theta_net) theta_net
  = polyak_average_n rho (S n) theta theta_net.
Proof.
  unfold polyak_average_n, polyak_average, zip1. revert theta_net.
  induction theta as [|a theta IH]; intros [|b theta_net]; simpl;
    try reflexivity.
  rewrite IH. f_equal. ring.
Qed.

(** One call keeps separate modules separate. *)
Lemma update_parameters_separate (self model : list loc) (polyak : R)
    (s : store) :
  separate self model s ->
  exists s',
    update_parameters self model polyak s = Some s'
    /\ separate self model s'
    /\ (forall m, m ∈ model -> s' !! m = s !! m)
    /\ (forall i l m theta theta_net,
          self !! i = Some l -> model !! i = Some m ->
          s !! l = Some theta -> s !! m = Some theta_net ->
          s' !! l = Some (polyak_average polyak theta theta_net)
          /\ length theta = length theta_net).
Proof.
  intros Hsep. pose proof Hsep as (Hlen & Hnd & Hdis & Hsh).
  destruct (update_parameters_run self model polyak s Hnd Hdis Hsh)
    as (s' & Hrun & Hframe & Hres).
  assert (Hmodel : forall m, m ∈ model -> s' !! m = s !! m).
  { intros m Hm. apply Hframe. intros Hin.
    apply (Hdis m); [eapply subseteq_take; exact Hin|exact Hm]. }
  exists s'. split; [exact Hrun|]. split; [|split; [exact Hmodel|]].
  - split; [exact Hlen|]. split; [exact Hnd|]. split; [exact Hdis|].
    rewrite Forall_forall in Hsh |- *. intros [l m] Hin.
    destruct (Hsh (l, m) Hin) as (theta & theta_net & Hl & Hm & Hlen').
    simpl in Hl, Hm.
    apply list_elem_of_lookup_1 in Hin as [i Hi].
    apply lookup_zip_with_Some in Hi as (l' & m' & Heq & Hli & Hmi).
    injection Heq as <- <-.
    exists (polyak_average polyak theta theta_net), theta_net. simpl.
    split; [eapply Hres; eauto|]. split.
    + rewrite Hmodel by (eapply list_elem_of_lookup_2; eauto). exact Hm.
    + rewrite length_polyak_average by exact Hlen'. exact Hlen'.
  - intros i l m theta theta_net Hl Hm Hsl Hsm.
    split; [eapply Hres; eauto|].
    destruct (separate_lookup _ _ _ _ _ _ _ _ Hsep Hl Hm Hsl Hsm) as [_ H].
    exact H.
Qed.

(** X5.  A target network that is updated [n] times from a model that
    does not change approaches it geometrically: for separate modules
    of the same architecture the [n] calls succeed, leave the model as
    it is, and set every parameter of the actor to
    [theta_net + (1 - polyak) ^ n * (theta - theta_net)]. *)
Theorem update_parameters_n_geometric (n : nat) (self model : list loc)
    (polyak : R) (s : store) :
  separate self model s ->
  exists s',
    update_parameters_n n self model polyak s = Some s'
    /\ (forall i l m theta theta_net,
          self !! i = Some l -> model !! i = Some m ->
          s !! l = Some theta -> s !! m = Some theta_net ->
          s' !! l = Some (polyak_average_n polyak n theta theta_net))
    /\ (forall m, m ∈ model -> s' !! m = s !! m).
Proof.
  revert s. induction n as [|n IH]; intros s Hsep.
  - exists s. split; [reflexivity|]. split; [|reflexivity].
    intros i l m theta theta_net Hl Hm Hsl Hsm.
    destruct (separate_lookup _ _ _ _ _ _ _ _ Hsep Hl Hm Hsl Hsm) as [_ Hlen].
    rewrite polyak_average_n_0 by exact Hlen. exact Hsl.
  - destruct (update_parameters_separate self model polyak s Hsep)
      as (s1 & Hrun1 & Hsep1 & Hmodel1 & Hres1).
    destruct (IH s1 Hsep1) as (s' & Hrun & Hres & Hmodel).
    exists s'. split; [|split].
    + simpl. rewrite Hrun1. exact Hrun.
    + intros i l m theta theta_net Hl Hm Hsl Hsm.
      destruct (Hres1 i l m theta theta_net Hl Hm Hsl Hsm) as [Hl1 _].
      rewrite <- polyak_average_n_S.
      apply (Hres i l m); try assumption.
      rewrite Hmodel1 by (eapply list_elem_of_lookup_2; eauto). exact Hsm.
    + intros m Hm. rewrite Hmodel by exact Hm. apply Hmodel1, Hm.
Qed.

Lemma update_parameters_n_geometric_witness :
  exists s',
    update_parameters_n 3 [0%nat] [1%nat] (1 / 2) two_modules = Some s'
    /\ s' !! 0%nat = Some (polyak_average_n (1 / 2) 3 [2] [4])
    /\ s' !! 1%nat = Some [4].
Proof.
  destruct (update_parameters_n_geometric 3 [0%nat] [1%nat] (1 / 2)
              two_modules two_modules_separate) as (s' & Hrun & Hres & Hmodel).
  exists s'. split; [exact Hrun|]. split.
  - apply (Hres 0%nat 0%nat 1%nat); reflexivity.
  - rewrite (Hmodel 1%nat) by apply list_elem_of_here. reflexivity.
Defined.

(** *** The Gaussian actors: [ActorPPO_Gaussian], [ActorSAC], [ActorTD3] *)

(** [torch.distributions.Normal(loc, scale)] on a batch of means, with
    one deviation per action dimension that the constructor broadcasts
    over the batch.  [rsample] draws a standard normal [eps] and returns
    [loc + eps * scale]; [log_prob] and [entropy] are the closed forms
    of the library. *)
Record Normal : Type := { Normal_loc : t2; Normal_scale : t2 }.

Definition Normal_init (loc : t2) (scale : t1) : Normal :=
  {| Normal_loc := loc; Normal_scale := List.map (fun _ => scale) loc |}.

Definition Normal_rsample (d : Normal) (eps : t2) : t2 :=
  zip2 Rplus (Normal_loc d) (zip2 Rmult eps (Normal_scale d)).

Definition normal_log_density (value loc scale : R) : R :=
  - ((value - loc) ^ 2) / (2 * scale ^ 2) - ln scale - ln (sqrt (2 * PI)).

Definition Normal_log_prob (d : Normal) (value : t2) : t2 :=
  zip_with
    (fun v ls => zip_with (fun a l => normal_log_density a l.1 l.2) v ls)
    value (zip_with zip (Normal_loc d) (Normal_scale d)).

Definition Normal_entropy (d : Normal) : t2 :=
  map2 (fun s => 0.5 + 0.5 * ln (2 * PI) + ln s) (Normal_scale d).

(** [x.sum(dim=-1, keepdim=True)] *)
Definition sum_last_keepdim (x : t2) : t2 := List.map (fun row => [sum1 row]) x.

(** What the three [forward] methods read from the configuration;
    [ActorSAC] takes its action scale from [cfg.actor]. *)
Record gaussian_cfg : Type := {
  action_scale : R;
  actor_action_scale : R;
  use_log_std_clip : bool;
  log_std_clip_min : R;
  log_std_clip_max : R;
  use_action_clip : bool;
  action_clip : R;
}.

Section GaussianActors.

Variable backbone_net : t2 -> t2.
Variable mean_layer : Linear.
Variable log_std : t1.
Variable cfg : gaussian_cfg.

(** The deviations' logarithms, clamped when the configuration asks for
    it. *)
Definition clipped_log_std : t1 :=
  if use_log_std_clip cfg
  then map1 (clamp (log_std_clip_min cfg) (log_std_clip_max cfg)) log_std
  else log_std.

Definition clip_action (action : t2) : t2 :=
  if use_action_clip cfg
  then map2 (clamp (- action_clip cfg) (action_clip cfg)) action
  else action.

(** [ActorPPO_Gaussian.forward]; [dist] is the attribute [self.dist],
    [None] after [__init__], and [eps] the noise that [rsample] draws. *)
Definition ActorPPO_Gaussian_forward (dist : option Normal) (state : t2)
    (action : option t2) (deterministic : bool) (eps : t2)
  : option Normal * (t2 * option t2) :=
  let state := backbone_net state in
  let output_action :=
    map2 (fun x => action_scale cfg * tanh x) (linear mean_layer state) in
  if deterministic then (dist, (output_action, None))
  else
    let d := Normal_init output_action (map1 exp clipped_log_std) in
    let action :=
      match action with
      | Some action => action
      | None => Normal_rsample d eps
      end in
    let action := clip_action action in
    let log_prob := sum_last_keepdim (Normal_log_prob d action) in
    (Some d, (action, Some log_prob)).

(** [get_entropy]: [self.dist.entropy()], an [AttributeError] while
    [self.dist] is [None]. *)
Definition get_entropy (dist : option Normal) : option t2 :=
  Normal_entropy <$> dist.

(** [ActorSAC.forward] *)
Definition ActorSAC_forward (state : t2) (action : option t2) (eps : t2)
  : Normal * (t2 * t2) :=
  let state := backbone_net state in
  let mean_action :=
    map2 (fun x => actor_action_scale cfg * tanh x) (linear mean_layer state) in
  let d := Normal_init mean_action (map1 exp clipped_log_std) in
  let action :=
    match action with
    | Some action => action
    | None => Normal_rsample d eps
    end in
  let action := clip_action action in
  let log_prob := sum_last_keepdim (Normal_log_prob d action) in
  (d, (action, log_prob)).

(** [ActorTD3.forward] *)
Definition ActorTD3_forward (state : t2) : t2 * option t2 :=
  let state := backbone_net state in
  let mean_action := map2 tanh (linear mean_layer state) in
  (mean_action, None).

Lemma tanh_bounds (x : R) : -1 < tanh x < 1.
Proof.
  unfold tanh, sinh, cosh.
  pose proof (exp_pos x) as Ha. pose proof (exp_pos (- x)) as Hb.
  set (a := exp x) in *. set (b := exp (- x)) in *.
  assert (Hqa : 0 < 2 * a / (a + b)) by (apply Rdiv_lt_0_compat; lra).
  assert (Hqb : 0 < 2 * b / (a + b)) by (apply Rdiv_lt_0_compat; lra).
  split.
  - replace ((a - b) / 2 / ((a + b) / 2)) with (-1 + 2 * a / (a + b))
      by (field; lra).
    lra.
  - replace ((a - b) / 2 / ((a + b) / 2)) with (1 - 2 * b / (a + b))
      by (field; lra).
    lra.
Qed.

Lemma scaled_tanh_bound (c x : R) : c <> 0 -> Rabs (c * tanh x) < Rabs c.
Proof.
  intros Hc. rewrite Rabs_mult.
  assert (Hpos : 0 < Rabs c) by (apply Rabs_pos_lt; exact Hc).
  assert (Ht : Rabs (tanh x) < 1).
  { destruct (tanh_bounds x). apply Rabs_def1; lra. }
  nra.
Qed.

Lemma clamp_bounds (lo hi x : R) : lo <= hi -> lo <= clamp lo hi x <= hi.
Proof.
  intros Hlh. unfold clamp. split.
  - apply Rmin_glb; [apply Rmax_r|exact Hlh].
  - apply Rmin_r.
Qed.


(** X7.  With [use_action_clip] set and a nonnegative [action_clip],
    every entry of the action that a sampling call of
    [ActorPPO_Gaussian.forward] or a call of [ActorSAC.forward] returns
    lies in [[-action_clip, action_clip]], whether the action was drawn
    or handed in by the caller. *)
Theorem sampled_action_clipped (dist : option Normal) (state : t2)
    (action : option t2) (eps : t2) :
  use_action_clip cfg = true ->
  0 <= action_clip cfg ->
  Forall (Forall (fun a => - action_clip cfg <= a <= action_clip cfg))
    (ActorPPO_Gaussian_forward dist state action false eps).2.1
  /\ Forall (Forall (fun a => - action_clip cfg <= a <= action_clip cfg))
       (ActorSAC_forward state action eps).2.1.
Proof.
  intros Hclip Hc.
  assert (Hall : forall x,
             Forall (Forall (fun a => - action_clip cfg <= a <= action_clip cfg))
               (clip_action x)).
  { intros x. unfold clip_action. rewrite Hclip.
    apply Forall_map2. intros a. apply clamp_bounds. lra. }
  split; cbn; apply Hall.
Qed.

(** X8.  The entropy that [get_entropy] reports does not depend on the
    states or on the actions: after a sampling call of [forward] every
    row of it is [0.5 + 0.5 * log(2 pi) + log_std], with the (clamped)
    [log_std] parameter, one row for each state of the batch.  A
    deterministic call does not set [self.dist]; on an actor that has
    not sampled yet [get_entropy] raises. *)
Theorem get_entropy_of_log_std (dist : option Normal) (state : t2)
    (action : option t2) (eps : t2) :
  get_entropy (ActorPPO_Gaussian_forward dist state action false eps).1
  = Some (List.map
            (fun _ => map1 (fun l => 0.5 + 0.5 * ln (2 * PI) + l) clipped_log_std)
            (backbone_net state))
  /\ get_entropy (ActorPPO_Gaussian_forward None state action true eps).1 = None.
Proof.
  split; [|reflexivity].
  cbn. f_equal. unfold Normal_entropy, Normal_init, map2. cbn.
  unfold linear. rewrite !List.map_map. apply List.map_ext. intros row.
  unfold map1. rewrite List.map_map. apply List.map_ext. intros l.
  rewrite ln_exp. reflexivity.
Qed.


End GaussianActors.

(** A one-dimensional actor with scale two and clip one. *)
Definition toy_gaussian_cfg : gaussian_cfg := {|
  action_scale := 2;
  actor_action_scale := 2;
  use_log_std_clip := false;
  log_std_clip_min := -5;
  log_std_clip_max := 2;
  use_action_clip := true;
  action_clip := 1;
|}.

Definition toy_mean_layer : Linear := {| weight := [[1]]; bias := [0] |}.


Lemma sampled_action_clipped_witness :
  Forall (Forall (fun a => - 1 <= a <= 1))
    (ActorPPO_Gaussian_forward (fun x => x) toy_mean_layer [0] toy_gaussian_cfg
       None [[3]] (Some [[5]]) false []).2.1.
Proof.
  destruct (sampled_action_clipped (fun x => x) toy_mean_layer [0]
              toy_gaussian_cfg None [[3]] (Some [[5]]) []) as [Hppo _].
  - reflexivity.
  - simpl. lra.
  - exact Hppo.
Defined.

End ActorModels.

(* ================================================================== *)
(** ** [hotu_hlmm_agent.py] *)
(* ================================================================== *)

Module HOTUHLMM.
Import Torch.

(** *** The rollout memory

    The [Memory] class is not among the embedded sources.  The agent
    uses it as a store of tensors addressed by name, so it enters as an
    interface: reading and writing a whole tensor by name, with the two
    laws of a by-name store, and [add_samples], which receives the
    samples of one step as keyword arguments, that is as a dictionary. *)
Class Memory (M : Type) : Type := {
  get_tensor_by_name : M -> string -> t3;
  set_tensor_by_name : M -> string -> t3 -> M;
  add_samples : M -> gmap string t2 -> M;
  get_set_eq : forall m name v,
    get_tensor_by_name (set_tensor_by_name m name v) name = v;
  get_set_ne : forall m name name' v,
    name <> name' ->
    get_tensor_by_name (set_tensor_by_name m name v) name'
    = get_tensor_by_name m name';
}.

(** A dictionary of tensors, each a list of time steps, is such a
    memory. *)
Definition dict_add_row (t : option t3) (row : option t2) : option t3 :=
  match t, row with
  | Some t, Some row => Some (t ++ [row])
  | Some t, None => Some t
  | None, Some row => Some [row]
  | None, None => None
  end.

#[export] Program Instance dict_memory : Memory (gmap string t3) := {|
  get_tensor_by_name m name := default [] (m !! name);
  set_tensor_by_name m name v := <[name := v]> m;
  add_samples m samples := merge dict_add_row m samples;
|}.
Next Obligation. intros m name v. simpl. rewrite lookup_insert_eq. reflexivity. Qed.
Next Obligation.
  intros m name name' v Hne. simpl. rewrite lookup_insert_ne by exact Hne.
  reflexivity.
Qed.

(** *** Python values used by the agent *)

(** [x.logical_not()]: true (one) exactly where [x] is zero.  Boolean
    tensors are stored as zeros and ones. *)
Definition logical_not (x : R) : R := if Req_dec_T x 0 then 1 else 0.

(** The loop variable [advantage] of [update_net]: the Python number
    [0] before the first iteration, a tensor afterwards. *)
Inductive advantage_value : Type :=
| AdvNumber (r : R)
| AdvTensor (t : t2).

(** [x * advantage], the number broadcasting over [x]. *)
Definition mul_advantage (x : t2) (a : advantage_value) : t2 :=
  match a with
  | AdvNumber r => map2 (fun e => e * r) x
  | AdvTensor t => zip2 Rmult x t
  end.

(** [row[:stop]] on a list, with Python's reading of a negative or too
    large [stop]. *)
Definition py_slice_to {A : Type} (stop : Z) (row : list A) : list A :=
  let n := Z.of_nat (length row) in
  let stop := if (stop <? 0)%Z then Z.max 0 (n + stop) else Z.min stop n in
  take (Z.to_nat stop) row.

(** Dropping the last [n] entries of a list. *)
Definition drop_last {A : Type} (n : nat) (row : list A) : list A :=
  take (length row - n) row.

(** [torch.zeros((n, 1))] *)
Definition zeros_n_1 (n : nat) : t2 := repeat [0] n.

(** [torch.zeros_like(x)] *)
Definition zeros_like3 (x : t3) : t3 := map3 (fun _ => 0) x.

(** The style reward in the words of the specification: the clipped
    least-squares score, or minus the logarithm of the clipped
    [1 - sigmoid(logit)], times the discriminator reward scale. *)
Definition sigmoid (x : R) : R := 1 / (1 + exp (- x)).
Definition style_reward (least_square : bool) (scale logit : R) : R :=
  (if least_square
   then Rmax (1 - 0.25 * (1 - logit) ^ 2) 0.0001
   else - ln (Rmax (1 - sigmoid logit) 0.0001)) * scale.

Section Agent.

(** The networks, the preprocessors and the low-level controller are
    built outside the embedded file.  [Rng] stands for the random draw a
    sampling call consumes; [VP] is the running state of the value
    preprocessor, which a call with [train=True] updates. *)
Context {M : Type} `{Memory M}.
Variables (Rng VP Tracking : Type).
Variable policy : t2 -> bool -> Rng -> t2 * option t2.
Variable value : t2 -> t2.
Variable discriminator : t3 -> t3.
Variable state_preprocessor : t2 -> t2.
Variable amp_state_preprocessor : t3 -> t3.
Variable value_preprocessor_inverse : VP -> t2 -> t2.
Variable value_preprocessor_train : VP -> t3 -> t3 * VP.
Variable llc_act : t2 -> bool -> t2 -> Rng -> t2 * option t2.
Variable llc_discriminator : t2 -> t2.
Variable llc_amp_state_preprocessor : t2 -> t2.
Variable base_store_transition :
  Tracking -> t2 -> t2 -> t2 -> t2 -> t2 -> t2 -> gmap string t2 -> Tracking.

(** The hyper-parameters [__init__] reads from the configuration, and
    the two settings of the low-level controller that
    [_get_llc_disc_reward] reads. *)
Record hyper_parameters : Type := {
  num_envs : nat;
  _task_related_state_size : nat;
  _task_reward_weight : R;
  _style_reward_weight : R;
  _demo_style_reward_weight : R;
  _rewards_shaper : option (t2 -> t2);
  _discount : R;
  _td_lambda : R;
  _least_square_discriminator : bool;
  _discriminator_reward_scale : R;
  llc_least_square_discriminator : bool;
  llc_discriminator_reward_scale : R;
}.

(** The attributes of [HOTUHLMMAgent] that the embedded methods assign. *)
Record agent : Type := {
  cfg : hyper_parameters;
  memory : M;
  value_preprocessor_state : VP;
  tracking : Tracking;
  _current_states : option t2;
  _current_log_prob : option t2;
  _omega_actions_for_llc : option t2;
  pre_states : option t2;
  llc_cum_rew : t2;
  llc_cum_disc_rew : t2;
  need_reset : t2;
  need_terminate : t2;
}.

(** [_get_llc_action].  [states[:, :states.shape[1] - size]] cuts every
    row of the batch at the same place; the rows of a tensor have one
    length, so the cut is written row by row. *)
Definition task_agnostic (ag : agent) (states : t2) : t2 :=
  List.map (fun st =>
    py_slice_to
      (Z.of_nat (length st) - Z.of_nat (_task_related_state_size (cfg ag))) st)
    states.

Definition _get_llc_action (ag : agent) (states omega_actions : t2) (rng : Rng)
  : t2 :=
  let task_agnostic_states := task_agnostic ag states in
  let z := normalize omega_actions in
  let '(actions, _) := llc_act task_agnostic_states false z rng in
  actions.

(** [act].  The states are the collected [_current_states] when the
    agent holds some, the argument otherwise. *)
Definition act_states (ag : agent) (states : t2) : t2 :=
  match _current_states ag with Some cs => cs | None => states end.

(** The latent [z] that [_get_llc_action] hands to the low-level
    controller during [act]. *)
Definition act_latents (ag : agent) (states : t2) (deterministic : bool)
    (rng : Rng) : t2 :=
  normalize
    (policy (state_preprocessor (act_states ag states)) deterministic rng).1.

Definition act (ag : agent) (states : t2) (deterministic : bool)
    (rng rng_llc : Rng) : agent * (t2 * option t2) :=
  let states := act_states ag states in
  let '(omega_actions, log_prob) :=
    policy (state_preprocessor states) deterministic rng in
  let ag' := {|
    cfg := cfg ag;
    memory := memory ag;
    value_preprocessor_state := value_preprocessor_state ag;
    tracking := tracking ag;
    _current_states := _current_states ag;
    _current_log_prob := log_prob;
    _omega_actions_for_llc := Some omega_actions;
    pre_states := Some states;
    llc_cum_rew := zeros_n_1 (num_envs (cfg ag));
    llc_cum_disc_rew := zeros_n_1 (num_envs (cfg ag));
    need_reset := zeros_n_1 (num_envs (cfg ag));
    need_terminate := zeros_n_1 (num_envs (cfg ag));
  |} in
  let actions := _get_llc_action ag' states omega_actions rng_llc in
  (ag', (actions, _current_log_prob ag')).

(** The two branches of the style reward, as written in the source. *)
Definition least_square_reward (logit : R) : R :=
  Rmax (1 - 0.25 * Rsqr (1 - logit)) 0.0001.
Definition cross_entropy_reward (logit : R) : R :=
  - ln (Rmax (1 - 1 / (1 + exp (- logit))) 0.0001).

(** [_get_llc_disc_reward] *)
Definition _get_llc_disc_reward (ag : agent) (amp_states : t2) : t2 :=
  let amp_logits := llc_discriminator (llc_amp_state_preprocessor amp_states) in
  let style_rewards :=
    if llc_least_square_discriminator (cfg ag)
    then map2 least_square_reward amp_logits
    else map2 cross_entropy_reward amp_logits in
  map2 (fun r => r * llc_discriminator_reward_scale (cfg ag)) style_rewards.

(** [store_transition].  [BaseAgent.store_transition] only keeps the
    episode statistics; [infos["amp_obs"]] raises when the key is
    missing. *)
Definition transition_samples (ag : agent)
    (states actions next_states rewards terminated truncated
       values amp_states next_values : t2) : gmap string t2 :=
  let samples : gmap string t2 :=
    list_to_map
      [("states"%string, states); ("actions"%string, actions);
       ("rewards"%string, rewards); ("next_states"%string, next_states);
       ("terminated"%string, terminated); ("truncated"%string, truncated);
       ("values"%string, values); ("amp_states"%string, amp_states);
       ("next_values"%string, next_values);
       ("disc_rewards"%string, _get_llc_disc_reward ag amp_states)] in
  let samples :=
    match _current_log_prob ag with
    | Some lp => <["log_prob"%string := lp]> samples
    | None => samples
    end in
  match _omega_actions_for_llc ag with
  | Some omega => <["omega_actions"%string := omega]> samples
  | None => samples
  end.

Definition store_transition (ag : agent)
    (states actions next_states rewards terminated truncated : t2)
    (infos : gmap string t2) : option agent :=
  let states := act_states ag states in
  let tracking' :=
    base_store_transition (tracking ag) states actions next_states rewards
      terminated truncated infos in
  amp_states ← infos !! "amp_obs"%string;
  let rewards :=
    match _rewards_shaper (cfg ag) with
    | Some shaper => shaper rewards
    | None => rewards
    end in
  let vp := value_preprocessor_state ag in
  let values := value (state_preprocessor states) in
  let values := value_preprocessor_inverse vp values in
  let next_values := value (state_preprocessor next_states) in
  let next_values := value_preprocessor_inverse vp next_values in
  let next_values :=
    zip2 Rmult next_values (map2 logical_not (need_terminate ag)) in
  Some {|
    cfg := cfg ag;
    memory :=
      add_samples (memory ag)
        (transition_samples ag states actions next_states rewards terminated
           truncated values amp_states next_values);
    value_preprocessor_state := vp;
    tracking := tracking';
    _current_states := _current_states ag;
    _current_log_prob := _current_log_prob ag;
    _omega_actions_for_llc := _omega_actions_for_llc ag;
    pre_states := pre_states ag;
    llc_cum_rew := llc_cum_rew ag;
    llc_cum_disc_rew := llc_cum_disc_rew ag;
    need_reset := need_reset ag;
    need_terminate := need_terminate ag;
  |}.

(** [update_net], up to the three [set_tensor_by_name] calls.  The
    update of the reference-motion dataset that comes first touches
    another object, and the optimisation epochs that follow read the
    memory through [sample_all] and do not write it. *)

(** The style reward of the agent's own discriminator. *)
Definition demo_style_rewards (ag : agent) : t3 :=
  let amp_states := get_tensor_by_name (memory ag) "amp_states" in
  let amp_logits := discriminator (amp_state_preprocessor amp_states) in
  let demo_style_rewards :=
    if _least_square_discriminator (cfg ag)
    then map3 least_square_reward amp_logits
    else map3 cross_entropy_reward amp_logits in
  map3 (fun r => r * _discriminator_reward_scale (cfg ag)) demo_style_rewards.

Definition combined_rewards (ag : agent) : t3 :=
  let rewards := get_tensor_by_name (memory ag) "rewards" in
  let style_rewards := get_tensor_by_name (memory ag) "disc_rewards" in
  zip3 Rplus
    (zip3 Rplus
       (map3 (fun r => _task_reward_weight (cfg ag) * r) rewards)
       (map3 (fun r => _style_reward_weight (cfg ag) * r) style_rewards))
    (map3 (fun r => _demo_style_reward_weight (cfg ag) * r)
       (demo_style_rewards ag)).

(** One iteration of the advantage loop:
    [combined_rewards[i] - values[i] + discount * (next_values[i] + td_lambda * not_dones[i] * advantage)]. *)
Definition gae_step (discount td_lambda : R)
    (reward_i value_i next_value_i not_done_i : t2)
    (advantage : advantage_value) : t2 :=
  zip2 Rplus
    (zip2 Rminus reward_i value_i)
    (map2 (fun x => discount * x)
       (zip2 Rplus next_value_i
          (mul_advantage (map2 (fun d => td_lambda * d) not_done_i) advantage))).

(** [for i in reversed(range(memory_size))]: [count] iterations are left,
    the next one at index [count - 1].  Indexing past the end of a
    tensor raises. *)
Fixpoint gae_loop (discount td_lambda : R)
    (rewards values next_values not_dones : t3)
    (count : nat) (advantage : advantage_value) (advantages : t3)
  : option (advantage_value * t3) :=
  match count with
  | O => Some (advantage, advantages)
  | S i =>
      reward_i ← rewards !! i;
      value_i ← values !! i;
      next_value_i ← next_values !! i;
      not_done_i ← not_dones !! i;
      let advantage :=
        gae_step discount td_lambda reward_i value_i next_value_i not_done_i
          advantage in
      gae_loop discount td_lambda rewards values next_values not_dones i
        (AdvTensor advantage) (<[i := advantage]> advantages)
  end.

Definition not_dones (ag : agent) : t3 :=
  map3 logical_not (get_tensor_by_name (memory ag) "terminated").

Definition compute_advantages (ag : agent) : option t3 :=
  let rewards := combined_rewards ag in
  let values := get_tensor_by_name (memory ag) "values" in
  let next_values := get_tensor_by_name (memory ag) "next_values" in
  let memory_size := length rewards in
  r ← gae_loop (_discount (cfg ag)) (_td_lambda (cfg ag))
        rewards values next_values (not_dones ag)
        memory_size (AdvNumber 0) (zeros_like3 rewards);
  Some r.2.

(** [(advantages - advantages.mean()) / (advantages.std() + 1e-8)] *)
Definition normalize_advantages (advantages : t3) : t3 :=
  let flat := flatten3 advantages in
  map3 (fun a => (a - mean flat) / (std flat + 1e-8)) advantages.

Definition update_net (ag : agent) : option agent :=
  let values := get_tensor_by_name (memory ag) "values" in
  advantages ← compute_advantages ag;
  let values_target := zip3 Rplus advantages values in
  let advantages := normalize_advantages advantages in
  let '(values', vp1) :=
    value_preprocessor_train (value_preprocessor_state ag) values in
  let '(returns', vp2) := value_preprocessor_train vp1 values_target in
  let mem := set_tensor_by_name (memory ag) "values" values' in
  let mem := set_tensor_by_name mem "returns" returns' in
  let mem := set_tensor_by_name mem "advantages" advantages in
  Some {|
    cfg := cfg ag;
    memory := mem;
    value_preprocessor_state := vp2;
    tracking := tracking ag;
    _current_states := _current_states ag;
    _current_log_prob := _current_log_prob ag;
    _omega_actions_for_llc := _omega_actions_for_llc ag;
    pre_states := pre_states ag;
    llc_cum_rew := llc_cum_rew ag;
    llc_cum_disc_rew := llc_cum_disc_rew ag;
    need_reset := need_reset ag;
    need_terminate := need_terminate ag;
  |}.

(** *** Acting through the low-level controller (C1) *)

Lemma sum1_squares_nonneg (x : t1) : 0 <= sum1 (map1 (fun a => a * a) x).
Proof.
  unfold sum1, map1. induction x as [|a x IH]; simpl; [lra|].
  pose proof (Rle_0_sqr a) as Ha. unfold Rsqr in Ha. lra.
Qed.

Lemma sum1_squares_scaled (c : R) (x : t1) :
  c <> 0 ->
  sum1 (map1 (fun a => a * a) (map1 (fun a => a / c) x))
  = sum1 (map1 (fun a => a * a) x) / (c * c).
Proof.
  intros Hc. unfold sum1, map1. induction x as [|a x IH]; simpl.
  - field. exact Hc.
  - rewrite IH. field. exact Hc.
Qed.

Lemma normalize_eps_pos : 0 < normalize_eps.
Proof. unfold normalize_eps. lra. Qed.

Lemma normalize1_unit (x : t1) :
  normalize_eps <= norm x -> norm (normalize1 x) = 1.
Proof.
  intros Hx. pose proof normalize_eps_pos as He.
  unfold normalize1. rewrite Rmax_left by exact Hx.
  unfold norm at 1. rewrite sum1_squares_scaled by lra.
  unfold norm in *. set (S := sum1 (map1 (fun a => a * a) x)) in *.
  rewrite sqrt_sqrt by apply sum1_squares_nonneg.
  assert (HS : 0 < S).
  { destruct (Rle_lt_or_eq_dec 0 S (sum1_squares_nonneg x)) as [Hlt|Heq];
      [exact Hlt|].
    rewrite <- Heq, sqrt_0 in Hx. lra. }
  replace (S / S) with 1 by (field; lra). apply sqrt_1.
Qed.

Lemma normalize_unit (x : t2) :
  Forall (fun w => normalize_eps <= norm w) x ->
  Forall (fun z => norm z = 1) (normalize x).
Proof.
  unfold normalize. induction 1 as [|w x Hw Hx IH]; simpl; constructor.
  - apply normalize1_unit, Hw.
  - exact IH.
Qed.

Lemma py_slice_to_drop_last {A : Type} (n : nat) (row : list A) :
  (n <= length row)%nat ->
  py_slice_to (Z.of_nat (length row) - Z.of_nat n) row = drop_last n row.
Proof.
  intros Hn. unfold py_slice_to, drop_last.
  destruct (Z.ltb_spec (Z.of_nat (length row) - Z.of_nat n) 0) as [Hlt|Hge];
    [lia|].
  f_equal. lia.
Qed.

Lemma task_agnostic_drop_last (ag : agent) (states : t2) :
  Forall (fun st => (_task_related_state_size (cfg ag) <= length st)%nat) states ->
  task_agnostic ag states
  = List.map (drop_last (_task_related_state_size (cfg ag))) states.
Proof.
  unfold task_agnostic. induction 1 as [|st states Hst Hs IH]; simpl.
  - reflexivity.
  - rewrite py_slice_to_drop_last by exact Hst. f_equal. exact IH.
Qed.

(** C1 (as amended).  [act] takes the states to be the collected
    [_current_states] when there are some and its argument otherwise;
    when each state has at least [task_related_state_size] entries, it
    returns the actions of the low-level controller on the states
    without their last [task_related_state_size] entries and on the
    row-normalised latent sampled by the high-level policy from the
    preprocessed states, together with that policy's log-probability;
    and every latent whose Euclidean norm is at least [1e-12] reaches
    the controller with norm one. *)
Theorem act_low_level (ag : agent) (states : t2) (deterministic : bool)
    (rng rng_llc : Rng) :
  let states' := act_states ag states in
  let sampled := policy (state_preprocessor states') deterministic rng in
  let z := act_latents ag states deterministic rng in
  Forall (fun st => (_task_related_state_size (cfg ag) <= length st)%nat)
    states' ->
  z = normalize sampled.1
  /\ (act ag states deterministic rng rng_llc).2
     = ((llc_act
           (List.map (drop_last (_task_related_state_size (cfg ag))) states')
           false z rng_llc).1,
        sampled.2)
  /\ _omega_actions_for_llc (act ag states deterministic rng rng_llc).1
     = Some sampled.1
  /\ (Forall (fun w => normalize_eps <= norm w) sampled.1 ->
      Forall (fun v => norm v = 1) z).
Proof.
  intros states' sampled z Hsize.
  split; [reflexivity|].
  unfold act, z, act_latents. fold states'. fold sampled.
  destruct sampled as [omega log_prob] eqn:Hs. simpl.
  split; [|split].
  - unfold _get_llc_action. simpl.
    rewrite <- (task_agnostic_drop_last ag states') by exact Hsize.
    unfold task_agnostic. simpl.
    destruct (llc_act _ false (normalize omega) rng_llc) as [actions lp].
    reflexivity.
  - reflexivity.
  - apply normalize_unit.
Qed.

(** *** Generalized advantage estimation (C2) *)

(** The advantage that follows row [j]: the row [j + 1] of the
    advantages, or the number [0] after the last row. *)
Definition next_advantage (advantages : t3) (j : nat) : advantage_value :=
  match advantages !! S j with
  | Some a => AdvTensor a
  | None => AdvNumber 0
  end.

(** Row [j] of [advantages] obeys the backward recursion. *)
Definition gae_row (discount td_lambda : R)
    (rewards values next_values not_dones advantages : t3) (j : nat) : Prop :=
  exists reward_j value_j next_value_j not_done_j,
    rewards !! j = Some reward_j /\ values !! j = Some value_j
    /\ next_values !! j = Some next_value_j
    /\ not_dones !! j = Some not_done_j
    /\ advantages !! j
       = Some (gae_step discount td_lambda reward_j value_j next_value_j
                 not_done_j (next_advantage advantages j)).

Lemma gae_loop_spec (discount td_lambda : R)
    (rewards values next_values not_dones : t3) :
  let n := length rewards in
  length values = n -> length next_values = n -> length not_dones = n ->
  forall count advantage advantages,
    (count <= n)%nat ->
    length advantages = n ->
    advantage = match advantages !! count with
                | Some a => AdvTensor a
                | None => AdvNumber 0
                end ->
    (forall j, (count <= j < n)%nat ->
       gae_row discount td_lambda rewards values next_values not_dones
         advantages j) ->
    exists advantage' advantages',
      gae_loop discount td_lambda rewards values next_values not_dones
        count advantage advantages = Some (advantage', advantages')
      /\ length advantages' = n
      /\ forall j, (j < n)%nat ->
           gae_row discount td_lambda rewards values next_values not_dones
             advantages' j.
Proof.
  intros n Hv Hnv Hnd count.
  induction count as [|i IH]; intros advantage advantages Hc Hlen Hadv Hinv.
  - exists advantage, advantages. split; [reflexivity|]. split; [exact Hlen|].
    intros j Hj. apply Hinv. lia.
  - destruct (lookup_lt_is_Some_2 rewards i) as [r Hr]; [fold n; lia|].
    destruct (lookup_lt_is_Some_2 values i) as [v Hvi]; [lia|].
    destruct (lookup_lt_is_Some_2 next_values i) as [nv Hnvi]; [lia|].
    destruct (lookup_lt_is_Some_2 not_dones i) as [nd Hndi]; [lia|].
    simpl. rewrite Hr, Hvi, Hnvi, Hndi. cbn.
    set (a := gae_step discount td_lambda r v nv nd advantage).
    apply IH.
    + lia.
    + rewrite length_insert. exact Hlen.
    + rewrite list_lookup_insert_eq by lia. reflexivity.
    + intros j Hj. destruct (decide (j = i)) as [->|Hne].
      * exists r, v, nv, nd. repeat (split; [assumption|]).
        rewrite list_lookup_insert_eq by lia. unfold next_advantage.
        rewrite list_lookup_insert_ne by lia. rewrite <- Hadv. reflexivity.
      * destruct (Hinv j) as (r' & v' & nv' & nd' & H1 & H2 & H3 & H4 & H5);
          [lia|].
        exists r', v', nv', nd'. repeat (split; [assumption|]).
        unfold next_advantage in *.
        rewrite !list_lookup_insert_ne by lia. exact H5.
Qed.

Lemma length_zeros_like3 (x : t3) : length (zeros_like3 x) = length x.
Proof. unfold zeros_like3, map3. apply length_map. Qed.

Lemma length_not_dones (ag : agent) :
  length (not_dones ag)
  = length (get_tensor_by_name (memory ag) "terminated").
Proof. unfold not_dones, map3. apply length_map. Qed.

Lemma compute_advantages_spec (ag : agent) :
  let n := length (combined_rewards ag) in
  length (get_tensor_by_name (memory ag) "values") = n ->
  length (get_tensor_by_name (memory ag) "next_values") = n ->
  length (get_tensor_by_name (memory ag) "terminated") = n ->
  exists advantages,
    compute_advantages ag = Some advantages
    /\ length advantages = n
    /\ forall j, (j < n)%nat ->
         gae_row (_discount (cfg ag)) (_td_lambda (cfg ag))
           (combined_rewards ag)
           (get_tensor_by_name (memory ag) "values")
           (get_tensor_by_name (memory ag) "next_values")
           (not_dones ag) advantages j.
Proof.
  intros n Hv Hnv Hnd.
  destruct (gae_loop_spec (_discount (cfg ag)) (_td_lambda (cfg ag))
              (combined_rewards ag)
              (get_tensor_by_name (memory ag) "values")
              (get_tensor_by_name (memory ag) "next_values")
              (not_dones ag) Hv Hnv
              ltac:(rewrite length_not_dones; exact Hnd)
              n (AdvNumber 0) (zeros_like3 (combined_rewards ag)))
    as (adv' & A & Hrun & Hlen & Hrows).
  - reflexivity.
  - apply length_zeros_like3.
  - rewrite lookup_ge_None_2; [reflexivity|].
    rewrite length_zeros_like3. fold n. lia.
  - intros j Hj. fold n in Hj. lia.
  - exists A. split; [|split; assumption].
    unfold compute_advantages. fold n. rewrite Hrun. reflexivity.
Qed.


(** *** The style reward (C4) *)

Lemma map2_map2 (f g : R -> R) (x : t2) :
  map2 g (map2 f x) = map2 (fun a => g (f a)) x.
Proof.
  unfold map2, map1. rewrite List.map_map. apply List.map_ext.
  intros r. apply List.map_map.
Qed.

Lemma map3_map3 (f g : R -> R) (x : t3) :
  map3 g (map3 f x) = map3 (fun a => g (f a)) x.
Proof.
  unfold map3. rewrite List.map_map. apply List.map_ext.
  intros r. apply map2_map2.
Qed.

Lemma Forall_map3 (P : R -> Prop) (f : R -> R) (x : t3) :
  (forall a, P (f a)) -> Forall (Forall (Forall P)) (map3 f x).
Proof.
  intros Hf. unfold map3.
  induction x as [|r x IH]; simpl; constructor; auto using Forall_map2.
Qed.

Lemma sigmoid_bounds (x : R) : 0 < sigmoid x < 1.
Proof.
  unfold sigmoid. pose proof (exp_pos (- x)) as He. split.
  - apply Rdiv_lt_0_compat; lra.
  - assert (Hq : 0 < exp (- x) / (1 + exp (- x))) by (apply Rdiv_lt_0_compat; lra).
    replace (1 / (1 + exp (- x))) with (1 - exp (- x) / (1 + exp (- x)))
      by (field; lra).
    lra.
Qed.

Lemma style_reward_pos (least_square : bool) (scale logit : R) :
  0 < scale -> 0 < style_reward least_square scale logit.
Proof.
  intros Hs. unfold style_reward. apply Rmult_lt_0_compat; [|exact Hs].
  destruct least_square.
  - pose proof (Rmax_r (1 - 0.25 * (1 - logit) ^ 2) 0.0001). lra.
  - pose proof (sigmoid_bounds logit) as [H0 H1].
    set (u := Rmax (1 - sigmoid logit) 0.0001).
    assert (Hu : 0 < u < 1).
    { unfold u. split.
      - pose proof (Rmax_r (1 - sigmoid logit) 0.0001). lra.
      - apply Rmax_lub_lt; lra. }
    assert (Hln : ln u < 0).
    { rewrite <- ln_1. apply ln_increasing; lra. }
    lra.
Qed.

Lemma style_reward_least_square_bound (scale logit : R) :
  0 < scale -> 0.0001 * scale <= style_reward true scale logit.
Proof.
  intros Hs. unfold style_reward.
  apply Rmult_le_compat_r; [lra|]. apply Rmax_r.
Qed.

Lemma least_square_reward_scaled (scale logit : R) :
  least_square_reward logit * scale = style_reward true scale logit.
Proof.
  unfold least_square_reward, style_reward. rewrite Rsqr_pow2. reflexivity.
Qed.

Lemma cross_entropy_reward_scaled (scale logit : R) :
  cross_entropy_reward logit * scale = style_reward false scale logit.
Proof. reflexivity. Qed.

Lemma _get_llc_disc_reward_eq (ag : agent) (amp_states : t2) :
  _get_llc_disc_reward ag amp_states
  = map2 (style_reward (llc_least_square_discriminator (cfg ag))
            (llc_discriminator_reward_scale (cfg ag)))
      (llc_discriminator (llc_amp_state_preprocessor amp_states)).
Proof.
  unfold _get_llc_disc_reward.
  destruct (llc_least_square_discriminator (cfg ag)); rewrite map2_map2;
    unfold map2, map1; apply List.map_ext; intros r; apply List.map_ext;
    intros a.
  - apply least_square_reward_scaled.
  - apply cross_entropy_reward_scaled.
Qed.

Lemma demo_style_rewards_eq (ag : agent) :
  demo_style_rewards ag
  = map3 (style_reward (_least_square_discriminator (cfg ag))
            (_discriminator_reward_scale (cfg ag)))
      (discriminator
         (amp_state_preprocessor (get_tensor_by_name (memory ag) "amp_states"))).
Proof.
  unfold demo_style_rewards.
  destruct (_least_square_discriminator (cfg ag)); rewrite map3_map3;
    unfold map3, map2, map1; apply List.map_ext; intros r; apply List.map_ext;
    intros r'; apply List.map_ext; intros a.
  - apply least_square_reward_scaled.
  - apply cross_entropy_reward_scaled.
Qed.


(** *** The combined reward (C3) *)

Lemma index3_map3 (f : R -> R) (x : t3) (i j k : nat) :
  index3 (map3 f x) i j k = f <$> index3 x i j k.
Proof.
  unfold index3, map3, map2, map1. rewrite lookup_map.
  destruct (x !! i) as [row|]; [|reflexivity]. cbn. rewrite lookup_map.
  destruct (row !! j) as [col|]; [|reflexivity]. cbn. apply lookup_map.
Qed.

Lemma index3_zip3 (f : R -> R -> R) (x y : t3) (i j k : nat) :
  index3 (zip3 f x y) i j k
  = (a ← index3 x i j k; b ← index3 y i j k; Some (f a b)).
Proof.
  unfold index3, zip3, zip2, zip1. rewrite lookup_zip_with.
  destruct (x !! i) as [rx|]; [|reflexivity]. cbn.
  destruct (y !! i) as [ry|]; cbn.
  - rewrite lookup_zip_with.
    destruct (rx !! j) as [cx|]; [|reflexivity]. cbn.
    destruct (ry !! j) as [cy|]; cbn.
    + rewrite lookup_zip_with. reflexivity.
    + destruct (cx !! k); reflexivity.
  - destruct (rx !! j) as [cx|]; [|reflexivity]. cbn.
    destruct (cx !! k); reflexivity.
Qed.

(** What [store_transition] hands to [add_samples]. *)
Lemma transition_samples_lookup (ag : agent)
    (states actions next_states rewards terminated truncated
       values amp_states next_values : t2) :
  let samples :=
    transition_samples ag states actions next_states rewards terminated
      truncated values amp_states next_values in
  samples !! "rewards"%string = Some rewards
  /\ samples !! "disc_rewards"%string = Some (_get_llc_disc_reward ag amp_states)
  /\ samples !! "amp_states"%string = Some amp_states.
Proof.
  unfold transition_samples.
  destruct (_current_log_prob ag), (_omega_actions_for_llc ag);
    repeat split; simpl;
    repeat (rewrite lookup_insert_ne by discriminate);
    apply lookup_insert_eq.
Qed.

(** C3.  The reward used for advantage estimation is, entry by entry,
    [task_reward_weight * rewards + style_reward_weight * disc_rewards
    + demo_style_reward_weight * demo_style_rewards] and nothing else:
    [rewards] and [disc_rewards] are the memory tensors of these names,
    read without change, and [demo_style_rewards] is the style reward of
    the agent's own discriminator on the preprocessed memory tensor
    [amp_states].  [store_transition] fills these tensors through
    [add_samples] with the (possibly shaped) rewards, the style reward
    of the low-level controller's discriminator and [infos["amp_obs"]];
    it raises when [infos] has no such entry. *)
Theorem combined_rewards_affine (ag : agent) :
  let mem := memory ag in
  let logits :=
    discriminator (amp_state_preprocessor (get_tensor_by_name mem "amp_states")) in
  let demo :=
    map3 (style_reward (_least_square_discriminator (cfg ag))
            (_discriminator_reward_scale (cfg ag))) logits in
  combined_rewards ag
  = zip3 Rplus
      (zip3 Rplus
         (map3 (fun r => _task_reward_weight (cfg ag) * r)
            (get_tensor_by_name mem "rewards"))
         (map3 (fun r => _style_reward_weight (cfg ag) * r)
            (get_tensor_by_name mem "disc_rewards")))
      (map3 (fun r => _demo_style_reward_weight (cfg ag) * r) demo)
  /\ (forall i j k,
        index3 (combined_rewards ag) i j k
        = (r ← index3 (get_tensor_by_name mem "rewards") i j k;
           d ← index3 (get_tensor_by_name mem "disc_rewards") i j k;
           l ← index3 logits i j k;
           Some (_task_reward_weight (cfg ag) * r
                 + _style_reward_weight (cfg ag) * d
                 + _demo_style_reward_weight (cfg ag)
                   * style_reward (_least_square_discriminator (cfg ag))
                       (_discriminator_reward_scale (cfg ag)) l)))
  /\ (forall states actions next_states rewards terminated truncated infos,
        match infos !! "amp_obs"%string with
        | None =>
            store_transition ag states actions next_states rewards terminated
              truncated infos = None
        | Some amp_obs =>
            exists ag' samples,
              store_transition ag states actions next_states rewards
                terminated truncated infos = Some ag'
              /\ memory ag' = add_samples mem samples
              /\ samples !! "rewards"%string
                 = Some (match _rewards_shaper (cfg ag) with
                         | Some shaper => shaper rewards
                         | None => rewards
                         end)
              /\ samples !! "disc_rewards"%string
                 = Some (_get_llc_disc_reward ag amp_obs)
              /\ samples !! "amp_states"%string = Some amp_obs
        end).
Proof.
  intros mem logits demo.
  assert (Heq : combined_rewards ag
    = zip3 Rplus
        (zip3 Rplus
           (map3 (fun r => _task_reward_weight (cfg ag) * r)
              (get_tensor_by_name mem "rewards"))
           (map3 (fun r => _style_reward_weight (cfg ag) * r)
              (get_tensor_by_name mem "disc_rewards")))
        (map3 (fun r => _demo_style_reward_weight (cfg ag) * r) demo)).
  { unfold combined_rewards. rewrite demo_style_rewards_eq. reflexivity. }
  split; [exact Heq|]. split.
  - intros i j k. rewrite Heq. unfold demo.
    rewrite !index3_zip3, !index3_map3.
    destruct (index3 (get_tensor_by_name mem "rewards") i j k) as [r|];
      [|reflexivity].
    destruct (index3 (get_tensor_by_name mem "disc_rewards") i j k) as [d|];
      [|reflexivity].
    destruct (index3 logits i j k) as [l|]; reflexivity.
  - intros states actions next_states rewards terminated truncated infos.
    unfold store_transition.
    destruct (infos !! "amp_obs"%string) as [amp_obs|]; [|reflexivity].
    cbn. eexists _, _. split; [reflexivity|]. split; [reflexivity|].
    apply transition_samples_lookup.
Qed.

(** *** From [act] to [store_transition] *)

Lemma transition_samples_latent (ag : agent)
    (states actions next_states rewards terminated truncated
       values amp_states next_values : t2) :
  let samples :=
    transition_samples ag states actions next_states rewards terminated
      truncated values amp_states next_values in
  samples !! "omega_actions"%string = _omega_actions_for_llc ag
  /\ samples !! "log_prob"%string = _current_log_prob ag
  /\ samples !! "states"%string = Some states
  /\ samples !! "actions"%string = Some actions
  /\ samples !! "next_values"%string = Some next_values.
Proof.
  unfold transition_samples.
  destruct (_current_log_prob ag), (_omega_actions_for_llc ag);
    repeat split; simpl;
    repeat (rewrite lookup_insert_ne by discriminate);
    first [apply lookup_insert_eq | apply lookup_empty].
Qed.

(** X10.  A [store_transition] that follows [act] stores, as
    [omega_actions], the latent as the high-level policy sampled it,
    not the normalised latent that [act] handed to the low-level
    controller, and as [log_prob] the log-probability of that sample;
    the stored states are the collected [_current_states] when the
    agent holds some, and the stored actions are those the caller
    passes. *)
Theorem store_transition_after_act (ag : agent) (states : t2)
    (deterministic : bool) (rng rng_llc : Rng)
    (states' actions next_states rewards terminated truncated amp_obs : t2)
    (infos : gmap string t2) :
  let sampled := policy (state_preprocessor (act_states ag states)) deterministic rng in
  let acting := (act ag states deterministic rng rng_llc).1 in
  infos !! "amp_obs"%string = Some amp_obs ->
  exists ag' samples,
    store_transition acting states' actions next_states rewards terminated
      truncated infos = Some ag'
    /\ memory ag' = add_samples (memory ag) samples
    /\ samples !! "omega_actions"%string = Some sampled.1
    /\ samples !! "log_prob"%string = sampled.2
    /\ samples !! "states"%string = Some (act_states ag states')
    /\ samples !! "actions"%string = Some actions.
Proof.
  intros sampled acting Hinfos. unfold acting, act. fold sampled.
  destruct sampled as [omega log_prob]. cbn.
  unfold store_transition. rewrite Hinfos. cbn -[transition_samples].
  eexists _, _. split; [reflexivity|]. split; [reflexivity|].
  match goal with
  | |- context [transition_samples ?a ?s ?ac ?ns ?r ?t ?tr ?v ?am ?nv] =>
      destruct (transition_samples_latent a s ac ns r t tr v am nv)
        as (Ho & Hl & Hs & Ha & _)
  end.
  repeat split; assumption.
Qed.

Lemma logical_not_0 : logical_not 0 = 1.
Proof. unfold logical_not. destruct (Req_dec_T 0 0) as [_|Hne]; [reflexivity|lra]. Qed.

Lemma zip2_mult_not_zeros (n : nat) (x : t2) :
  length x = n -> Forall (fun row => length row = 1%nat) x ->
  zip2 Rmult x (map2 logical_not (zeros_n_1 n)) = x.
Proof.
  intros Hlen Hrows. subst n. unfold zip2, zip1, map2, map1, zeros_n_1.
  induction Hrows as [|row x Hrow Hrows IH]; simpl; [reflexivity|].
  rewrite IH. f_equal.
  destruct row as [|a [|b row]]; try discriminate. simpl.
  rewrite logical_not_0. f_equal. ring.
Qed.

(** X11.  [act] resets [need_terminate] to zeros, so in the
    [store_transition] that follows it the mask
    [need_terminate.logical_not()] that is multiplied into the next
    values is all ones: the stored [next_values] are the
    inverse-preprocessed outputs of the value network on the next
    states, one per environment, unmasked. *)
Theorem next_values_unmasked_after_act (ag : agent) (states : t2)
    (deterministic : bool) (rng rng_llc : Rng)
    (states' actions next_states rewards terminated truncated amp_obs : t2)
    (infos : gmap string t2) :
  let acting := (act ag states deterministic rng rng_llc).1 in
  let next_values :=
    value_preprocessor_inverse (value_preprocessor_state ag)
      (value (state_preprocessor next_states)) in
  infos !! "amp_obs"%string = Some amp_obs ->
  length next_values = num_envs (cfg ag) ->
  Forall (fun row => length row = 1%nat) next_values ->
  need_terminate acting = zeros_n_1 (num_envs (cfg ag))
  /\ exists ag' samples,
       store_transition acting states' actions next_states rewards terminated
         truncated infos = Some ag'
       /\ memory ag' = add_samples (memory ag) samples
       /\ samples !! "next_values"%string = Some next_values.
Proof.
  intros acting next_values Hinfos Hlen Hrows. unfold acting, act.
  destruct (policy (state_preprocessor (act_states ag states)) deterministic rng)
    as [omega log_prob].
  cbn. split; [reflexivity|].
  unfold store_transition. rewrite Hinfos. cbn -[transition_samples].
  eexists _, _. split; [reflexivity|]. split; [reflexivity|].
  match goal with
  | |- context [transition_samples ?a ?s ?ac ?ns ?r ?t ?tr ?v ?am ?nv] =>
      destruct (transition_samples_latent a s ac ns r t tr v am nv)
        as (_ & _ & _ & _ & Hnv)
  end.
  rewrite Hnv. f_equal. fold next_values.
  apply zip2_mult_not_zeros; assumption.
Qed.

(** *** Where the advantage recursion stops *)

(** A batch of [e] rows with [c] entries each. *)
Definition shape2 (e c : nat) (x : t2) : Prop :=
  length x = e /\ Forall (fun row => length row = c) x.

(** The one-step temporal-difference residual
    [rewards - values + discount * next_values]. *)
Definition td_residual (discount : R) (rewards values next_values : t3) : t3 :=
  zip3 Rplus (zip3 Rminus rewards values)
    (map3 (fun x => discount * x) next_values).

Lemma zip1_absorb (f : R -> R -> R) (Q : R -> Prop) (x y : t1) :
  (forall a b, Q b -> f a b = a) ->
  length x = length y -> Forall Q y -> zip1 f x y = x.
Proof.
  intros Hf Hlen Hy. unfold zip1. revert x Hlen.
  induction Hy as [|b y Hb Hy IH]; intros [|a x] Hlen; simpl in *;
    try reflexivity; try discriminate.
  rewrite Hf by exact Hb. rewrite IH by congruence. reflexivity.
Qed.

Lemma zip2_absorb (f : R -> R -> R) (Q : R -> Prop) (e c : nat) (x y : t2) :
  (forall a b, Q b -> f a b = a) ->
  shape2 e c x -> shape2 e c y -> Forall (Forall Q) y -> zip2 f x y = x.
Proof.
  intros Hf [Hxe Hxc] [Hye Hyc] Hy. unfold zip2. subst e.
  revert x Hye Hxc. induction Hy as [|b y Hb Hy IH]; intros [|a x] Hlen Hxc;
    simpl in *; try reflexivity; try discriminate.
  apply Forall_cons in Hyc as [Hbc Hyc]. apply Forall_cons in Hxc as [Hac Hxc].
  rewrite (zip1_absorb f Q) by (try assumption; congruence).
  rewrite IH by (try assumption; congruence). reflexivity.
Qed.

Lemma shape2_map2 (f : R -> R) (e c : nat) (x : t2) :
  shape2 e c x -> shape2 e c (map2 f x).
Proof.
  intros [He Hc]. unfold shape2, map2, map1. rewrite length_map.
  split; [exact He|]. apply Forall_map. eapply Forall_impl; [exact Hc|].
  intros row Hrow. cbn. rewrite length_map. exact Hrow.
Qed.

Lemma shape2_zip2 (f : R -> R -> R) (e c : nat) (x y : t2) :
  shape2 e c x -> shape2 e c y -> shape2 e c (zip2 f x y).
Proof.
  intros [Hxe Hxc] [Hye Hyc]. unfold shape2, zip2, zip1. subst e.
  revert y Hye Hyc. induction Hxc as [|a x Ha Hx IH]; intros [|b y] Hlen Hyc;
    simpl in *; try discriminate; [split; [reflexivity|constructor]|].
  apply Forall_cons in Hyc as [Hb Hyc].
  destruct (IH y) as [IHe IHc]; [congruence|exact Hyc|].
  split; [simpl; congruence|].
  constructor; [|exact IHc]. rewrite length_zip_with. lia.
Qed.

Lemma Forall2_map2 (P Q : R -> Prop) (f : R -> R) (x : t2) :
  (forall a, P a -> Q (f a)) -> Forall (Forall P) x -> Forall (Forall Q) (map2 f x).
Proof.
  intros Hf Hx. unfold map2, map1. apply Forall_map.
  eapply Forall_impl; [exact Hx|]. intros row Hrow. cbn.
  apply Forall_map. eapply Forall_impl; [exact Hrow|]. exact Hf.
Qed.

Lemma Forall_zip2_l (P S : R -> Prop) (f : R -> R -> R) (x y : t2) :
  (forall a b, P a -> S (f a b)) ->
  Forall (Forall P) x -> Forall (Forall S) (zip2 f x y).
Proof.
  intros Hf Hx. revert y. unfold zip2, zip1.
  induction Hx as [|a x Ha Hx IH]; intros [|b y]; simpl; constructor; auto.
  clear -Hf Ha. revert b. induction Ha as [|u a Hu Ha IH]; intros [|v b];
    simpl; constructor; auto.
Qed.

(** The masked term [td_lambda * not_dones * advantage] is zero. *)
Definition cut (td_lambda : R) (not_done : t2) : Prop :=
  td_lambda = 0 \/ Forall (Forall (fun d => d = 0)) not_done.

Lemma gae_step_cut (discount td_lambda : R) (e c : nat)
    (reward value_ next_value not_done : t2) (advantage : advantage_value) :
  shape2 e c next_value -> shape2 e c not_done ->
  match advantage with
  | AdvNumber _ => True
  | AdvTensor t => shape2 e c t
  end ->
  cut td_lambda not_done ->
  gae_step discount td_lambda reward value_ next_value not_done advantage
  = zip2 Rplus (zip2 Rminus reward value_)
      (map2 (fun x => discount * x) next_value).
Proof.
  intros Hnv Hnd Hadv Hcut. unfold gae_step. do 2 f_equal.
  set (masked := map2 (fun d => td_lambda * d) not_done).
  assert (Hshape : shape2 e c masked) by (apply shape2_map2, Hnd).
  assert (Hzero : Forall (Forall (fun d => d = 0)) masked).
  { destruct Hcut as [->|Hall].
    - apply Forall_map2. intros a. ring.
    - eapply Forall2_map2; [|exact Hall]. intros a ->. ring. }
  apply (zip2_absorb Rplus (fun d => d = 0) e c); try assumption.
  - intros a b ->. ring.
  - destruct advantage as [r|t]; simpl.
    + apply shape2_map2, Hshape.
    + apply shape2_zip2; assumption.
  - destruct advantage as [r|t]; simpl.
    + eapply Forall2_map2; [|exact Hzero]. intros a ->. ring.
    + eapply Forall_zip2_l; [|exact Hzero]. intros a b ->. ring.
Qed.

Lemma td_residual_lookup (discount : R) (rewards values next_values : t3)
    (j : nat) (reward value_ next_value : t2) :
  rewards !! j = Some reward -> values !! j = Some value_ ->
  next_values !! j = Some next_value ->
  td_residual discount rewards values next_values !! j
  = Some (zip2 Rplus (zip2 Rminus reward value_)
            (map2 (fun x => discount * x) next_value)).
Proof.
  intros Hr Hv Hnv. unfold td_residual, zip3, map3.
  rewrite lookup_zip_with, lookup_zip_with, Hr. cbn. rewrite Hv. cbn.
  rewrite lookup_map, Hnv. reflexivity.
Qed.

Lemma length_td_residual (discount : R) (rewards values next_values : t3) :
  length values = length rewards -> length next_values = length rewards ->
  length (td_residual discount rewards values next_values) = length rewards.
Proof.
  intros Hv Hnv. unfold td_residual, zip3, map3.
  rewrite !length_zip_with, length_map. lia.
Qed.


(** *** The normalised advantages *)

Lemma flatten2_map2 (f : R -> R) (x : t2) :
  flatten2 (map2 f x) = List.map f (flatten2 x).
Proof.
  unfold flatten2, map2, map1. induction x as [|row x IH]; simpl; [reflexivity|].
  rewrite IH, List.map_app. reflexivity.
Qed.

Lemma flatten3_map3 (f : R -> R) (x : t3) :
  flatten3 (map3 f x) = List.map f (flatten3 x).
Proof.
  unfold flatten3, map3. induction x as [|row x IH]; simpl; [reflexivity|].
  rewrite IH, flatten2_map2, List.map_app. reflexivity.
Qed.

Lemma sum1_affine (m c : R) (l : t1) :
  sum1 (List.map (fun a => (a - m) / c) l)
  = (sum1 l - INR (length l) * m) / c.
Proof.
  unfold sum1. induction l as [|a l IH].
  - simpl. unfold Rdiv. ring.
  - change (length (a :: l)) with (S (length l)). rewrite S_INR.
    simpl. rewrite IH. unfold Rdiv. ring.
Qed.

(** X13.  The advantages that [update_net] writes to memory are
    centred: whenever there are at least two of them their sum, and so
    their mean, is zero; and the normalisation is a strictly increasing
    map applied to every entry, so it keeps their order. *)
Theorem normalize_advantages_centred (advantages : t3) :
  (2 <= length (flatten3 advantages))%nat ->
  sum1 (flatten3 (normalize_advantages advantages)) = 0
  /\ mean (flatten3 (normalize_advantages advantages)) = 0
  /\ exists f, (forall a b, a < b -> f a < f b)
               /\ normalize_advantages advantages = map3 f advantages.
Proof.
  intros Hn. unfold normalize_advantages.
  set (flat := flatten3 advantages) in *.
  set (c := std flat + 1e-8).
  assert (Hc : 0 < c).
  { unfold c, std. pose proof (sqrt_pos
      (sum1 (map1 (fun a => (a - mean flat) * (a - mean flat)) flat)
       / (INR (length flat) - 1))). lra. }
  assert (Hsum : sum1 (flatten3 (map3 (fun a => (a - mean flat) / c) advantages)) = 0).
  { rewrite flatten3_map3. fold flat. rewrite sum1_affine. unfold mean.
    assert (Hlen : INR (length flat) <> 0).
    { apply not_0_INR. lia. }
    field. split; [exact Hlen|lra]. }
  split; [exact Hsum|]. split.
  - unfold mean at 1. rewrite Hsum. unfold Rdiv. ring.
  - exists (fun a => (a - mean flat) / c). split; [|reflexivity].
    intros a b Hab. unfold Rdiv. apply Rmult_lt_compat_r; [|lra].
    apply Rinv_0_lt_compat, Hc.
Qed.

(** *** The losses of one mini-batch *)

(** The clipped surrogate loss (lines 280 to 285); [ratio_clip] is the
    attribute [_ratio_clip]. *)
Definition ppo_ratio (log_prob_now sampled_log_prob : t2) : t2 :=
  map2 exp (zip2 Rminus log_prob_now sampled_log_prob).

Definition surrogate (sampled_advantages ratio : t2) : t2 :=
  zip2 Rmult sampled_advantages ratio.

Definition surrogate_clipped (ratio_clip : R) (sampled_advantages ratio : t2)
  : t2 :=
  zip2 Rmult sampled_advantages
    (map2 (clamp (1.0 - ratio_clip) (1.0 + ratio_clip)) ratio).

Definition policy_loss (ratio_clip : R)
    (sampled_advantages log_prob_now sampled_log_prob : t2) : R :=
  let ratio := ppo_ratio log_prob_now sampled_log_prob in
  - mean (flatten2
            (zip2 Rmin (surrogate sampled_advantages ratio)
               (surrogate_clipped ratio_clip sampled_advantages ratio))).

(** The value prediction, clipped around the stored value when
    [_clip_predicted_values] is set (lines 290 to 293). *)
Definition clip_predicted_values (clip : bool) (value_clip : R)
    (predicted_values sampled_values : t2) : t2 :=
  if clip
  then zip2 Rplus sampled_values
         (map2 (clamp (- value_clip) value_clip)
            (zip2 Rminus predicted_values sampled_values))
  else predicted_values.

Lemma sum1_le (x y : t1) :
  Forall2 Rle x y -> sum1 x <= sum1 y.
Proof.
  unfold sum1. induction 1 as [|a b x y Hab Hxy IH]; simpl; lra.
Qed.

Lemma flatten2_min_le (x y : t2) :
  Forall2 (fun r r' => length r = length r') x y ->
  Forall2 Rle (flatten2 (zip2 Rmin x y)) (flatten2 x).
Proof.
  unfold flatten2, zip2, zip1. induction 1 as [|r r' x y Hr Hxy IH]; simpl.
  - constructor.
  - apply Forall2_app; [|exact IH]. clear -Hr. revert r' Hr.
    induction r as [|a r IHr]; intros [|b r'] Hr; simpl in *;
      try discriminate; constructor.
    + apply Rmin_l.
    + apply IHr. congruence.
Qed.

Lemma zip2_same_rows (f g : R -> R -> R) (h : R -> R) (x y : t2) :
  Forall2 (fun r r' => length r = length r')
    (zip2 f x y) (zip2 g x (map2 h y)).
Proof.
  unfold zip2, zip1, map2, map1. revert y.
  induction x as [|r x IH]; intros [|r' y]; simpl; constructor.
  - rewrite !length_zip_with, length_map. reflexivity.
  - apply IH.
Qed.

Lemma mean_le (x y : t1) :
  Forall2 Rle x y -> mean x <= mean y.
Proof.
  intros Hxy. unfold mean. rewrite (Forall2_length _ _ _ Hxy).
  destruct (length y) as [|n] eqn:Hn.
  - apply Forall2_length in Hxy. rewrite Hn in Hxy.
    destruct x, y; try discriminate. simpl. lra.
  - unfold Rdiv. apply Rmult_le_compat_r; [|apply sum1_le, Hxy].
    left. apply Rinv_0_lt_compat. apply lt_0_INR. lia.
Qed.

Lemma zip2_mult_ones (e c : nat) (x y : t2) :
  shape2 e c x -> shape2 e c y ->
  zip2 Rmult x (map2 (fun _ => 1) y) = x.
Proof.
  intros Hx Hy. apply (zip2_absorb Rmult (fun b => b = 1) e c).
  - intros a b ->. ring.
  - exact Hx.
  - apply shape2_map2, Hy.
  - apply Forall_map2. reflexivity.
Qed.

Lemma zip2_min_same (x : t2) : zip2 Rmin x x = x.
Proof.
  unfold zip2, zip1. induction x as [|r x IH]; simpl; [reflexivity|].
  rewrite IH. f_equal. induction r as [|a r IHr]; simpl; [reflexivity|].
  rewrite IHr. f_equal. apply Rmin_left. lra.
Qed.

(** X14.  The clipped surrogate is pessimistic: the policy loss of a
    mini-batch is never below the loss of the unclipped surrogate
    [-mean(advantages * ratio)].  While the policy has not moved (the
    new log-probabilities equal the stored ones) and [ratio_clip] is not
    negative, the ratio is one and the loss is [-mean(advantages)]. *)
Theorem policy_loss_pessimistic (ratio_clip : R)
    (sampled_advantages log_prob_now sampled_log_prob : t2) (e c : nat) :
  - mean (flatten2
            (surrogate sampled_advantages
               (ppo_ratio log_prob_now sampled_log_prob)))
  <= policy_loss ratio_clip sampled_advantages log_prob_now sampled_log_prob
  /\ (0 <= ratio_clip ->
      shape2 e c sampled_advantages -> shape2 e c sampled_log_prob ->
      policy_loss ratio_clip sampled_advantages sampled_log_prob
        sampled_log_prob
      = - mean (flatten2 sampled_advantages)).
Proof.
  split.
  - unfold policy_loss. apply Ropp_le_contravar, mean_le.
    apply flatten2_min_le. unfold surrogate, surrogate_clipped.
    apply zip2_same_rows.
  - intros Hc Hadv Hlp. unfold policy_loss.
    assert (Hratio : ppo_ratio sampled_log_prob sampled_log_prob
                     = map2 (fun _ => 1) sampled_log_prob).
    { unfold ppo_ratio, zip2, zip1, map2, map1. clear.
      induction sampled_log_prob as [|r x IH]; simpl; [reflexivity|].
      rewrite IH. f_equal.
      induction r as [|a r IHr]; simpl; [reflexivity|].
      rewrite IHr. f_equal. rewrite Rminus_diag. apply exp_0. }
    rewrite Hratio. unfold surrogate, surrogate_clipped.
    rewrite map2_map2.
    replace (map2 (fun _ => clamp (1.0 - ratio_clip) (1.0 + ratio_clip) 1)
               sampled_log_prob)
      with (map2 (fun _ : R => 1) sampled_log_prob).
    + rewrite (zip2_mult_ones e c) by assumption.
      rewrite zip2_min_same. reflexivity.
    + unfold map2, map1. apply List.map_ext. intros r. apply List.map_ext.
      intros _. unfold clamp. rewrite Rmax_left by lra.
      rewrite Rmin_left by lra. reflexivity.
Qed.

(** X15.  With [_clip_predicted_values] set and a nonnegative
    [_value_clip], the value prediction that enters the value loss
    stays within [_value_clip] of the stored value, entry by entry; a
    prediction that is already that close is used as it is. *)
Theorem clip_predicted_values_near (value_clip : R)
    (predicted_values sampled_values : t2) (e c : nat) :
  0 <= value_clip ->
  shape2 e c predicted_values -> shape2 e c sampled_values ->
  Forall2 (Forall2 (fun p v => Rabs (p - v) <= value_clip))
    (clip_predicted_values true value_clip predicted_values sampled_values)
    sampled_values
  /\ (Forall2 (Forall2 (fun p v => Rabs (p - v) <= value_clip))
        predicted_values sampled_values ->
      clip_predicted_values true value_clip predicted_values sampled_values
      = predicted_values).
Proof.
  intros Hc [Hpe Hpc] [Hve Hvc].
  assert (Hlen : length predicted_values = length sampled_values) by congruence.
  clear Hpe Hve.
  unfold clip_predicted_values, zip2, zip1, map2, map1.
  split.
  - revert predicted_values Hlen Hpc.
    induction Hvc as [|v x Hv Hx IH]; intros [|p y] Hlen Hpc; simpl in *;
      try discriminate; constructor.
    + apply Forall_cons in Hpc as [Hp _].
      assert (Hl : length p = length v) by (cbn in Hv; congruence).
      clear -Hc Hl. revert p Hl.
      induction v as [|a v IHv]; intros [|b p] Hl; simpl in *;
        try discriminate; constructor.
      * replace (a + clamp (- value_clip) value_clip (b - a) - a)
          with (clamp (- value_clip) value_clip (b - a)) by ring.
        pose proof (ActorModels.clamp_bounds (- value_clip) value_clip (b - a))
          as Hb.
        apply Rabs_le. lra.
      * apply IHv. congruence.
    + apply Forall_cons in Hpc as [_ Hpc]. apply IH; [congruence|exact Hpc].
  - intros Hnear. clear Hlen Hpc Hvc.
    induction Hnear as [|p v y x Hpv Hyx IH]; simpl; [reflexivity|].
    rewrite IH. f_equal. clear -Hc Hpv.
    induction Hpv as [|b a p v Hba Hpv IHr]; simpl; [reflexivity|].
    rewrite IHr. f_equal.
    pose proof (Rle_abs (b - a)) as Hup.
    pose proof (Rle_abs (- (b - a))) as Hdown. rewrite Rabs_Ropp in Hdown.
    unfold clamp.
    rewrite Rmax_left by lra. rewrite Rmin_left by lra. ring.
Qed.

(** *** The shape of the style reward *)

Lemma exp_le (x y : R) : x <= y -> exp x <= exp y.
Proof.
  intros [Hlt | ->]; [left; apply exp_increasing, Hlt|right; reflexivity].
Qed.

Lemma ln_le_mono (x y : R) : 0 < x -> x <= y -> ln x <= ln y.
Proof.
  intros Hx [Hlt | ->]; [left; apply ln_increasing; assumption|right; reflexivity].
Qed.

(** X16.  The least-squares style reward, before scaling, lies between
    its floor [0.0001] and one; it is one exactly at the logit 1 that
    the discriminator is trained to give to reference motion, it is
    symmetric about that logit, so a logit above 1 earns less again,
    and it is at the floor for every logit at most -1 (the target for
    the agent's own samples) or at least 3. *)
Theorem least_square_reward_peak :
  (forall logit, 0.0001 <= least_square_reward logit <= 1)
  /\ (forall logit, least_square_reward logit = 1 <-> logit = 1)
  /\ (forall d, least_square_reward (1 + d) = least_square_reward (1 - d))
  /\ (forall logit, logit <= -1 \/ 3 <= logit ->
        least_square_reward logit = 0.0001).
Proof.
  unfold least_square_reward, Rsqr. repeat split.
  - apply Rmax_r.
  - apply Rmax_lub; [|lra].
    pose proof (Rle_0_sqr (1 - logit)) as Hsq. unfold Rsqr in Hsq. lra.
  - intros Heq.
    assert (H1 : (1 - logit) * (1 - logit) = 0).
    { revert Heq. unfold Rmax.
      destruct (Rle_dec (1 - 0.25 * ((1 - logit) * (1 - logit))) 0.0001);
        lra. }
    apply Rmult_integral in H1. lra.
  - intros ->. replace (1 - 1) with 0 by ring.
    rewrite Rmax_left by lra. ring.
  - intros d. f_equal. ring.
  - intros logit Hl. apply Rmax_right.
    assert (Hsq : 4 <= (1 - logit) * (1 - logit)) by (destruct Hl; nra).
    lra.
Qed.


End Agent.

(** *** A one-step, one-environment agent

    The memory holds one row; the policy always proposes the latent
    [(3, 4)]; the low-level controller answers with the latent it is
    given; the discriminators return their input; the value
    preprocessor is the identity. *)

Definition toy_cfg : hyper_parameters := {|
  num_envs := 1;
  _task_related_state_size := 1;
  _task_reward_weight := 1;
  _style_reward_weight := 0;
  _demo_style_reward_weight := 0;
  _rewards_shaper := None;
  _discount := 1;
  _td_lambda := 1;
  _least_square_discriminator := true;
  _discriminator_reward_scale := 2;
  llc_least_square_discriminator := false;
  llc_discriminator_reward_scale := 2;
|}.

Definition toy_memory : gmap string t3 :=
  list_to_map
    [("rewards"%string, [[[1]]]); ("disc_rewards"%string, [[[0]]]);
     ("amp_states"%string, [[[0]]]); ("values"%string, [[[0]]]);
     ("next_values"%string, [[[0]]]); ("terminated"%string, [[[0]]])].

Definition toy_agent : agent unit unit := {|
  cfg := toy_cfg;
  memory := toy_memory;
  value_preprocessor_state := tt;
  tracking := tt;
  _current_states := None;
  _current_log_prob := None;
  _omega_actions_for_llc := None;
  pre_states := None;
  llc_cum_rew := zeros_n_1 1;
  llc_cum_disc_rew := zeros_n_1 1;
  need_reset := zeros_n_1 1;
  need_terminate := zeros_n_1 1;
|}.

Definition toy_policy (latent : t1) (states : t2) (deterministic : bool)
    (rng : unit) : t2 * option t2 :=
  ([latent], None).

Definition toy_llc_act (states : t2) (deterministic : bool) (z : t2)
    (rng : unit) : t2 * option t2 :=
  (z, None).

Definition identity_preprocessor (vp : unit) (x : t3) : t3 * unit := (x, vp).

(** A value preprocessor that rescales by one half, as a standard
    scaler whose running deviation is two does. *)
Definition halving_preprocessor (vp : unit) (x : t3) : t3 * unit :=
  (map3 (fun a => a / 2) x, vp).

Lemma toy_memory_get :
  get_tensor_by_name toy_memory "rewards" = [[[1]]]
  /\ get_tensor_by_name toy_memory "disc_rewards" = [[[0]]]
  /\ get_tensor_by_name toy_memory "amp_states" = [[[0]]]
  /\ get_tensor_by_name toy_memory "values" = [[[0]]]
  /\ get_tensor_by_name toy_memory "next_values" = [[[0]]]
  /\ get_tensor_by_name toy_memory "terminated" = [[[0]]].
Proof. repeat split; reflexivity. Qed.

Lemma toy_states_wide :
  Forall (fun st => (_task_related_state_size (cfg unit unit toy_agent)
                     <= length st)%nat)
    (act_states unit unit toy_agent [[1; 2; 3]]).
Proof. repeat constructor. Qed.

Lemma norm_3_4 : norm [3; 4] = 5.
Proof.
  unfold norm, map1, sum1. simpl.
  replace (3 * 3 + (4 * 4 + 0)) with (5 * 5) by ring.
  apply sqrt_square. lra.
Qed.

Lemma act_low_level_witness :
  (act unit unit unit (toy_policy [3; 4]) (fun x => x) toy_llc_act toy_agent
     [[1; 2; 3]] false tt tt).2
  = (normalize [[3; 4]], None)
  /\ Forall (fun v => norm v = 1)
       (act_latents unit unit unit (toy_policy [3; 4]) (fun x => x) toy_agent
          [[1; 2; 3]] false tt).
Proof.
  pose proof (act_low_level unit unit unit (toy_policy [3; 4]) (fun x => x)
                toy_llc_act toy_agent [[1; 2; 3]] false tt tt
                toy_states_wide) as (Hz & Hact & _ & Hunit).
  split.
  - rewrite Hact, Hz. reflexivity.
  - apply Hunit. simpl. constructor; [|constructor].
    rewrite norm_3_4. unfold normalize_eps. lra.
Defined.

(** The claim as stated fails for the zero latent (and for any latent
    shorter than [1e-12]): [normalize] divides by [max(norm, 1e-12)],
    so the zero latent reaches the controller unchanged, with norm 0. *)
Lemma norm_normalize1_zero : norm (normalize1 [0; 0]) = 0.
Proof.
  unfold normalize1, norm at 1, map1, sum1. simpl.
  set (c := Rmax (norm [0; 0]) normalize_eps).
  replace (0 / c * (0 / c) + (0 / c * (0 / c) + 0)) with 0
    by (unfold Rdiv; ring).
  apply sqrt_0.
Qed.

Lemma act_zero_latent_not_unit :
  (act unit unit unit (toy_policy [0; 0]) (fun x => x) toy_llc_act toy_agent
     [[1; 2; 3]] false tt tt).2.1
  = act_latents unit unit unit (toy_policy [0; 0]) (fun x => x) toy_agent
      [[1; 2; 3]] false tt
  /\ ~ Forall (fun v => norm v = 1)
         (act_latents unit unit unit (toy_policy [0; 0]) (fun x => x)
            toy_agent [[1; 2; 3]] false tt).
Proof.
  split; [reflexivity|].
  unfold act_latents, toy_policy. simpl. intros Hall.
  apply Forall_cons in Hall as [Hnorm _].
  rewrite norm_normalize1_zero in Hnorm. lra.
Qed.

(** The advantage of the single stored step. *)
Definition toy_advantage : R :=
  1 * 1 + 0 * 0 + 0 * (least_square_reward 0 * 2) - 0
  + 1 * (0 + 1 * logical_not 0 * 0).

Lemma toy_advantage_eq : toy_advantage = 1.
Proof. unfold toy_advantage. ring. Qed.

Lemma toy_combined_rewards :
  combined_rewards unit unit (fun x => x) (fun x => x) toy_agent
  = [[[1 * 1 + 0 * 0 + 0 * (least_square_reward 0 * 2)]]].
Proof.
  destruct toy_memory_get as (Hr & Hd & Ha & Hv & Hnv & Ht).
  unfold combined_rewards, demo_style_rewards.
  change (memory unit unit toy_agent) with toy_memory.
  rewrite Hr, Hd, Ha. reflexivity.
Qed.

Lemma toy_compute_advantages :
  compute_advantages unit unit (fun x => x) (fun x => x) toy_agent
  = Some [[[toy_advantage]]].
Proof.
  destruct toy_memory_get as (Hr & Hd & Ha & Hv & Hnv & Ht).
  unfold compute_advantages, not_dones. rewrite toy_combined_rewards.
  change (memory unit unit toy_agent) with toy_memory.
  rewrite Hv, Hnv, Ht. reflexivity.
Qed.




(** *** One step of the toy agent, stored *)

Definition toy_infos : gmap string t2 := {["amp_obs"%string := [[0]]]}.

(** A value network with one output per state. *)
Definition toy_value (states : t2) : t2 := List.map (fun _ => [5]) states.

Definition toy_base_store_transition (tracking : unit)
    (states actions next_states rewards terminated truncated : t2)
    (infos : gmap string t2) : unit := tracking.

Lemma store_transition_after_act_witness :
  exists ag' samples,
    store_transition unit unit toy_value (fun x => x) (fun _ x => x)
      (fun x => x) (fun x => x) toy_base_store_transition
      (act unit unit unit (toy_policy [3; 4]) (fun x => x) toy_llc_act
         toy_agent [[1; 2; 3]] false tt tt).1
      [[1; 2; 3]] [[3; 4]] [[1; 2; 3]] [[1]] [[0]] [[0]] toy_infos
    = Some ag'
    /\ memory unit unit ag' = add_samples toy_memory samples
    /\ samples !! "omega_actions"%string = Some [[3; 4]]
    /\ samples !! "log_prob"%string = None.
Proof.
  destruct (store_transition_after_act unit unit unit (toy_policy [3; 4])
              toy_value (fun x => x) (fun _ x => x) toy_llc_act
              (fun x => x) (fun x => x) toy_base_store_transition
              toy_agent [[1; 2; 3]] false tt tt
              [[1; 2; 3]] [[3; 4]] [[1; 2; 3]] [[1]] [[0]] [[0]] [[0]]
              toy_infos)
    as (ag' & samples & Hrun & Hmem & Homega & Hlog & _).
  - reflexivity.
  - exists ag', samples.
    split; [exact Hrun|]. split; [exact Hmem|].
    split; [exact Homega|exact Hlog].
Defined.

Lemma next_values_unmasked_after_act_witness :
  exists ag' samples,
    store_transition unit unit toy_value (fun x => x) (fun _ x => x)
      (fun x => x) (fun x => x) toy_base_store_transition
      (act unit unit unit (toy_policy [3; 4]) (fun x => x) toy_llc_act
         toy_agent [[1; 2; 3]] false tt tt).1
      [[1; 2; 3]] [[3; 4]] [[1; 2; 3]] [[1]] [[0]] [[0]] toy_infos
    = Some ag'
    /\ memory unit unit ag' = add_samples toy_memory samples
    /\ samples !! "next_values"%string = Some [[5]].
Proof.
  destruct (next_values_unmasked_after_act unit unit unit (toy_policy [3; 4])
              toy_value (fun x => x) (fun _ x => x) toy_llc_act
              (fun x => x) (fun x => x) toy_base_store_transition
              toy_agent [[1; 2; 3]] false tt tt
              [[1; 2; 3]] [[3; 4]] [[1; 2; 3]] [[1]] [[0]] [[0]] [[0]]
              toy_infos)
    as (_ & ag' & samples & Hrun & Hmem & Hnext).
  - reflexivity.
  - reflexivity.
  - repeat constructor.
  - exists ag', samples.
    split; [exact Hrun|]. split; [exact Hmem|exact Hnext].
Defined.

(** The toy agent with its single stored step terminated. *)
Definition toy_memory_terminated : gmap string t3 :=
  list_to_map
    [("rewards"%string, [[[1]]]); ("disc_rewards"%string, [[[0]]]);
     ("amp_states"%string, [[[0]]]); ("values"%string, [[[0]]]);
     ("next_values"%string, [[[0]]]); ("terminated"%string, [[[1]]])].

Definition toy_agent_terminated : agent unit unit := {|
  cfg := toy_cfg;
  memory := toy_memory_terminated;
  value_preprocessor_state := tt;
  tracking := tt;
  _current_states := None;
  _current_log_prob := None;
  _omega_actions_for_llc := None;
  pre_states := None;
  llc_cum_rew := zeros_n_1 1;
  llc_cum_disc_rew := zeros_n_1 1;
  need_reset := zeros_n_1 1;
  need_terminate := zeros_n_1 1;
|}.

Lemma toy_memory_terminated_get :
  get_tensor_by_name toy_memory_terminated "rewards" = [[[1]]]
  /\ get_tensor_by_name toy_memory_terminated "disc_rewards" = [[[0]]]
  /\ get_tensor_by_name toy_memory_terminated "amp_states" = [[[0]]]
  /\ get_tensor_by_name toy_memory_terminated "values" = [[[0]]]
  /\ get_tensor_by_name toy_memory_terminated "next_values" = [[[0]]]
  /\ get_tensor_by_name toy_memory_terminated "terminated" = [[[1]]].
Proof. repeat split; reflexivity. Qed.

Lemma toy_terminated_combined_rewards :
  combined_rewards unit unit (fun x => x) (fun x => x) toy_agent_terminated
  = [[[1 * 1 + 0 * 0 + 0 * (least_square_reward 0 * 2)]]].
Proof.
  destruct toy_memory_terminated_get as (Hr & Hd & Ha & Hv & Hnv & Ht).
  unfold combined_rewards, demo_style_rewards.
  change (memory unit unit toy_agent_terminated) with toy_memory_terminated.
  rewrite Hr, Hd, Ha. reflexivity.
Qed.

Lemma shape2_single (a : R) : shape2 1 1 [[a]].
Proof. split; [reflexivity|repeat constructor]. Qed.


Lemma normalize_advantages_centred_witness :
  sum1 (flatten3 (normalize_advantages [[[1]; [3]]])) = 0.
Proof.
  destruct (normalize_advantages_centred [[[1]; [3]]]) as [Hsum _].
  - simpl. lia.
  - exact Hsum.
Defined.

Lemma clip_predicted_values_near_witness :
  Forall2 (Forall2 (fun p v => Rabs (p - v) <= 1))
    (clip_predicted_values true 1 [[5]] [[2]]) [[2]].
Proof.
  destruct (clip_predicted_values_near 1 [[5]] [[2]] 1 1) as [Hnear _].
  - lra.
  - apply shape2_single.
  - apply shape2_single.
  - exact Hnear.
Defined.

End HOTUHLMM.

(* ================================================================== *)
(** ** [devices/zed/record.py] *)
(* ================================================================== *)

Module ZedRecord.

(** *** The file system

    A path names a directory or a file.  [os.path.exists] asks whether
    the path is bound; [os.mkdir] creates one directory and raises when
    the path is bound already, or when the directory that is to contain
    it is missing or is a file.  A path with no ["/"] in it, or directly
    under the root, has a parent that always exists. *)
Inductive entry : Type := Dir | File.

Abbreviation file_system := (gmap string entry).

Inductive exn : Type :=
| AlreadySomeFiles (path : string)
| FileExistsError (path : string)
| FileNotFoundError (path : string)
| NotADirectoryError (path : string)
| IndexError.

(** [os.path.dirname]: what stands before the last ["/"], when there is
    one. *)
Fixpoint dirname (path : string) : option string :=
  match path with
  | EmptyString => None
  | String c rest =>
      match dirname rest with
      | Some d => Some (String c d)
      | None => if Ascii.eqb c "/"%char then Some EmptyString else None
      end
  end.

Definition exists_ (fs : file_system) (path : string) : bool :=
  bool_decide (is_Some (fs !! path)).

Definition mkdir (fs : file_system) (path : string) : exn + file_system :=
  match fs !! path with
  | Some _ => inl (FileExistsError path)
  | None =>
      match dirname path with
      | None | Some EmptyString => inr (<[path := Dir]> fs)
      | Some parent =>
          match fs !! parent with
          | Some Dir => inr (<[path := Dir]> fs)
          | Some File => inl (NotADirectoryError parent)
          | None => inl (FileNotFoundError path)
          end
      end
  end.

(** *** Cameras

    What the ZED SDK answers is part of the input: for each connected
    camera, whether [open] succeeds and whether [enable_recording]
    does. *)
Record camera : Type := {
  serial_number : nat;
  open_succeeds : bool;
  recording_succeeds : bool;
}.

(** What a call does, in order. *)
Inductive event : Type :=
| EvMkdir (path : string)
| EvLogFile (path : string)
| EvOpenCamera (serial : nat) (opened : bool)
| EvStartThread (index : nat).

(** How a call ends: with an exception, with ["FINISH"], or never (a
    recording thread loops until the process is interrupted, and [join]
    waits for it). *)
Inductive outcome : Type :=
| Raised (e : exn)
| Finished
| Recording.

(** ['{}/{}'.format(root_dir, exp_name)] *)
Definition exp_path (root_dir exp_name : string) : string :=
  root_dir +:+ "/" +:+ exp_name.

(** The loop that lists and opens the cameras. *)
Definition open_cameras (cameras : list camera) : list event :=
  List.map (fun cam => EvOpenCamera (serial_number cam) (open_succeeds cam))
    cameras.

(** The loop that starts the threads: [thread_list] holds one thread per
    opened camera, and is indexed by the camera's position in
    [zed_list]. *)
Fixpoint start_threads (cameras : list camera) (index n_threads : nat)
  : list event * option exn :=
  match cameras with
  | [] => ([], None)
  | cam :: cameras =>
      if open_succeeds cam then
        if decide (index < S n_threads)%nat then
          let '(events, e) := start_threads cameras (S index) (S n_threads) in
          (EvStartThread index :: events, e)
        else ([], Some IndexError)
      else start_threads cameras (S index) n_threads
  end.

(** [grab_run] leaves its loop only when [enable_recording] fails. *)
Definition some_thread_records (cameras : list camera) : bool :=
  existsb (fun cam => open_succeeds cam && recording_succeeds cam) cameras.

(** [record] *)
Definition record (root_dir exp_name : string) (cameras : list camera)
    (fs : file_system) : file_system * list event * outcome :=
  let path := exp_path root_dir exp_name in
  if exists_ fs path then (fs, [], Raised (AlreadySomeFiles path))
  else
    match mkdir fs path with
    | inl e => (fs, [], Raised e)
    | inr fs =>
        let log := path +:+ "/parameter.log" in
        let fs := <[log := File]> fs in
        let opened := open_cameras cameras in
        let '(started, e) := start_threads cameras 0 0 in
        let events := EvMkdir path :: EvLogFile log :: opened ++ started in
        match e with
        | Some e => (fs, events, Raised e)
        | None =>
            if some_thread_records cameras then (fs, events, Recording)
            else (fs, events, Finished)
        end
    end.

(** An event opens a camera. *)
Definition opens_camera (ev : event) : Prop :=
  match ev with EvOpenCamera _ _ => True | _ => False end.

(** The claim in its own words, for one call: an exception and no new
    directory when the path exists; otherwise the directory is
    created. *)
Definition creates_unless_exists (root_dir exp_name : string)
    (cameras : list camera) (fs : file_system) : Prop :=
  let path := exp_path root_dir exp_name in
  let '(fs', events, result) := record root_dir exp_name cameras fs in
  if exists_ fs path then fs' = fs /\ exists e, result = Raised e
  else fs' !! path = Some Dir.

(** The directory that is to contain [path] is there. *)
Definition parent_ready (fs : file_system) (path : string) : Prop :=
  match dirname path with
  | None | Some EmptyString => True
  | Some parent => fs !! parent = Some Dir
  end.

Lemma exists_true (fs : file_system) (path : string) :
  is_Some (fs !! path) -> exists_ fs path = true.
Proof. intros Hsome. unfold exists_. apply bool_decide_eq_true_2, Hsome. Qed.

Lemma exists_false (fs : file_system) (path : string) :
  fs !! path = None -> exists_ fs path = false.
Proof.
  intros Hnone. unfold exists_. apply bool_decide_eq_false_2.
  rewrite Hnone. intros [x Hx]. discriminate.
Qed.

Lemma mkdir_ready (fs : file_system) (path : string) :
  fs !! path = None -> parent_ready fs path ->
  mkdir fs path = inr (<[path := Dir]> fs).
Proof.
  intros Hnone Hparent. unfold mkdir, parent_ready in *. rewrite Hnone.
  destruct (dirname path) as [[|c parent]|]; try reflexivity.
  rewrite Hparent. reflexivity.
Qed.

Lemma mkdir_not_ready (fs : file_system) (path : string) :
  fs !! path = None -> ~ parent_ready fs path ->
  exists e, mkdir fs path = inl e.
Proof.
  intros Hnone Hparent. unfold mkdir, parent_ready in *. rewrite Hnone.
  destruct (dirname path) as [[|c parent]|]; try (exfalso; apply Hparent; exact I).
  destruct (fs !! String c parent) as [[|]|]; eauto.
  exfalso. apply Hparent. reflexivity.
Qed.

Lemma append_nonempty_ne (s t : string) : t <> EmptyString -> s +:+ t <> s.
Proof.
  intros Ht. induction s as [|c s IH]; simpl.
  - exact Ht.
  - intros Heq. injection Heq as Heq. exact (IH Heq).
Qed.

Lemma log_path_ne (path : string) : path +:+ "/parameter.log" <> path.
Proof. apply append_nonempty_ne. discriminate. Qed.

Lemma record_exists (root_dir exp_name : string) (cameras : list camera)
    (fs : file_system) :
  is_Some (fs !! exp_path root_dir exp_name) ->
  record root_dir exp_name cameras fs
  = (fs, [], Raised (AlreadySomeFiles (exp_path root_dir exp_name))).
Proof. intros Hsome. unfold record. rewrite exists_true by exact Hsome. reflexivity. Qed.

Lemma record_created (root_dir exp_name : string) (cameras : list camera)
    (fs : file_system) :
  let path := exp_path root_dir exp_name in
  fs !! path = None -> parent_ready fs path ->
  exists events result,
    record root_dir exp_name cameras fs
    = (<[path +:+ "/parameter.log" := File]> (<[path := Dir]> fs),
       EvMkdir path :: EvLogFile (path +:+ "/parameter.log")
         :: open_cameras cameras ++ events,
       result).
Proof.
  intros path Hnone Hparent. unfold record. fold path.
  rewrite exists_false by exact Hnone.
  rewrite mkdir_ready by assumption.
  destruct (start_threads cameras 0 0) as [started [e|]].
  - eexists _, _. reflexivity.
  - destruct (some_thread_records cameras); eexists _, _; reflexivity.
Qed.


(** A data directory with one camera attached. *)
Definition data_dir : file_system := {["/data"%string := Dir]}.
Definition one_camera : list camera :=
  [{| serial_number := 7; open_succeeds := true; recording_succeeds := true |}].



(** *** Starting the threads

    [thread_list] gets a thread for every opened camera, but is indexed
    by the position of the camera in [zed_list]. *)

(** Some camera that did not open stands before one that did. *)
Fixpoint unopened_before_opened (cameras : list camera) : bool :=
  match cameras with
  | [] => false
  | cam :: cameras =>
      if open_succeeds cam then unopened_before_opened cameras
      else existsb open_succeeds cameras
  end.

Lemma start_threads_behind (cameras : list camera) (index n_threads : nat) :
  (n_threads < index)%nat ->
  (start_threads cameras index n_threads).2
  = if existsb open_succeeds cameras then Some IndexError else None.
Proof.
  revert index. induction cameras as [|cam cameras IH]; intros index Hlt;
    [reflexivity|].
  cbn [start_threads existsb]. destruct (open_succeeds cam); cbn [orb].
  - rewrite decide_False by lia. reflexivity.
  - apply IH. lia.
Qed.

Lemma start_threads_level (cameras : list camera) (n : nat) :
  (start_threads cameras n n).2
  = if unopened_before_opened cameras then Some IndexError else None.
Proof.
  revert n. induction cameras as [|cam cameras IH]; intros n; [reflexivity|].
  cbn [start_threads unopened_before_opened]. destruct (open_succeeds cam).
  - rewrite decide_True by lia. specialize (IH (S n)).
    destruct (start_threads cameras (S n) (S n)) as [events e]. exact IH.
  - apply start_threads_behind. lia.
Qed.

Lemma existsb_open_lookup (cameras : list camera) :
  existsb open_succeeds cameras = true
  <-> exists j cj, cameras !! j = Some cj /\ open_succeeds cj = true.
Proof.
  rewrite existsb_exists. split.
  - intros (cj & Hin & Hopen). apply list_elem_of_In in Hin.
    apply list_elem_of_lookup_1 in Hin as [j Hj]. eauto.
  - intros (j & cj & Hj & Hopen). exists cj. split; [|exact Hopen].
    apply list_elem_of_In. eapply list_elem_of_lookup_2, Hj.
Qed.

Lemma unopened_before_opened_spec (cameras : list camera) :
  unopened_before_opened cameras = true
  <-> exists i j ci cj,
        (i < j)%nat
        /\ cameras !! i = Some ci /\ open_succeeds ci = false
        /\ cameras !! j = Some cj /\ open_succeeds cj = true.
Proof.
  induction cameras as [|cam cameras IH]; cbn [unopened_before_opened].
  - split; [discriminate|]. intros (i & j & ci & cj & _ & Hi & _).
    rewrite lookup_nil in Hi. discriminate.
  - destruct (open_succeeds cam) eqn:Hcam.
    + rewrite IH. split.
      * intros (i & j & ci & cj & Hlt & Hi & Hci & Hj & Hcj).
        exists (S i), (S j), ci, cj. repeat split; try assumption. lia.
      * intros (i & j & ci & cj & Hlt & Hi & Hci & Hj & Hcj).
        destruct i as [|i].
        -- injection Hi as <-. congruence.
        -- destruct j as [|j]; [lia|].
           exists i, j, ci, cj. repeat split; try assumption. lia.
    + rewrite existsb_open_lookup. split.
      * intros (j & cj & Hj & Hcj).
        exists 0%nat, (S j), cam, cj. repeat split; try assumption. lia.
      * intros (i & j & ci & cj & Hlt & Hi & Hci & Hj & Hcj).
        destruct j as [|j]; [lia|]. exists j, cj. split; assumption.
Qed.


(** Two cameras, of which only the second opens. *)
Definition second_camera_only : list camera :=
  [{| serial_number := 7; open_succeeds := false; recording_succeeds := false |};
   {| serial_number := 8; open_succeeds := true; recording_succeeds := true |}].


End ZedRecord.

(* ================================================================== *)
(** ** The pose library, as far as the embedded scripts use it *)
(* ================================================================== *)

Module Poselib.

(** A position and a rotation quaternion ([x, y, z, w]). *)
Abbreviation vec3 := (R * R * R)%type.
Abbreviation quat := (R * R * R * R)%type.

Definition v3_add (a b : vec3) : vec3 :=
  let '(ax, ay, az) := a in let '(bx, b_y, bz) := b in
  (ax + bx, ay + b_y, az + bz).
Definition v3_sub (a b : vec3) : vec3 :=
  let '(ax, ay, az) := a in let '(bx, b_y, bz) := b in
  (ax - bx, ay - b_y, az - bz).
Definition v3_neg (a : vec3) : vec3 :=
  let '(ax, ay, az) := a in (- ax, - ay, - az).
Definition v3_mul (a b : vec3) : vec3 :=
  let '(ax, ay, az) := a in let '(bx, b_y, bz) := b in
  (ax * bx, ay * b_y, az * bz).
Definition v3_div (a : vec3) (c : R) : vec3 :=
  let '(ax, ay, az) := a in (ax / c, ay / c, az / c).
Definition v3_sum (a : vec3) : R := let '(ax, ay, az) := a in ax + ay + az.
Definition v3_norm (a : vec3) : R :=
  let '(ax, ay, az) := a in sqrt (ax * ax + ay * ay + az * az).
Definition v3_y (a : vec3) : R := a.1.2.
Definition v3_z (a : vec3) : R := a.2.

(** [t[2] += dz] *)
Definition add_z (t : vec3) (dz : R) : vec3 :=
  let '(x, y, z) := t in (x, y, z + dz).

(** A skeleton tree: the index of each named joint, the parent of each
    joint ([-1] for the root) and its offset from the parent. *)
Record SkeletonTree : Type := {
  _node_indices : gmap string nat;
  parent_indices : list Z;
  local_translation : list vec3;
}.

(** A motion: per frame, the local rotation of every joint and the
    translation of the root; the frame rate. *)
Record SkeletonMotion : Type := {
  skeleton_tree : SkeletonTree;
  local_rotation : list (list quat);
  root_translation : list vec3;
  fps : R;
}.

(** *** The usual quaternion operations

    [rotation3d.py] is not among the embedded sources, so the scripts
    are embedded over arbitrary [quat_mul], [quat_rotate],
    [quat_from_angle_axis] and [quat_identity].  The usual ones, which
    the examples use: the Hamilton product, the rotation of a vector,
    the quaternion of an angle (in radians, or in degrees) about an
    axis, and the unit. *)
Definition std_quat_mul (a b : quat) : quat :=
  let '(x1, y1, z1, w1) := a in
  let '(x2, y2, z2, w2) := b in
  (w1 * x2 + x1 * w2 + y1 * z2 - z1 * y2,
   w1 * y2 - x1 * z2 + y1 * w2 + z1 * x2,
   w1 * z2 + x1 * y2 - y1 * x2 + z1 * w2,
   w1 * w2 - x1 * x2 - y1 * y2 - z1 * z2).

Definition std_quat_rotate (q : quat) (v : vec3) : vec3 :=
  let '(x, y, z, w) := q in
  let '(vx, vy, vz) := v in
  let tx := 2 * (y * vz - z * vy) in
  let ty := 2 * (z * vx - x * vz) in
  let tz := 2 * (x * vy - y * vx) in
  (vx + w * tx + (y * tz - z * ty),
   vy + w * ty + (z * tx - x * tz),
   vz + w * tz + (x * ty - y * tx)).

Definition std_quat_from_angle_axis (angle : R) (axis : vec3) (degree : bool)
  : quat :=
  let angle := if degree then angle / 180 * PI else angle in
  let '(ax, ay, az) := v3_div axis (v3_norm axis) in
  (ax * sin (angle / 2), ay * sin (angle / 2), az * sin (angle / 2),
   cos (angle / 2)).

Definition std_quat_identity : quat := (0, 0, 0, 1).

(** *** Forward kinematics

    The global position of every joint of one frame: the root sits at
    the root translation, every other joint at its parent's position
    plus its own offset turned by the parent's global rotation.  Joints
    are visited in index order, parents first. *)
Section ForwardKinematics.

Variable quat_mul : quat -> quat -> quat.
Variable quat_rotate : quat -> vec3 -> vec3.

Definition fk_step (done : list (quat * vec3)) (node : Z * quat * vec3)
  : list (quat * vec3) :=
  let '(parent, r, t) := node in
  if (parent <? 0)%Z then done ++ [(r, t)]
  else
    match done !! Z.to_nat parent with
    | Some (gr, gt) => done ++ [(quat_mul gr r, v3_add gt (quat_rotate gr t))]
    | None => done ++ [(r, t)]
    end.

(** The nodes of one frame; the offset of joint 0 is the root
    translation. *)
Definition fk_nodes (tree : SkeletonTree) (rotations : list quat)
    (root_t : vec3) : list (Z * quat * vec3) :=
  zip (zip (parent_indices tree) rotations)
      (<[0%nat := root_t]> (local_translation tree)).

Definition fk (tree : SkeletonTree) (rotations : list quat) (root_t : vec3)
  : list vec3 :=
  (fold_left fk_step (fk_nodes tree rotations root_t) []).*2.

(** Joint 0 is the only root and every other joint comes after its
    parent. *)
Definition wf_parents (parents : list Z) : Prop :=
  forall k p, parents !! k = Some p ->
    (k = 0%nat /\ (p < 0)%Z) \/ ((0 < k)%nat /\ (0 <= p < Z.of_nat k)%Z).

Definition shift_z (dz : R) (g : quat * vec3) : quat * vec3 :=
  (g.1, add_z g.2 dz).

Lemma add_z_v3_add (a b : vec3) (dz : R) :
  v3_add (add_z a dz) b = add_z (v3_add a b) dz.
Proof.
  destruct a as [[ax ay] az], b as [[bx b_y] bz]. simpl. f_equal. ring.
Qed.

Lemma fk_fold_shift (dz : R) (nodes : list (Z * quat * vec3)) :
  forall done,
    (forall k p r t, nodes !! k = Some (p, r, t) ->
       (0 <= p < Z.of_nat (length done + k))%Z) ->
    fold_left fk_step nodes (List.map (shift_z dz) done)
    = List.map (shift_z dz) (fold_left fk_step nodes done).
Proof.
  induction nodes as [|[[p r] t] nodes IH]; intros done Hwf; [reflexivity|].
  simpl.
  assert (Hp : (0 <= p < Z.of_nat (length done))%Z).
  { specialize (Hwf 0%nat p r t eq_refl). lia. }
  destruct (Z.ltb_spec p 0) as [Hneg|_]; [lia|].
  destruct (lookup_lt_is_Some_2 done (Z.to_nat p)) as [[gr gt] Hg]; [lia|].
  rewrite lookup_map, Hg. simpl.
  rewrite add_z_v3_add.
  replace (List.map (shift_z dz) done
           ++ [(quat_mul gr r, add_z (v3_add gt (quat_rotate gr t)) dz)])
    with (List.map (shift_z dz)
            (done ++ [(quat_mul gr r, v3_add gt (quat_rotate gr t))]))
    by (rewrite List.map_app; reflexivity).
  apply IH. intros k p' r' t' Hk.
  specialize (Hwf (S k) p' r' t' Hk). rewrite length_app. simpl. lia.
Qed.

(** Moving the root up by [dz] moves every joint up by [dz]. *)
Lemma fk_add_z (tree : SkeletonTree) (rotations : list quat) (root_t : vec3)
    (dz : R) :
  wf_parents (parent_indices tree) ->
  fk tree rotations (add_z root_t dz)
  = List.map (fun p => add_z p dz) (fk tree rotations root_t).
Proof.
  intros Hwf. unfold fk, fk_nodes.
  destruct (parent_indices tree) as [|p0 parents] eqn:Hpar; [reflexivity|].
  destruct rotations as [|r0 rotations]; [reflexivity|].
  destruct (local_translation tree) as [|t0 translations]; [reflexivity|].
  simpl.
  assert (Hp0 : (p0 < 0)%Z).
  { destruct (Hwf 0%nat p0 eq_refl) as [[_ H]|[H _]]; lia. }
  destruct (Z.ltb_spec p0 0) as [_|Hge]; [|lia]. simpl.
  change [(r0, add_z root_t dz)] with (List.map (shift_z dz) [(r0, root_t)]).
  rewrite fk_fold_shift.
  - generalize (fold_left fk_step (zip (zip parents rotations) translations)
                  [(r0, root_t)]).
    intros l. induction l as [|[r p] l IHl]; simpl; [reflexivity|].
    f_equal. exact IHl.
  - intros k p r t Hk. simpl.
    apply lookup_zip_with_Some in Hk as ([p' r'] & t' & Heq & Hk & _).
    simplify_eq.
    apply lookup_zip_with_Some in Hk as (p'' & r'' & Heq & Hk & _).
    simplify_eq.
    destruct (Hwf (S k) _ Hk) as [[H _]|H]; lia.
Qed.

End ForwardKinematics.

End Poselib.

(* ================================================================== *)
(** ** [robot_utils/Walker/generate_walker_tpose.py] *)
(* ================================================================== *)

Module WalkerTpose.
Import Poselib.

(** A [SkeletonState] object owns a tensor; its [local_rotation]
    property is a view of that tensor, so an assignment through the
    view changes the state itself.  Tensors therefore live in a heap,
    and a state holds the address of its rotations. *)
Record SkeletonState : Type := {
  state_tree : SkeletonTree;
  state_rotation : nat;
  state_root_translation : vec3;
}.

(** What a saved pose file holds. *)
Abbreviation saved_pose := (SkeletonTree * list quat * vec3)%type.

Record world : Type := {
  heap : gmap nat (list quat);
  files : gmap string saved_pose;
}.

Section GetTpose.

Variable quat_mul : quat -> quat -> quat.
Variable quat_from_angle_axis : R -> vec3 -> bool -> quat.

(** The MJCF parser and the zero pose are built outside the embedded
    file: [from_mjcf] may fail; [zero_pose_wo_qbhand] gives the local
    rotations of the joints and the root translation of the new pose. *)
Variable from_mjcf : string -> option SkeletonTree.
Variable zero_pose_wo_qbhand : SkeletonTree -> list quat * vec3.

(** [skeleton.index(name)]: a [KeyError] for an unknown joint. *)
Definition index (skeleton : SkeletonTree) (name : string) : option nat :=
  _node_indices skeleton !! name.

(** The new state gets a tensor of its own. *)
Definition new_zero_pose (skeleton : SkeletonTree) (w : world)
  : SkeletonState * world :=
  let '(rotation, translation) := zero_pose_wo_qbhand skeleton in
  let address := fresh (dom (heap w)) in
  ({| state_tree := skeleton; state_rotation := address;
      state_root_translation := translation |},
   {| heap := <[address := rotation]> (heap w); files := files w |}).

(** [zero_pose.local_rotation]: the tensor of the state, not a copy. *)
Definition local_rotation_view (state : SkeletonState) : nat :=
  state_rotation state.

(** [tensor[i]] and [tensor[i] = q]; an index past the end raises. *)
Definition getitem (tensor i : nat) (w : world) : option quat :=
  rotation ← heap w !! tensor; rotation !! i.

Definition setitem (tensor i : nat) (q : quat) (w : world) : option world :=
  rotation ← heap w !! tensor;
  if decide (i < length rotation)%nat
  then Some {| heap := <[tensor := <[i := q]> rotation]> (heap w);
               files := files w |}
  else None.

(** [state.to_file(path)] *)
Definition to_file (state : SkeletonState) (path : string) (w : world)
  : option world :=
  rotation ← heap w !! state_rotation state;
  Some {| heap := heap w;
          files := <[path := (state_tree state, rotation,
                              state_root_translation state)]> (files w) |}.

(** The rotation applied to both limbs. *)
Definition minus_90_about_y : quat :=
  quat_from_angle_axis (-90.0) (0.0, 1.0, 0.0) true.

(** [get_tpose]; plotting has no effect on the result. *)
Definition get_tpose (xml_path save_path : string) (verbose : bool)
    (w : world) : option world :=
  skeleton ← from_mjcf xml_path;
  let '(zero_pose, w) := new_zero_pose skeleton w in
  let local_rotation := local_rotation_view zero_pose in
  left ← index skeleton "left_limb_l2";
  old ← getitem local_rotation left w;
  w ← setitem local_rotation left (quat_mul minus_90_about_y old) w;
  right ← index skeleton "right_limb_l2";
  old ← getitem local_rotation right w;
  w ← setitem local_rotation right (quat_mul minus_90_about_y old) w;
  to_file zero_pose save_path w.

Lemma getitem_insert (tensor : nat) (rotation : list quat)
    (h : gmap nat (list quat)) (fs : gmap string saved_pose) (i : nat)
    (q : quat) :
  rotation !! i = Some q ->
  getitem tensor i {| heap := <[tensor := rotation]> h; files := fs |} = Some q.
Proof.
  intros Hq. unfold getitem. cbn. rewrite lookup_insert_eq. exact Hq.
Qed.

Lemma setitem_insert (tensor : nat) (rotation : list quat)
    (h : gmap nat (list quat)) (fs : gmap string saved_pose) (i : nat)
    (q : quat) :
  (i < length rotation)%nat ->
  setitem tensor i q {| heap := <[tensor := rotation]> h; files := fs |}
  = Some {| heap := <[tensor := <[i := q]> rotation]> h; files := fs |}.
Proof.
  intros Hi. unfold setitem. cbn. rewrite lookup_insert_eq. cbn.
  rewrite decide_True by exact Hi. rewrite insert_insert_eq. reflexivity.
Qed.


(** *** What [get_tpose] does to the world *)

(** The rotations that are saved: the assignment to the left limb is
    done before the right limb is read. *)
Definition tpose_rotation (rotation : list quat) (left right : nat)
  : option (list quat) :=
  q_left ← rotation !! left;
  let rotation := <[left := quat_mul minus_90_about_y q_left]> rotation in
  q_right ← rotation !! right;
  Some (<[right := quat_mul minus_90_about_y q_right]> rotation).

Lemma getitem_heap (tensor : nat) (rotation : list quat)
    (h : gmap nat (list quat)) (fs : gmap string saved_pose) (i : nat) :
  getitem tensor i {| heap := <[tensor := rotation]> h; files := fs |}
  = rotation !! i.
Proof. unfold getitem. cbn. rewrite lookup_insert_eq. reflexivity. Qed.

Lemma get_tpose_unfold (xml_path save_path : string) (verbose : bool)
    (w : world) :
  get_tpose xml_path save_path verbose w
  = skeleton ← from_mjcf xml_path;
    left ← index skeleton "left_limb_l2";
    right ← index skeleton "right_limb_l2";
    rotation ← tpose_rotation (zero_pose_wo_qbhand skeleton).1 left right;
    Some {| heap := <[fresh (dom (heap w)) := rotation]> (heap w);
            files := <[save_path :=
                         (skeleton, rotation,
                          (zero_pose_wo_qbhand skeleton).2)]> (files w) |}.
Proof.
  unfold get_tpose. destruct (from_mjcf xml_path) as [skeleton|]; [|reflexivity].
  cbn. unfold new_zero_pose.
  destruct (zero_pose_wo_qbhand skeleton) as [rotation translation]. cbn.
  destruct (index skeleton "left_limb_l2") as [left|]; [|reflexivity]. cbn.
  rewrite getitem_heap. unfold tpose_rotation.
  destruct (rotation !! left) as [q_left|] eqn:Hleft; cbn.
  - rewrite setitem_insert by (eapply lookup_lt_Some; exact Hleft). cbn.
    destruct (index skeleton "right_limb_l2") as [right|]; [|reflexivity]. cbn.
    rewrite getitem_heap.
    destruct (<[left := quat_mul minus_90_about_y q_left]> rotation !! right)
      as [q_right|] eqn:Hright; [|reflexivity]. cbn.
    rewrite setitem_insert by (eapply lookup_lt_Some; exact Hright). cbn.
    unfold to_file. cbn. rewrite lookup_insert_eq. reflexivity.
  - destruct (index skeleton "right_limb_l2") as [right|]; reflexivity.
Qed.

Lemma tpose_rotation_is_Some (rotation : list quat) (left right : nat) :
  is_Some (tpose_rotation rotation left right)
  <-> (left < length rotation)%nat /\ (right < length rotation)%nat.
Proof.
  unfold tpose_rotation. split.
  - intros [rotation' Hrun].
    destruct (rotation !! left) as [q_left|] eqn:Hleft; [|discriminate].
    cbn in Hrun.
    destruct (<[left := quat_mul minus_90_about_y q_left]> rotation !! right)
      as [q_right|] eqn:Hright; [|discriminate].
    apply lookup_lt_Some in Hleft, Hright.
    rewrite length_insert in Hright. auto.
  - intros [Hleft Hright].
    destruct (lookup_lt_is_Some_2 rotation left Hleft) as [q_left Hql].
    rewrite Hql. cbn.
    destruct (lookup_lt_is_Some_2
                (<[left := quat_mul minus_90_about_y q_left]> rotation) right)
      as [q_right Hqr]; [rewrite length_insert; exact Hright|].
    rewrite Hqr. cbn. eauto.
Qed.


(** X20.  A successful [get_tpose] writes the file at [save_path] and
    no other, and changes no tensor that existed before the call: the
    pose it edits is the one it has just built. *)
Theorem get_tpose_frame (xml_path save_path : string) (verbose : bool)
    (w w' : world) :
  get_tpose xml_path save_path verbose w = Some w' ->
  is_Some (files w' !! save_path)
  /\ (forall path, path <> save_path -> files w' !! path = files w !! path)
  /\ (forall tensor, is_Some (heap w !! tensor) ->
        heap w' !! tensor = heap w !! tensor).
Proof.
  rewrite get_tpose_unfold. intros Hrun.
  destruct (from_mjcf xml_path) as [skeleton|]; [|discriminate]. cbn in Hrun.
  destruct (index skeleton "left_limb_l2") as [left|]; [|discriminate].
  cbn in Hrun.
  destruct (index skeleton "right_limb_l2") as [right|]; [|discriminate].
  cbn in Hrun.
  destruct (tpose_rotation (zero_pose_wo_qbhand skeleton).1 left right)
    as [rotation|]; [|discriminate].
  injection Hrun as <-. cbn. split; [|split].
  - rewrite lookup_insert_eq. eauto.
  - intros path Hne. apply lookup_insert_ne. congruence.
  - intros tensor Hsome. apply lookup_insert_ne. intros <-.
    apply elem_of_dom in Hsome. exact (is_fresh (dom (heap w)) Hsome).
Qed.


End GetTpose.

(** A walker with a base and the two limbs, parsed from any file. *)
Definition walker : SkeletonTree := {|
  _node_indices :=
    list_to_map [("base"%string, 0%nat); ("left_limb_l2"%string, 1%nat);
                 ("right_limb_l2"%string, 2%nat)];
  parent_indices := [(-1)%Z; 0%Z; 0%Z];
  local_translation := [(0, 0, 0); (0, 1, 0); (0, -1, 0)];
|}.

Definition walker_zero_pose (skeleton : SkeletonTree) : list quat * vec3 :=
  (List.map (fun _ => std_quat_identity) (parent_indices skeleton), (0, 0, 0)).

Definition empty_world : world := {| heap := ∅; files := ∅ |}.


(** [get_tpose] on the walker, from an empty world. *)
Lemma walker_get_tpose :
  exists w',
    get_tpose std_quat_mul std_quat_from_angle_axis (fun _ => Some walker)
      walker_zero_pose "walker.xml" "tpose.npy" false empty_world = Some w'.
Proof.
  rewrite get_tpose_unfold. cbn [mbind option_bind].
  assert (Hleft : index walker "left_limb_l2" = Some 1%nat) by reflexivity.
  assert (Hright : index walker "right_limb_l2" = Some 2%nat) by reflexivity.
  rewrite Hleft, Hright. cbn. eauto.
Qed.

Lemma get_tpose_frame_witness :
  exists w',
    get_tpose std_quat_mul std_quat_from_angle_axis (fun _ => Some walker)
      walker_zero_pose "walker.xml" "tpose.npy" false empty_world = Some w'
    /\ is_Some (files w' !! "tpose.npy"%string)
    /\ files w' !! "other.npy"%string = None.
Proof.
  destruct walker_get_tpose as [w' Hrun]. exists w'.
  destruct (get_tpose_frame std_quat_mul std_quat_from_angle_axis
              (fun _ => Some walker) walker_zero_pose "walker.xml" "tpose.npy"
              false empty_world w' Hrun) as (Hsaved & Hfiles & _).
  split; [exact Hrun|]. split; [exact Hsaved|].
  rewrite Hfiles by discriminate. reflexivity.
Defined.


End WalkerTpose.

(* ================================================================== *)
(** ** [poselib/xsens_fbx_to_amp_npy.py] *)
(* ================================================================== *)

Module XsensFbxToAmpNpy.
Import Poselib.

(** [l[start:stop]] with Python's reading of negative and of too large
    bounds. *)
Definition py_index (n i : Z) : Z :=
  if (i <? 0)%Z then Z.max 0 (n + i) else Z.min i n.

Definition py_slice {A : Type} (start stop : Z) (l : list A) : list A :=
  let n := Z.of_nat (length l) in
  let start := py_index n start in
  let stop := py_index n stop in
  take (Z.to_nat (stop - start)) (drop (Z.to_nat start) l).

(** [torch.min] of all the elements; it raises on an empty tensor. *)
Definition min_all (l : list R) : option R :=
  match l with
  | [] => None
  | x :: l => Some (fold_left Rmin l x)
  end.

(** [tensor[i] = q] on one frame; an index past the end raises. *)
Definition setitem (l : list quat) (assignment : nat * quat)
  : option (list quat) :=
  let '(i, q) := assignment in
  if decide (i < length l)%nat then Some (<[i := q]> l) else None.

(** A sequence of assignments, in order. *)
Fixpoint assign_all (assignments : list (nat * quat)) (l : list quat)
  : option (list quat) :=
  match assignments with
  | [] => Some l
  | a :: assignments => l ← setitem l a; assign_all assignments l
  end.

(** The two kinds of limb [_project_joints] treats: an arm bends by
    [-|theta|] and keeps the sign of its twist when the rotated forearm
    points down ([y <= 0]); a leg bends by [|theta|] and keeps it when
    the rotated shin points up ([y >= 0]). *)
Inductive limb_kind : Type := Arm | Leg.

Definition hinge_angle (kind : limb_kind) (theta : R) : R :=
  match kind with
  | Arm => - Rabs theta
  | Leg => Rabs theta
  end.

Definition keeps_sign (kind : limb_kind) (y : R) : bool :=
  match kind with
  | Arm => if Rle_dec y 0 then true else false
  | Leg => if Rge_dec y 0 then true else false
  end.

Definition unit_y : vec3 := (0.0, 1.0, 0.0).

(** The bend of the middle joint, from the positions of the three
    joints of a limb (lines 62 to 72 for the right arm). *)
Definition hinge_theta (upper_pos mid_pos end_pos : vec3) : R :=
  let delta0 := v3_sub upper_pos mid_pos in
  let delta1 := v3_sub end_pos mid_pos in
  let delta0 := v3_div delta0 (v3_norm delta0) in
  let delta1 := v3_div delta1 (v3_norm delta1) in
  let dot := v3_sum (v3_mul (v3_neg delta0) delta1) in
  let dot := Torch.clamp (-1.0) 1.0 dot in
  acos dot.

(** The bend in the words of the (amended) specification: the angle
    between the direction from the upper to the middle joint and the
    direction from the middle to the end joint. *)
Definition v3_dot (a b : vec3) : R := v3_sum (v3_mul a b).
Definition v3_unit (a : vec3) : vec3 := v3_div a (v3_norm a).
Definition bend_angle (upper_pos mid_pos end_pos : vec3) : R :=
  acos (Torch.clamp (-1) 1
          (v3_dot (v3_unit (v3_sub mid_pos upper_pos))
                  (v3_unit (v3_sub end_pos mid_pos)))).

(** The bend as the claim words it: the angle between the direction
    from the upper to the middle joint and the direction from the end to
    the middle joint. *)
Definition claimed_bend_angle (upper_pos mid_pos end_pos : vec3) : R :=
  acos (Torch.clamp (-1) 1
          (v3_dot (v3_unit (v3_sub mid_pos upper_pos))
                  (v3_unit (v3_sub mid_pos end_pos)))).

(** The frames the claim says are kept: those whose index lies in
    [[lo, hi]]; [i] is the index of the head of the list. *)
Fixpoint frames_between {A : Type} (lo hi i : Z) (frames : list A) : list A :=
  match frames with
  | [] => []
  | frame :: frames =>
      if ((lo <=? i) && (i <=? hi))%Z
      then frame :: frames_between lo hi (i + 1) frames
      else frames_between lo hi (i + 1) frames
  end.

Section Retargeting.

Variable quat_mul : quat -> quat -> quat.
Variable quat_rotate : quat -> vec3 -> vec3.
Variable quat_from_angle_axis : R -> vec3 -> bool -> quat.
Variable quat_identity : quat.

(** [state.global_translation] of one frame: the forward kinematics of
    the pose library. *)
Variable global_translation : SkeletonTree -> list quat -> vec3 -> list vec3.

(** T-pose files and the retargeting itself belong to the pose
    library. *)
Variable TPose : Type.
Variable from_file : string -> option TPose.
Variable retarget_to_by_tpose :
  SkeletonMotion -> list (string * string) -> TPose -> TPose -> quat -> R ->
  SkeletonMotion.

(** [motion.global_translation]: per frame, the position of every
    joint. *)
Definition motion_global_translation (motion : SkeletonMotion)
  : list (list vec3) :=
  zip_with (global_translation (skeleton_tree motion))
    (local_rotation motion) (root_translation motion).

(** *** [_project_joints] *)

(** The twist of the upper joint that makes up for the projection of
    the middle joint (lines 78 to 90 for the right arm). *)
Definition twist_theta (kind : limb_kind) (mid_rot hinge_q : quat)
    (local_dir : vec3) : R :=
  let local_dir0 := quat_rotate mid_rot local_dir in
  let local_dir1 := quat_rotate hinge_q local_dir in
  let dot := v3_sum (v3_mul local_dir0 local_dir1) in
  let dot := Torch.clamp (-1.0) 1.0 dot in
  let theta := acos dot in
  if keeps_sign kind (v3_y local_dir0) then theta else - theta.

(** One of the four blocks: the new rotations of the upper and of the
    middle joint of a limb, in one frame.  The blocks differ in the
    joints and in the kind of limb only. *)
Definition project_limb (kind : limb_kind) (tree : SkeletonTree)
    (positions : list vec3) (rotations : list quat)
    (upper_id mid_id end_id : nat) : option (quat * quat) :=
  upper_pos ← positions !! upper_id;
  mid_pos ← positions !! mid_id;
  end_pos ← positions !! end_id;
  upper_rot ← rotations !! upper_id;
  mid_rot ← rotations !! mid_id;
  let theta := hinge_theta upper_pos mid_pos end_pos in
  let hinge_q := quat_from_angle_axis (hinge_angle kind theta) unit_y false in
  local_dir ← local_translation tree !! end_id;
  let local_dir := v3_div local_dir (v3_norm local_dir) in
  let twist := twist_theta kind mid_rot hinge_q local_dir in
  let twist_q := quat_from_angle_axis twist local_dir false in
  Some (quat_mul upper_rot twist_q, hinge_q).

(** The indices of the twelve joints, looked up by name. *)
Record joint_ids : Type := {
  right_upper_arm_id : nat; right_lower_arm_id : nat; right_hand_id : nat;
  left_upper_arm_id : nat; left_lower_arm_id : nat; left_hand_id : nat;
  right_thigh_id : nat; right_shin_id : nat; right_foot_id : nat;
  left_thigh_id : nat; left_shin_id : nat; left_foot_id : nat;
}.

Definition lookup_joint_ids (tree : SkeletonTree) : option joint_ids :=
  let ids := _node_indices tree in
  rua ← ids !! "right_upper_arm"%string;
  rla ← ids !! "right_lower_arm"%string;
  rh ← ids !! "right_hand"%string;
  lua ← ids !! "left_upper_arm"%string;
  lla ← ids !! "left_lower_arm"%string;
  lh ← ids !! "left_hand"%string;
  rt ← ids !! "right_thigh"%string;
  rs ← ids !! "right_shin"%string;
  rf ← ids !! "right_foot"%string;
  lt ← ids !! "left_thigh"%string;
  ls ← ids !! "left_shin"%string;
  lf ← ids !! "left_foot"%string;
  Some {| right_upper_arm_id := rua; right_lower_arm_id := rla;
          right_hand_id := rh; left_upper_arm_id := lua;
          left_lower_arm_id := lla; left_hand_id := lh;
          right_thigh_id := rt; right_shin_id := rs; right_foot_id := rf;
          left_thigh_id := lt; left_shin_id := ls; left_foot_id := lf |}.

(** The joints that are assigned to, in the order of the assignments. *)
Definition assigned_ids (ids : joint_ids) : list nat :=
  [right_upper_arm_id ids; right_lower_arm_id ids;
   left_upper_arm_id ids; left_lower_arm_id ids;
   right_thigh_id ids; right_shin_id ids;
   left_thigh_id ids; left_shin_id ids;
   left_hand_id ids; right_hand_id ids].

(** The work on one frame: the four limbs, then the ten assignments to
    the clone of the local rotations. *)
Definition project_frame (tree : SkeletonTree) (ids : joint_ids)
    (positions : list vec3) (rotations : list quat) : option (list quat) :=
  '(right_shoulder_rot, right_elbow_q) ←
    project_limb Arm tree positions rotations
      (right_upper_arm_id ids) (right_lower_arm_id ids) (right_hand_id ids);
  '(left_shoulder_rot, left_elbow_q) ←
    project_limb Arm tree positions rotations
      (left_upper_arm_id ids) (left_lower_arm_id ids) (left_hand_id ids);
  '(right_hip_rot, right_knee_q) ←
    project_limb Leg tree positions rotations
      (right_thigh_id ids) (right_shin_id ids) (right_foot_id ids);
  '(left_hip_rot, left_knee_q) ←
    project_limb Leg tree positions rotations
      (left_thigh_id ids) (left_shin_id ids) (left_foot_id ids);
  assign_all
    (zip (assigned_ids ids)
       [right_shoulder_rot; right_elbow_q; left_shoulder_rot; left_elbow_q;
        right_hip_rot; right_knee_q; left_hip_rot; left_knee_q;
        quat_identity; quat_identity])
    rotations.

Definition _project_joints (motion : SkeletonMotion) : option SkeletonMotion :=
  let tree := skeleton_tree motion in
  ids ← lookup_joint_ids tree;
  new_local_rotation ←
    mapM (fun frame => project_frame tree ids frame.1 frame.2)
      (zip (motion_global_translation motion) (local_rotation motion));
  Some {| skeleton_tree := tree;
          local_rotation := new_local_rotation;
          root_translation := root_translation motion;
          fps := fps motion |}.

(** *** [motion_retargeting] *)

Record retarget_cfg : Type := {
  target_motion_path : string;
  source_tpose : string;
  target_tpose : string;
  joint_mapping : list (string * string);
  rotation : quat;
  scale : R;
  root_height_offset : R;
  trim_frame_beg : Z;
  trim_frame_end : Z;
}.

(** The first and the last-but-one frame that are kept. *)
Definition frame_beg (cfg : retarget_cfg) : Z :=
  if (trim_frame_beg cfg =? -1)%Z then 0%Z else trim_frame_beg cfg.

Definition frame_end (cfg : retarget_cfg) (n_frames : nat) : Z :=
  if (trim_frame_end cfg =? -1)%Z then Z.of_nat n_frames
  else trim_frame_end cfg.

(** Plotting aside, [motion_retargeting] reads the two T-poses, retargets,
    trims, moves the root and saves; [saved] maps a path to the motion
    saved there. *)
Definition motion_retargeting (cfg : retarget_cfg)
    (source_motion : SkeletonMotion) (saved : gmap string SkeletonMotion)
  : option (gmap string SkeletonMotion) :=
  source_tpose ← from_file (source_tpose cfg);
  target_tpose ← from_file (target_tpose cfg);
  let target_motion :=
    retarget_to_by_tpose source_motion (joint_mapping cfg) source_tpose
      target_tpose (rotation cfg) (scale cfg) in
  let frame_beg := frame_beg cfg in
  let frame_end := frame_end cfg (length (local_rotation target_motion)) in
  let target_motion := {|
    skeleton_tree := skeleton_tree target_motion;
    local_rotation := py_slice frame_beg frame_end (local_rotation target_motion);
    root_translation :=
      py_slice frame_beg frame_end (root_translation target_motion);
    fps := fps target_motion |} in
  let tar_global_pos := motion_global_translation target_motion in
  min_h ← min_all (List.map v3_z (List.concat tar_global_pos));
  let root_translation :=
    List.map (fun t => add_z (add_z t (- min_h)) (root_height_offset cfg))
      (root_translation target_motion) in
  let target_motion := {|
    skeleton_tree := skeleton_tree target_motion;
    local_rotation := local_rotation target_motion;
    root_translation := root_translation;
    fps := fps target_motion |} in
  Some (<[target_motion_path cfg := target_motion]> saved).

(** *** Trimming and grounding ([motion_retargeting], C6) *)

Lemma Rmin_plus (a b c : R) : Rmin (a + c) (b + c) = Rmin a b + c.
Proof.
  unfold Rmin. destruct (Rle_dec (a + c) (b + c)), (Rle_dec a b); lra.
Qed.

Lemma fold_Rmin_plus (l : list R) (x c : R) :
  fold_left Rmin (List.map (fun a => a + c) l) (x + c)
  = fold_left Rmin l x + c.
Proof.
  revert x. induction l as [|a l IH]; intros x; simpl; [reflexivity|].
  rewrite Rmin_plus. apply IH.
Qed.

Lemma min_all_plus (l : list R) (c m : R) :
  min_all l = Some m ->
  min_all (List.map (fun a => a + c) l) = Some (m + c).
Proof.
  destruct l as [|x l]; simpl; [discriminate|].
  intros [= <-]. rewrite fold_Rmin_plus. reflexivity.
Qed.

Lemma v3_z_add_z (p : vec3) (dz : R) : v3_z (add_z p dz) = v3_z p + dz.
Proof. destruct p as [[x y] z]. reflexivity. Qed.

Lemma add_z_add_z (t : vec3) (a b : R) :
  add_z (add_z t a) b = add_z t (a + b).
Proof. destruct t as [[x y] z]. simpl. f_equal. ring. Qed.

(** Raising every root by [dz] raises every joint of every frame by
    [dz], for a kinematics that follows the root. *)
Lemma heights_shifted (tree : SkeletonTree) (dz : R)
    (rotations : list (list quat)) (roots : list vec3) :
  (forall rot t, global_translation tree rot (add_z t dz)
                 = List.map (fun p => add_z p dz) (global_translation tree rot t)) ->
  List.map v3_z
    (List.concat
       (zip_with (global_translation tree) rotations
          (List.map (fun t => add_z t dz) roots)))
  = List.map (fun z => z + dz)
      (List.map v3_z
         (List.concat (zip_with (global_translation tree) rotations roots))).
Proof.
  intros Hfollow. revert roots.
  induction rotations as [|rot rotations IH]; intros [|t roots]; simpl;
    try reflexivity.
  rewrite !List.map_app, IH, Hfollow. f_equal.
  rewrite !List.map_map. apply List.map_ext. intros p. apply v3_z_add_z.
Qed.

(** With bounds in range, the Python slice is the segment
    [[start, stop - 1]]. *)
Lemma py_slice_segment {A : Type} (start stop : Z) (l : list A) (k : nat) :
  (0 <= start <= stop)%Z ->
  py_slice start stop l !! k
  = if decide (Z.of_nat k < stop - start)%Z
    then l !! (Z.to_nat start + k)%nat else None.
Proof.
  intros Hb. unfold py_slice, py_index.
  destruct (Z.ltb_spec start 0) as [?|_]; [lia|].
  destruct (Z.ltb_spec stop 0) as [?|_]; [lia|].
  rewrite lookup_take. rewrite lookup_drop.
  destruct (decide (Z.of_nat k < stop - start)%Z) as [Hk|Hk].
  - destruct (decide (k < Z.to_nat (Z.min stop (Z.of_nat (length l))
                                     - Z.min start (Z.of_nat (length l))))%nat)
      as [Hk'|Hk'].
    + f_equal. lia.
    + symmetry. apply lookup_ge_None_2. lia.
  - destruct (decide (k < Z.to_nat (Z.min stop (Z.of_nat (length l))
                                     - Z.min start (Z.of_nat (length l))))%nat)
      as [Hk'|Hk']; [lia|reflexivity].
Qed.


(** *** Projecting the elbows and knees ([_project_joints], C5) *)

Lemma v3_norm_sub_sym (a b : vec3) : v3_norm (v3_sub a b) = v3_norm (v3_sub b a).
Proof.
  destruct a as [[ax ay] az], b as [[bx b_y] bz]. simpl. f_equal. ring.
Qed.

Lemma hinge_theta_bend_angle (upper_pos mid_pos end_pos : vec3) :
  hinge_theta upper_pos mid_pos end_pos = bend_angle upper_pos mid_pos end_pos.
Proof.
  unfold hinge_theta, bend_angle, v3_dot, v3_unit.
  rewrite (v3_norm_sub_sym upper_pos mid_pos).
  set (c := v3_norm (v3_sub mid_pos upper_pos)).
  set (d := v3_norm (v3_sub end_pos mid_pos)).
  replace (-1.0) with (-1) by lra. replace 1.0 with 1 by lra.
  do 2 f_equal.
  destruct upper_pos as [[ux uy] uz], mid_pos as [[mx my] mz],
    end_pos as [[ex ey] ez]. simpl. unfold Rdiv. ring.
Qed.

Lemma assign_all_spec (assignments : list (nat * quat)) :
  forall l,
    NoDup assignments.*1 ->
    Forall (fun i => (i < length l)%nat) assignments.*1 ->
    exists new,
      assign_all assignments l = Some new
      /\ length new = length l
      /\ (forall i q, (i, q) ∈ assignments -> new !! i = Some q)
      /\ (forall j, j ∉ assignments.*1 -> new !! j = l !! j).
Proof.
  induction assignments as [|[i q] assignments IH]; intros l Hnd Hin.
  - exists l. repeat split; try reflexivity.
    intros i q Hiq. apply elem_of_nil in Hiq. contradiction.
  - simpl in Hnd, Hin. apply NoDup_cons in Hnd as [Hi Hnd].
    apply Forall_cons in Hin as [Hil Hin].
    destruct (IH (<[i := q]> l)) as (new & Hrun & Hlen & Hset & Hkeep).
    + exact Hnd.
    + rewrite length_insert. exact Hin.
    + exists new. split; [|split; [|split]].
      * simpl. rewrite decide_True by exact Hil. exact Hrun.
      * rewrite Hlen. apply length_insert.
      * intros i' q' Hiq. apply elem_of_cons in Hiq as [Heq|Hiq].
        -- injection Heq as -> ->. rewrite Hkeep by exact Hi.
           apply list_lookup_insert_eq. exact Hil.
        -- apply Hset, Hiq.
      * intros j Hj. simpl in Hj. apply not_elem_of_cons in Hj as [Hne Hj].
        rewrite Hkeep by exact Hj. apply list_lookup_insert_ne. congruence.
Qed.

(** What one block computes, when the joints are there. *)
Definition limb_result (kind : limb_kind) (tree : SkeletonTree)
    (positions : list vec3) (rotations : list quat)
    (upper_id mid_id end_id : nat) (shoulder hinge : quat) : Prop :=
  exists upper_pos mid_pos end_pos upper_rot mid_rot end_offset,
    positions !! upper_id = Some upper_pos
    /\ positions !! mid_id = Some mid_pos
    /\ positions !! end_id = Some end_pos
    /\ rotations !! upper_id = Some upper_rot
    /\ rotations !! mid_id = Some mid_rot
    /\ local_translation tree !! end_id = Some end_offset
    /\ hinge
       = quat_from_angle_axis
           (hinge_angle kind (bend_angle upper_pos mid_pos end_pos))
           (0, 1, 0) false
    /\ shoulder
       = quat_mul upper_rot
           (quat_from_angle_axis
              (twist_theta kind mid_rot hinge (v3_unit end_offset))
              (v3_unit end_offset) false).

Lemma project_limb_spec (kind : limb_kind) (tree : SkeletonTree)
    (positions : list vec3) (rotations : list quat)
    (upper_id mid_id end_id : nat) :
  (upper_id < length positions)%nat -> (mid_id < length positions)%nat ->
  (end_id < length positions)%nat ->
  (upper_id < length rotations)%nat -> (mid_id < length rotations)%nat ->
  (end_id < length (local_translation tree))%nat ->
  exists shoulder hinge,
    project_limb kind tree positions rotations upper_id mid_id end_id
    = Some (shoulder, hinge)
    /\ limb_result kind tree positions rotations upper_id mid_id end_id
         shoulder hinge.
Proof.
  intros H1 H2 H3 H4 H5 H6.
  destruct (lookup_lt_is_Some_2 _ _ H1) as [upper_pos Hup].
  destruct (lookup_lt_is_Some_2 _ _ H2) as [mid_pos Hmp].
  destruct (lookup_lt_is_Some_2 _ _ H3) as [end_pos Hep].
  destruct (lookup_lt_is_Some_2 _ _ H4) as [upper_rot Hur].
  destruct (lookup_lt_is_Some_2 _ _ H5) as [mid_rot Hmr].
  destruct (lookup_lt_is_Some_2 _ _ H6) as [end_offset Heo].
  unfold project_limb. rewrite Hup, Hmp, Hep, Hur, Hmr. cbn. rewrite Heo. cbn.
  eexists _, _. split; [reflexivity|].
  exists upper_pos, mid_pos, end_pos, upper_rot, mid_rot, end_offset.
  repeat (split; [assumption|]).
  rewrite hinge_theta_bend_angle. unfold unit_y, v3_unit.
  replace 0.0 with 0 by lra. replace 1.0 with 1 by lra.
  split; reflexivity.
Qed.

(** The twelve joints exist in the skeleton and in a frame. *)
Definition all_ids (ids : joint_ids) : list nat :=
  assigned_ids ids ++ [right_foot_id ids; left_foot_id ids].

Definition frame_in_range (tree : SkeletonTree) (ids : joint_ids)
    (positions : list vec3) (rotations : list quat) : Prop :=
  length positions = length (local_translation tree)
  /\ length rotations = length (local_translation tree)
  /\ Forall (fun i => (i < length (local_translation tree))%nat) (all_ids ids).

(** What [_project_joints] does to one frame. *)
Definition frame_result (tree : SkeletonTree) (ids : joint_ids)
    (positions : list vec3) (rotations new : list quat) : Prop :=
  length new = length rotations
  /\ (exists shoulder hinge,
        limb_result Arm tree positions rotations (right_upper_arm_id ids)
          (right_lower_arm_id ids) (right_hand_id ids) shoulder hinge
        /\ new !! right_upper_arm_id ids = Some shoulder
        /\ new !! right_lower_arm_id ids = Some hinge)
  /\ (exists shoulder hinge,
        limb_result Arm tree positions rotations (left_upper_arm_id ids)
          (left_lower_arm_id ids) (left_hand_id ids) shoulder hinge
        /\ new !! left_upper_arm_id ids = Some shoulder
        /\ new !! left_lower_arm_id ids = Some hinge)
  /\ (exists hip hinge,
        limb_result Leg tree positions rotations (right_thigh_id ids)
          (right_shin_id ids) (right_foot_id ids) hip hinge
        /\ new !! right_thigh_id ids = Some hip
        /\ new !! right_shin_id ids = Some hinge)
  /\ (exists hip hinge,
        limb_result Leg tree positions rotations (left_thigh_id ids)
          (left_shin_id ids) (left_foot_id ids) hip hinge
        /\ new !! left_thigh_id ids = Some hip
        /\ new !! left_shin_id ids = Some hinge)
  /\ new !! left_hand_id ids = Some quat_identity
  /\ new !! right_hand_id ids = Some quat_identity
  /\ (forall j, j ∉ assigned_ids ids -> new !! j = rotations !! j).

Ltac in_list :=
  repeat first [apply list_elem_of_here | apply list_elem_of_further].

Lemma project_frame_spec (tree : SkeletonTree) (ids : joint_ids)
    (positions : list vec3) (rotations : list quat) :
  NoDup (assigned_ids ids) ->
  frame_in_range tree ids positions rotations ->
  exists new,
    project_frame tree ids positions rotations = Some new
    /\ frame_result tree ids positions rotations new.
Proof.
  intros Hnd (Hpos & Hrot & Hids). unfold all_ids, assigned_ids in Hids.
  simpl in Hids.
  repeat match type of Hids with
         | Forall _ (_ :: _) =>
             let H := fresh "Hid" in apply Forall_cons in Hids as [H Hids]
         end.
  destruct (project_limb_spec Arm tree positions rotations
              (right_upper_arm_id ids) (right_lower_arm_id ids)
              (right_hand_id ids)) as (rs & re & Hra & Sra); try lia.
  destruct (project_limb_spec Arm tree positions rotations
              (left_upper_arm_id ids) (left_lower_arm_id ids)
              (left_hand_id ids)) as (ls & le & Hla & Sla); try lia.
  destruct (project_limb_spec Leg tree positions rotations
              (right_thigh_id ids) (right_shin_id ids)
              (right_foot_id ids)) as (rh & rk & Hrl & Srl); try lia.
  destruct (project_limb_spec Leg tree positions rotations
              (left_thigh_id ids) (left_shin_id ids)
              (left_foot_id ids)) as (lh & lk & Hll & Sll); try lia.
  set (values := [rs; re; ls; le; rh; rk; lh; lk; quat_identity; quat_identity]).
  destruct (assign_all_spec (zip (assigned_ids ids) values) rotations)
    as (new & Hrun & Hlen & Hset & Hkeep).
  { rewrite fst_zip by (simpl; lia). exact Hnd. }
  { rewrite fst_zip by (simpl; lia). unfold assigned_ids.
    repeat (constructor; [lia|]). constructor. }
  rewrite fst_zip in Hkeep by (simpl; lia).
  exists new. split.
  - unfold project_frame. rewrite Hra. cbn. rewrite Hla. cbn.
    rewrite Hrl. cbn. rewrite Hll. cbn. exact Hrun.
  - split; [exact Hlen|].
    split; [exists rs, re; split; [exact Sra|split; apply Hset; simpl; in_list]|].
    split; [exists ls, le; split; [exact Sla|split; apply Hset; simpl; in_list]|].
    split; [exists rh, rk; split; [exact Srl|split; apply Hset; simpl; in_list]|].
    split; [exists lh, lk; split; [exact Sll|split; apply Hset; simpl; in_list]|].
    split; [apply Hset; simpl; in_list|].
    split; [apply Hset; simpl; in_list|].
    exact Hkeep.
Qed.

Lemma mapM_spec {A B : Type} (f : A -> option B) (P : A -> B -> Prop)
    (l : list A) :
  (forall x, x ∈ l -> exists y, f x = Some y /\ P x y) ->
  exists k, mapM f l = Some k /\ Forall2 P l k.
Proof.
  induction l as [|x l IH]; intros Hall.
  - exists []. split; [reflexivity|constructor].
  - destruct (Hall x) as (y & Hy & HP); [apply list_elem_of_here|].
    destruct IH as (k & Hk & HF).
    { intros x' Hx'. apply Hall, list_elem_of_further, Hx'. }
    exists (y :: k). split; [|constructor; assumption].
    cbn. rewrite Hy. cbn. rewrite Hk. reflexivity.
Qed.

(** [_project_joints] on a motion that holds the twelve joints: it
    succeeds, and treats every frame as [frame_result] says. *)
Lemma project_joints_frames (motion : SkeletonMotion) (ids : joint_ids) :
  let tree := skeleton_tree motion in
  lookup_joint_ids tree = Some ids ->
  NoDup (assigned_ids ids) ->
  (forall f positions rotations,
      motion_global_translation motion !! f = Some positions ->
      local_rotation motion !! f = Some rotations ->
      frame_in_range tree ids positions rotations) ->
  exists new_rotation,
    _project_joints motion
    = Some {| skeleton_tree := tree; local_rotation := new_rotation;
              root_translation := root_translation motion;
              fps := fps motion |}
    /\ Forall2 (fun frame new => frame_result tree ids frame.1 frame.2 new)
         (zip (motion_global_translation motion) (local_rotation motion))
         new_rotation.
Proof.
  intros tree Hids Hnd Hrange.
  destruct (mapM_spec
              (fun frame => project_frame tree ids frame.1 frame.2)
              (fun frame new => frame_result tree ids frame.1 frame.2 new)
              (zip (motion_global_translation motion) (local_rotation motion)))
    as (new_rotation & Hrun & Hall).
  { intros [positions rotations] Hin.
    apply list_elem_of_lookup_1 in Hin as [f Hf].
    apply lookup_zip_with_Some in Hf as (p & r & Heq & Hp & Hr).
    injection Heq as -> ->.
    apply project_frame_spec; [exact Hnd|]. eapply Hrange; eauto. }
  exists new_rotation. split; [|exact Hall].
  unfold _project_joints. fold tree. rewrite Hids. cbn.
  rewrite Hrun. reflexivity.
Qed.


(** *** Which way the elbows and knees bend *)

(** A rotation about [(0, 1, 0)] by an angle in the range of the kind of
    limb: elbows turn backwards, knees forwards. *)
Definition hinge_in_range (kind : limb_kind) (q : quat) : Prop :=
  exists angle,
    q = quat_from_angle_axis angle (0, 1, 0) false
    /\ match kind with
       | Arm => - PI <= angle <= 0
       | Leg => 0 <= angle <= PI
       end.

Lemma limb_result_hinge (kind : limb_kind) (tree : SkeletonTree)
    (positions : list vec3) (rotations : list quat)
    (upper_id mid_id end_id : nat) (shoulder hinge : quat) :
  limb_result kind tree positions rotations upper_id mid_id end_id
    shoulder hinge ->
  hinge_in_range kind hinge.
Proof.
  intros (upper_pos & mid_pos & end_pos & _ & _ & _ & _ & _ & _ & _ & _ & _
          & Hhinge & _).
  exists (hinge_angle kind (bend_angle upper_pos mid_pos end_pos)).
  split; [exact Hhinge|].
  unfold bend_angle.
  set (dot := Torch.clamp (-1) 1 _).
  pose proof (acos_bound dot) as [Hlo Hhi].
  destruct kind; simpl; rewrite Rabs_pos_eq by exact Hlo; lra.
Qed.

(** X22.  In every frame of the motion that [_project_joints] returns,
    both elbows are rotations about [(0, 1, 0)] by an angle between
    [-pi] and 0 and both knees are rotations about [(0, 1, 0)] by an
    angle between 0 and [pi]: whatever the input pose, a projected
    elbow or knee bends one way only. *)
Theorem project_joints_hinges (motion : SkeletonMotion) (ids : joint_ids) :
  let tree := skeleton_tree motion in
  lookup_joint_ids tree = Some ids ->
  NoDup (assigned_ids ids) ->
  (forall f positions rotations,
      motion_global_translation motion !! f = Some positions ->
      local_rotation motion !! f = Some rotations ->
      frame_in_range tree ids positions rotations) ->
  exists motion',
    _project_joints motion = Some motion'
    /\ forall f new,
         local_rotation motion' !! f = Some new ->
         (exists q, new !! right_lower_arm_id ids = Some q
                    /\ hinge_in_range Arm q)
         /\ (exists q, new !! left_lower_arm_id ids = Some q
                       /\ hinge_in_range Arm q)
         /\ (exists q, new !! right_shin_id ids = Some q
                       /\ hinge_in_range Leg q)
         /\ (exists q, new !! left_shin_id ids = Some q
                       /\ hinge_in_range Leg q).
Proof.
  intros tree Hids Hnd Hrange.
  destruct (project_joints_frames motion ids Hids Hnd Hrange)
    as (new_rotation & Hrun & Hall).
  fold tree in Hrun, Hall.
  eexists. split; [exact Hrun|]. cbn. intros f new Hnew.
  destruct (Forall2_lookup_r _ _ _ _ _ Hall Hnew)
    as ([positions rotations] & _ & Hres).
  destruct Hres as (_ & (s1 & h1 & L1 & _ & E1) & (s2 & h2 & L2 & _ & E2)
                    & (s3 & h3 & L3 & _ & E3) & (s4 & h4 & L4 & _ & E4) & _).
  split; [|split; [|split]]; eexists; (split; [eassumption|]);
    eapply limb_result_hinge; eassumption.
Qed.

(** *** Frame by frame *)

(** The trimming step of [motion_retargeting] (lines 281 to 291): the
    frames [[frame_beg:frame_end]] of a motion. *)
Definition trim_frames (frame_beg frame_end : Z) (motion : SkeletonMotion)
  : SkeletonMotion :=
  {| skeleton_tree := skeleton_tree motion;
     local_rotation := py_slice frame_beg frame_end (local_rotation motion);
     root_translation := py_slice frame_beg frame_end (root_translation motion);
     fps := fps motion |}.

Lemma py_slice_zip_with {A B C : Type} (f : A -> B -> C) (start stop : Z)
    (l : list A) (k : list B) :
  length l = length k ->
  zip_with f (py_slice start stop l) (py_slice start stop k)
  = py_slice start stop (zip_with f l k).
Proof.
  intros Hlen. unfold py_slice.
  rewrite length_zip_with, <- Hlen, Nat.min_id.
  rewrite zip_with_drop, zip_with_take. reflexivity.
Qed.

Lemma mapM_py_slice {A B : Type} (f : A -> option B) (start stop : Z)
    (l : list A) (k : list B) :
  mapM f l = Some k ->
  mapM f (py_slice start stop l) = Some (py_slice start stop k).
Proof.
  intros Hrun. apply mapM_Some in Hrun. apply mapM_Some. unfold py_slice.
  rewrite <- (Forall2_length _ _ _ Hrun).
  apply Forall2_take, Forall2_drop, Hrun.
Qed.

(** X23.  [_project_joints] treats every frame on its own: on a motion
    that has a root translation for every frame, trimming the frames
    [[frame_beg:frame_end]] and then projecting gives the motion that
    projecting and then trimming gives. *)
Theorem project_joints_trim (frame_beg frame_end : Z)
    (motion motion' : SkeletonMotion) :
  length (root_translation motion) = length (local_rotation motion) ->
  _project_joints motion = Some motion' ->
  _project_joints (trim_frames frame_beg frame_end motion)
  = Some (trim_frames frame_beg frame_end motion').
Proof.
  intros Hlen Hrun. unfold _project_joints in *.
  cbn [skeleton_tree trim_frames].
  destruct (lookup_joint_ids (skeleton_tree motion)) as [ids|]; [|discriminate].
  cbn in Hrun |- *.
  destruct (mapM
              (fun frame => project_frame (skeleton_tree motion) ids frame.1 frame.2)
              (zip (motion_global_translation motion) (local_rotation motion)))
    as [new|] eqn:Hmap; [|discriminate].
  injection Hrun as <-.
  rewrite py_slice_zip_with by (symmetry; exact Hlen).
  fold (motion_global_translation motion).
  rewrite py_slice_zip_with
    by (unfold motion_global_translation; rewrite length_zip_with; lia).
  rewrite (mapM_py_slice _ _ _ _ _ Hmap). reflexivity.
Qed.

(** *** When nothing is left after trimming *)

Lemma py_slice_empty {A : Type} (start stop : Z) (l : list A) :
  (0 <= stop <= start)%Z -> py_slice start stop l = [].
Proof.
  intros Hb. unfold py_slice, py_index.
  destruct (Z.ltb_spec start 0) as [?|_]; [lia|].
  destruct (Z.ltb_spec stop 0) as [?|_]; [lia|].
  replace (Z.to_nat (Z.min stop (Z.of_nat (length l))
                     - Z.min start (Z.of_nat (length l)))) with 0%nat by lia.
  reflexivity.
Qed.

(** X24.  When [trim_frame_end] is a position at or before
    [trim_frame_beg] (both counted from the start), no frame is left
    after trimming and [motion_retargeting] raises without saving a
    motion: [torch.min] has nothing to take the minimum of. *)
Theorem motion_retargeting_empty_trim (cfg : retarget_cfg)
    (source_motion : SkeletonMotion) (saved : gmap string SkeletonMotion) :
  (0 <= trim_frame_end cfg <= trim_frame_beg cfg)%Z ->
  motion_retargeting cfg source_motion saved = None.
Proof.
  intros Hb. unfold motion_retargeting.
  destruct (from_file (source_tpose cfg)) as [source|]; [|reflexivity].
  destruct (from_file (target_tpose cfg)) as [target|]; [|reflexivity].
  cbn. unfold motion_global_translation. cbn.
  assert (Hbeg : frame_beg cfg = trim_frame_beg cfg).
  { unfold frame_beg. destruct (Z.eqb_spec (trim_frame_beg cfg) (-1)); lia. }
  assert (Hend : forall n, frame_end cfg n = trim_frame_end cfg).
  { intros n. unfold frame_end.
    destruct (Z.eqb_spec (trim_frame_end cfg) (-1)); lia. }
  rewrite Hbeg, Hend, !py_slice_empty by exact Hb. reflexivity.
Qed.

(** *** [motion_from_fbx] and [amp_npy_from_fbx] *)

(** [SkeletonMotion.from_fbx] belongs to the pose library. *)
Variable from_fbx : string -> string -> R -> option SkeletonMotion.

(** [motion_from_fbx]; plotting has no effect on the result. *)
Definition motion_from_fbx (fbx_file_path root_joint : string) (fps : R)
    (visualize : bool) : option SkeletonMotion :=
  from_fbx fbx_file_path root_joint fps.

(** [s.replace(old, new)] for a non-empty [old]: the occurrences of
    [old] are replaced from left to right, without overlap; [skip] counts
    the characters of an occurrence that are still to be passed over. *)
Fixpoint replace_from (old new : string) (skip : nat) (s : string) : string :=
  match s with
  | EmptyString => EmptyString
  | String c rest =>
      match skip with
      | S skip => replace_from old new skip rest
      | O =>
          if String.prefix old s
          then new +:+ replace_from old new (String.length old - 1) rest
          else String c (replace_from old new 0 rest)
      end
  end.

Definition replace (old new s : string) : string := replace_from old new 0 s.

(** [old] occurs somewhere in [s]. *)
Fixpoint occurs (old s : string) : bool :=
  match s with
  | EmptyString => String.prefix old EmptyString
  | String c rest => String.prefix old s || occurs old rest
  end.

(** The joint mapping from the Xsens skeleton to the AMP humanoid. *)
Definition amp_joint_mapping : list (string * string) :=
  [("Hips", "pelvis"); ("LeftUpLeg", "left_thigh"); ("LeftLeg", "left_shin");
   ("LeftToeBase", "left_foot"); ("RightUpLeg", "right_thigh");
   ("RightLeg", "right_shin"); ("RightToeBase", "right_foot");
   ("Spine", "torso"); ("Head", "head"); ("LeftArm", "left_upper_arm");
   ("LeftForeArm", "left_lower_arm"); ("LeftHand", "left_hand");
   ("RightArm", "right_upper_arm"); ("RightForeArm", "right_lower_arm");
   ("RightHand", "right_hand")]%string.

(** The configuration that [amp_npy_from_fbx] builds; the path it first
    computes from [fbx_file[:-4]] is overwritten before it is used. *)
Definition amp_config (fbx_file tpose_file amp_tpose_file : string)
  : retarget_cfg :=
  {| target_motion_path := replace ".fbx" "_amp.npy" fbx_file;
     source_tpose := tpose_file;
     target_tpose := amp_tpose_file;
     joint_mapping := amp_joint_mapping;
     rotation := (0.5, 0.5, 0.5, 0.5);
     scale := 0.001;
     root_height_offset := 0.0;
     trim_frame_beg := 0;
     trim_frame_end := -1 |}.

Definition amp_npy_from_fbx (fbx_file tpose_file amp_tpose_file : string)
    (verbose : bool) (saved : gmap string SkeletonMotion)
  : option (gmap string SkeletonMotion) :=
  let config := amp_config fbx_file tpose_file amp_tpose_file in
  motion ← motion_from_fbx fbx_file "Hips" 60 verbose;
  motion_retargeting config motion saved.

Lemma prefix_fbx_short (c : ascii) (stem : string) :
  String.prefix ".fbx" (String c (stem +:+ ".fbx"))
  = String.prefix ".fbx" (String c (stem +:+ ".fb")).
Proof.
  destruct stem as [|c1 [|c2 [|c3 [|c4 stem]]]]; reflexivity.
Qed.

Lemma replace_fbx_suffix (stem : string) :
  occurs ".fbx" (stem +:+ ".fb") = false ->
  replace ".fbx" "_amp.npy" (stem +:+ ".fbx") = stem +:+ "_amp.npy".
Proof.
  unfold replace. induction stem as [|c stem IH]; intros Hocc.
  - reflexivity.
  - change (String c stem +:+ ".fb") with (String c (stem +:+ ".fb")) in Hocc.
    cbn [occurs] in Hocc. apply orb_false_iff in Hocc as [Hhere Hrest].
    change (String c stem +:+ ".fbx") with (String c (stem +:+ ".fbx")).
    cbn [replace_from]. rewrite prefix_fbx_short, Hhere.
    rewrite IH by exact Hrest. reflexivity.
Qed.

Lemma py_slice_all {A : Type} (l : list A) :
  py_slice 0 (Z.of_nat (length l)) l = l.
Proof.
  unfold py_slice, py_index. cbn [Z.ltb Z.compare].
  destruct (Z.ltb_spec (Z.of_nat (length l)) 0) as [?|_]; [lia|].
  rewrite Z.min_id. replace (Z.min 0 (Z.of_nat (length l))) with 0%Z by lia.
  cbn [Z.to_nat drop]. rewrite Z.sub_0_r, Nat2Z.id. apply firstn_all.
Qed.

(** X25.  For a file [stem.fbx] whose name holds [.fbx] nowhere else,
    [amp_npy_from_fbx] reads the motion with root joint [Hips] at 60
    frames per second, retargets it with the fixed joint mapping,
    rotation and scale, and saves it under [stem_amp.npy]; every frame
    of the retargeted motion is kept, and for a kinematics in which the
    joints follow the root the lowest joint of the saved motion is at
    height 0. *)
Theorem amp_npy_from_fbx_saved (stem tpose_file amp_tpose_file : string)
    (verbose : bool) (saved : gmap string SkeletonMotion)
    (motion : SkeletonMotion) (source target : TPose) :
  let fbx_file := stem +:+ ".fbx" in
  let target_motion :=
    retarget_to_by_tpose motion amp_joint_mapping source target
      (0.5, 0.5, 0.5, 0.5) 0.001 in
  let tree := skeleton_tree target_motion in
  occurs ".fbx" (stem +:+ ".fb") = false ->
  from_fbx fbx_file "Hips" 60 = Some motion ->
  from_file tpose_file = Some source ->
  from_file amp_tpose_file = Some target ->
  length (root_translation target_motion)
  = length (local_rotation target_motion) ->
  List.concat (motion_global_translation target_motion) <> [] ->
  (forall rot t dz,
      global_translation tree rot (add_z t dz)
      = List.map (fun p => add_z p dz) (global_translation tree rot t)) ->
  exists m,
    amp_npy_from_fbx fbx_file tpose_file amp_tpose_file verbose saved
    = Some (<[stem +:+ "_amp.npy" := m]> saved)
    /\ local_rotation m = local_rotation target_motion
    /\ skeleton_tree m = tree
    /\ fps m = fps target_motion
    /\ min_all (List.map v3_z (List.concat (motion_global_translation m)))
       = Some 0.
Proof.
  intros fbx_file target_motion tree Hocc Hfbx Hsource Htarget Hlen
    Hjoints Hfollow.
  set (heights :=
         List.map v3_z (List.concat (motion_global_translation target_motion))).
  destruct (min_all heights) as [min_h|] eqn:Hmin.
  2:{ unfold heights in Hmin.
      destruct (List.concat (motion_global_translation target_motion));
        [congruence|discriminate]. }
  set (dz := 0.0 - min_h).
  exists {| skeleton_tree := tree;
            local_rotation := local_rotation target_motion;
            root_translation :=
              List.map (fun t => add_z t dz) (root_translation target_motion);
            fps := fps target_motion |}.
  split; [|split; [reflexivity|split; [reflexivity|split; [reflexivity|]]]].
  - unfold amp_npy_from_fbx, motion_from_fbx. fold fbx_file. rewrite Hfbx. cbn.
    unfold motion_retargeting. cbn. rewrite Hsource, Htarget. cbn.
    fold target_motion. rewrite py_slice_all, <- Hlen, py_slice_all.
    unfold heights, motion_global_translation in Hmin. rewrite Hmin. cbn.
    unfold fbx_file. rewrite replace_fbx_suffix by exact Hocc.
    do 3 f_equal. apply List.map_ext. intros t. rewrite add_z_add_z.
    f_equal. unfold dz. ring.
  - unfold motion_global_translation. cbn.
    rewrite (heights_shifted tree dz (local_rotation target_motion)
               (root_translation target_motion)
               (fun rot t => Hfollow rot t dz)).
    fold tree in heights.
    change (List.map v3_z
              (List.concat
                 (zip_with (global_translation tree)
                    (local_rotation target_motion)
                    (root_translation target_motion))))
      with heights.
    rewrite (min_all_plus heights dz min_h Hmin). f_equal. unfold dz. lra.
Qed.

End Retargeting.

(** *** A humanoid at rest

    Thirteen joints, the limbs straight: the arms point sideways from
    the shoulders, the legs down from the hips.  The examples use the
    usual quaternion operations and the forward kinematics above. *)

Definition humanoid_indices : gmap string nat :=
  list_to_map
    [("pelvis"%string, 0%nat);
     ("right_upper_arm"%string, 1%nat); ("right_lower_arm"%string, 2%nat);
     ("right_hand"%string, 3%nat);
     ("left_upper_arm"%string, 4%nat); ("left_lower_arm"%string, 5%nat);
     ("left_hand"%string, 6%nat);
     ("right_thigh"%string, 7%nat); ("right_shin"%string, 8%nat);
     ("right_foot"%string, 9%nat);
     ("left_thigh"%string, 10%nat); ("left_shin"%string, 11%nat);
     ("left_foot"%string, 12%nat)].

Definition humanoid_parents : list Z :=
  [-1; 0; 1; 2; 0; 4; 5; 0; 7; 8; 0; 10; 11]%Z.

Definition humanoid_offsets : list vec3 :=
  [(0, 0, 0);
   (0, -1, 2); (0, -1, 0); (0, -1, 0);
   (0, 1, 2); (0, 1, 0); (0, 1, 0);
   (0, -1, 0); (0, 0, -1); (0, 0, -1);
   (0, 1, 0); (0, 0, -1); (0, 0, -1)].

Definition humanoid : SkeletonTree := {|
  _node_indices := humanoid_indices;
  parent_indices := humanoid_parents;
  local_translation := humanoid_offsets;
|}.

Definition humanoid_ids : joint_ids := {|
  right_upper_arm_id := 1; right_lower_arm_id := 2; right_hand_id := 3;
  left_upper_arm_id := 4; left_lower_arm_id := 5; left_hand_id := 6;
  right_thigh_id := 7; right_shin_id := 8; right_foot_id := 9;
  left_thigh_id := 10; left_shin_id := 11; left_foot_id := 12;
|}.

Definition rest_pose : list quat := repeat std_quat_identity 13.

(** One frame at rest, the pelvis at height 3. *)
Definition resting : SkeletonMotion := {|
  skeleton_tree := humanoid;
  local_rotation := [rest_pose];
  root_translation := [(0, 0, 3)];
  fps := 60;
|}.

(** Three frames at rest, the pelvis at heights 3, 4 and 5. *)
Definition standing : SkeletonMotion := {|
  skeleton_tree := humanoid;
  local_rotation := [rest_pose; rest_pose; rest_pose];
  root_translation := [(0, 0, 3); (0, 0, 4); (0, 0, 5)];
  fps := 60;
|}.

Definition std_fk : SkeletonTree -> list quat -> vec3 -> list vec3 :=
  fk std_quat_mul std_quat_rotate.

Definition std_project_joints : SkeletonMotion -> option SkeletonMotion :=
  _project_joints std_quat_mul std_quat_rotate std_quat_from_angle_axis
    std_quat_identity std_fk.

(** Retargeting a motion to its own skeleton, the T-pose files being
    there. *)
Definition std_motion_retargeting :
  retarget_cfg -> SkeletonMotion -> gmap string SkeletonMotion ->
  option (gmap string SkeletonMotion) :=
  motion_retargeting std_fk unit (fun _ => Some tt)
    (fun motion _ _ _ _ _ => motion).

Definition trim_cfg (trim_beg trim_end : Z) : retarget_cfg := {|
  target_motion_path := "motion_amp.npy";
  source_tpose := "tpose.npy";
  target_tpose := "amp_humanoid_tpose.npy";
  joint_mapping := [("Hips"%string, "pelvis"%string)];
  rotation := (0.5, 0.5, 0.5, 0.5);
  scale := 0.001;
  root_height_offset := 0.0;
  trim_frame_beg := trim_beg;
  trim_frame_end := trim_end;
|}.

Lemma humanoid_lookup_ids : lookup_joint_ids humanoid = Some humanoid_ids.
Proof. reflexivity. Qed.

Lemma humanoid_assigned_NoDup : NoDup (assigned_ids humanoid_ids).
Proof.
  unfold assigned_ids. simpl.
  repeat (apply NoDup_cons_2;
          [rewrite ?not_elem_of_cons; repeat split; try lia;
           apply not_elem_of_nil|]).
  apply NoDup_nil_2.
Qed.

Lemma humanoid_wf_parents : wf_parents (parent_indices humanoid).
Proof.
  intros k p Hk. simpl in Hk. unfold humanoid_parents in Hk.
  do 13 (destruct k as [|k]; [injection Hk as <-; lia|]).
  discriminate.
Qed.

Lemma rest_frame_in_range (t : vec3) :
  frame_in_range humanoid humanoid_ids (std_fk humanoid rest_pose t) rest_pose.
Proof.
  split; [reflexivity|]. split; [reflexivity|].
  unfold all_ids, assigned_ids. simpl. unfold humanoid_offsets. simpl.
  repeat (constructor; [lia|]). constructor.
Qed.

Lemma std_quat_rotate_identity (v : vec3) :
  std_quat_rotate std_quat_identity v = v.
Proof.
  destruct v as [[x y] z]. unfold std_quat_rotate, std_quat_identity.
  f_equal; [f_equal|]; ring.
Qed.

Lemma std_quat_mul_identity :
  std_quat_mul std_quat_identity std_quat_identity = std_quat_identity.
Proof.
  unfold std_quat_mul, std_quat_identity. f_equal; [f_equal; [f_equal|]|]; ring.
Qed.

(** At rest the right shoulder, elbow and hand lie on one line. *)
Lemma rest_right_arm :
  std_fk humanoid rest_pose (0, 0, 3) !! 1%nat = Some (0, -1, 5)
  /\ std_fk humanoid rest_pose (0, 0, 3) !! 2%nat = Some (0, -2, 5)
  /\ std_fk humanoid rest_pose (0, 0, 3) !! 3%nat = Some (0, -3, 5).
Proof.
  assert (H1 : std_fk humanoid rest_pose (0, 0, 3) !! 1%nat
               = Some (v3_add (0, 0, 3)
                         (std_quat_rotate std_quat_identity (0, -1, 2))))
    by reflexivity.
  assert (H2 : std_fk humanoid rest_pose (0, 0, 3) !! 2%nat
               = Some (v3_add
                         (v3_add (0, 0, 3)
                            (std_quat_rotate std_quat_identity (0, -1, 2)))
                         (std_quat_rotate
                            (std_quat_mul std_quat_identity std_quat_identity)
                            (0, -1, 0))))
    by reflexivity.
  assert (H3 : std_fk humanoid rest_pose (0, 0, 3) !! 3%nat
               = Some (v3_add
                         (v3_add
                            (v3_add (0, 0, 3)
                               (std_quat_rotate std_quat_identity (0, -1, 2)))
                            (std_quat_rotate
                               (std_quat_mul std_quat_identity
                                  std_quat_identity)
                               (0, -1, 0)))
                         (std_quat_rotate
                            (std_quat_mul
                               (std_quat_mul std_quat_identity
                                  std_quat_identity)
                               std_quat_identity)
                            (0, -1, 0))))
    by reflexivity.
  rewrite H1, H2, H3.
  rewrite !std_quat_mul_identity, !std_quat_rotate_identity.
  unfold v3_add.
  repeat split; f_equal; (f_equal; [f_equal|]); ring.
Qed.

Lemma clamp_1 : Torch.clamp (-1) 1 1 = 1.
Proof.
  unfold Torch.clamp. rewrite Rmax_left by lra. apply Rmin_left. lra.
Qed.

Lemma clamp_minus_1 : Torch.clamp (-1) 1 (-1) = -1.
Proof.
  unfold Torch.clamp. rewrite Rmax_left by lra. apply Rmin_left. lra.
Qed.

Lemma acos_minus_1 : acos (-1) = PI.
Proof.
  replace (-1) with (- (1)) by lra. rewrite acos_opp, acos_1. ring.
Qed.

(** The code's bend of the straight arm is 0. *)
Lemma straight_arm_bend : bend_angle (0, -1, 5) (0, -2, 5) (0, -3, 5) = 0.
Proof.
  unfold bend_angle, v3_dot, v3_unit, v3_sub, v3_norm, v3_div, v3_mul, v3_sum.
  replace ((0 - 0) * (0 - 0) + (-2 - -1) * (-2 - -1) + (5 - 5) * (5 - 5))
    with 1 by ring.
  replace ((0 - 0) * (0 - 0) + (-3 - -2) * (-3 - -2) + (5 - 5) * (5 - 5))
    with 1 by ring.
  rewrite sqrt_1.
  replace ((0 - 0) / 1 * ((0 - 0) / 1) + (-2 - -1) / 1 * ((-3 - -2) / 1)
           + (5 - 5) / 1 * ((5 - 5) / 1)) with 1 by field.
  rewrite clamp_1. apply acos_1.
Qed.

(** The bend as the claim words it is a half turn. *)
Lemma straight_arm_claimed_bend :
  claimed_bend_angle (0, -1, 5) (0, -2, 5) (0, -3, 5) = PI.
Proof.
  unfold claimed_bend_angle, v3_dot, v3_unit, v3_sub, v3_norm, v3_div, v3_mul,
    v3_sum.
  replace ((0 - 0) * (0 - 0) + (-2 - -1) * (-2 - -1) + (5 - 5) * (5 - 5))
    with 1 by ring.
  replace ((0 - 0) * (0 - 0) + (-2 - -3) * (-2 - -3) + (5 - 5) * (5 - 5))
    with 1 by ring.
  rewrite sqrt_1.
  replace ((0 - 0) / 1 * ((0 - 0) / 1) + (-2 - -1) / 1 * ((-2 - -3) / 1)
           + (5 - 5) / 1 * ((5 - 5) / 1)) with (-1) by field.
  rewrite clamp_minus_1. apply acos_minus_1.
Qed.

(** No bend and a half turn give different rotations about
    [(0, 1, 0)]: their [w] components are [cos 0] and [cos (-PI/2)]. *)
Lemma no_bend_is_not_half_turn :
  std_quat_from_angle_axis (hinge_angle Arm 0) (0, 1, 0) false
  <> std_quat_from_angle_axis (hinge_angle Arm PI) (0, 1, 0) false.
Proof.
  unfold std_quat_from_angle_axis, hinge_angle, v3_div.
  intros Heq. injection Heq as _ _ _ Hw.
  rewrite Rabs_R0 in Hw.
  rewrite (Rabs_right PI) in Hw by (pose proof PI_RGT_0; lra).
  replace (- 0 / 2) with 0 in Hw by field.
  replace (- PI / 2) with (- (PI / 2)) in Hw by field.
  rewrite cos_0, cos_neg, cos_PI2 in Hw. lra.
Qed.

Lemma resting_global_translation :
  motion_global_translation std_fk resting
  = [std_fk humanoid rest_pose (0, 0, 3)].
Proof. reflexivity. Qed.

Lemma resting_in_range (f : nat) (positions : list vec3)
    (rotations : list quat) :
  motion_global_translation std_fk resting !! f = Some positions ->
  local_rotation resting !! f = Some rotations ->
  frame_in_range humanoid humanoid_ids positions rotations.
Proof.
  rewrite resting_global_translation. intros Hp Hr.
  destruct f as [|f]; [|discriminate Hr].
  injection Hp as <-. injection Hr as <-. apply rest_frame_in_range.
Qed.



(** The local rotations of the motion saved under the target path. *)
Definition saved_frames (result : option (gmap string SkeletonMotion))
  : option (list (list quat)) :=
  saved ← result; motion ← saved !! "motion_amp.npy"%string;
  Some (local_rotation motion).

Lemma standing_follows_root (rot : list quat) (t : vec3) (dz : R) :
  std_fk humanoid rot (add_z t dz)
  = List.map (fun p => add_z p dz) (std_fk humanoid rot t).
Proof. apply fk_add_z, humanoid_wf_parents. Qed.

Lemma standing_heights_nonempty :
  List.map v3_z
    (List.concat
       (zip_with (std_fk humanoid)
          (py_slice 0 3 (local_rotation standing))
          (py_slice 0 3 (root_translation standing))))
  <> [].
Proof.
  intros Hnil. apply (f_equal length) in Hnil. revert Hnil.
  change (39%nat = 0%nat -> False). discriminate.
Qed.



(** *** The standing humanoid, projected, trimmed and converted *)

Lemma standing_in_range (f : nat) (positions : list vec3)
    (rotations : list quat) :
  motion_global_translation std_fk standing !! f = Some positions ->
  local_rotation standing !! f = Some rotations ->
  frame_in_range humanoid humanoid_ids positions rotations.
Proof.
  intros Hp Hr.
  apply lookup_zip_with_Some in Hp as (rot & t & -> & Hrot & _).
  assert (rot = rest_pose) as ->.
  { do 3 (destruct f as [|f]; [injection Hrot as <-; reflexivity|]).
    discriminate. }
  assert (rotations = rest_pose) as ->.
  { do 3 (destruct f as [|f]; [injection Hr as <-; reflexivity|]).
    discriminate. }
  apply rest_frame_in_range.
Qed.

Lemma project_joints_hinges_witness :
  exists motion',
    std_project_joints standing = Some motion'
    /\ forall new,
         local_rotation motion' !! 2%nat = Some new ->
         exists q, new !! 2%nat = Some q
                   /\ hinge_in_range std_quat_from_angle_axis Arm q.
Proof.
  destruct (project_joints_hinges std_quat_mul std_quat_rotate
              std_quat_from_angle_axis std_quat_identity std_fk standing
              humanoid_ids humanoid_lookup_ids humanoid_assigned_NoDup
              standing_in_range)
    as (motion' & Hrun & Hall).
  exists motion'. split; [exact Hrun|]. intros new Hnew.
  destruct (Hall 2%nat new Hnew) as (Helbow & _). exact Helbow.
Defined.

Lemma standing_projects :
  exists motion', std_project_joints standing = Some motion'.
Proof.
  destruct (project_joints_frames std_quat_mul std_quat_rotate
              std_quat_from_angle_axis std_quat_identity std_fk standing
              humanoid_ids humanoid_lookup_ids humanoid_assigned_NoDup
              standing_in_range)
    as (new_rotation & Hrun & _).
  eexists. exact Hrun.
Qed.

Lemma project_joints_trim_witness :
  exists motion',
    std_project_joints standing = Some motion'
    /\ std_project_joints (trim_frames 1 3 standing)
       = Some (trim_frames 1 3 motion').
Proof.
  destruct standing_projects as [motion' Hrun]. exists motion'.
  split; [exact Hrun|].
  apply (project_joints_trim std_quat_mul std_quat_rotate
           std_quat_from_angle_axis std_quat_identity std_fk 1 3 standing
           motion' eq_refl Hrun).
Defined.

Lemma motion_retargeting_empty_trim_witness :
  std_motion_retargeting (trim_cfg 2 1) standing ∅ = None.
Proof.
  apply (motion_retargeting_empty_trim std_fk unit (fun _ => Some tt)
           (fun motion _ _ _ _ _ => motion) (trim_cfg 2 1) standing ∅).
  simpl. lia.
Defined.

(** Every FBX file holds the standing humanoid. *)
Definition standing_fbx (fbx_file_path root_joint : string) (fps : R)
  : option SkeletonMotion := Some standing.

Lemma standing_joints_nonempty :
  List.concat (motion_global_translation std_fk standing) <> [].
Proof.
  intros Hnil. apply (f_equal length) in Hnil. revert Hnil.
  change (39%nat = 0%nat -> False). discriminate.
Qed.

Lemma amp_npy_from_fbx_saved_witness :
  exists m,
    amp_npy_from_fbx std_fk unit (fun _ => Some tt)
      (fun motion _ _ _ _ _ => motion) standing_fbx
      "data/walk.fbx" "tpose.npy" "amp_humanoid_tpose.npy" false ∅
    = Some (<["data/walk_amp.npy"%string := m]> ∅)
    /\ local_rotation m = local_rotation standing
    /\ min_all (List.map v3_z (List.concat (motion_global_translation std_fk m)))
       = Some 0.
Proof.
  destruct (amp_npy_from_fbx_saved std_fk unit (fun _ => Some tt)
              (fun motion _ _ _ _ _ => motion) standing_fbx
              "data/walk" "tpose.npy" "amp_humanoid_tpose.npy" false ∅
              standing tt tt)
    as (m & Hrun & Hrot & _ & _ & Hground).
  - reflexivity.
  - reflexivity.
  - reflexivity.
  - reflexivity.
  - reflexivity.
  - exact standing_joints_nonempty.
  - exact standing_follows_root.
  - exists m. split; [exact Hrun|]. split; [exact Hrot|exact Hground].
Defined.

End XsensFbxToAmpNpy.
